(** * static_hash_store: a shallow embedding of the store and its Bloom filter

    The Python package [static_hash_store] (const.py, bloom.py, store.py,
    [delta_encode] of compression.py and examples/build_store.py) is
    embedded as executable Rocq functions.  A file image and every [bytes]
    object is a [list byte]; Python integers are [Z]; an operation that can
    raise is an [outcome]; a method that mutates [self] returns the new
    object next to its outcome.  The hash [hashlib.blake2b] is implemented
    after RFC 7693 so that every statement can be evaluated on real keys. *)

From Stdlib Require Import String ZArith List Lia Bool.
From Stdlib Require DecimalString DecimalFacts DecimalPos.
From coqutil Require Import Byte Word.LittleEndianList.
Import ListNotations.
Local Open Scope Z_scope.

Definition bytes := list byte.

(** [len(x)] as a Python integer. *)
Definition len {A} (l : list A) : Z := Z.of_nat (length l).

(* ================================================================== *)
(** ** hashlib.blake2b (RFC 7693, unkeyed, sequential mode) *)

Module Blake2b.

Definition w64 (z : Z) : Z := z mod 2 ^ 64.

Definition rotr64 (x n : Z) : Z :=
  Z.lor (Z.shiftr x n) (w64 (Z.shiftl x (64 - n))).

Definition IV : list Z :=
  [ 0x6a09e667f3bcc908; 0xbb67ae8584caa73b; 0x3c6ef372fe94f82b;
    0xa54ff53a5f1d36f1; 0x510e527fade682d1; 0x9b05688c2b3e6c1f;
    0x1f83d9abfb41bd6b; 0x5be0cd19137e2179 ].

Definition SIGMA : list (list nat) :=
  [ [ 0; 1; 2; 3; 4; 5; 6; 7; 8; 9; 10; 11; 12; 13; 14; 15];
    [14; 10; 4; 8; 9; 15; 13; 6; 1; 12; 0; 2; 11; 7; 5; 3];
    [11; 8; 12; 0; 5; 2; 15; 13; 10; 14; 3; 6; 7; 1; 9; 4];
    [ 7; 9; 3; 1; 13; 12; 11; 14; 2; 6; 5; 10; 4; 0; 15; 8];
    [ 9; 0; 5; 7; 2; 4; 10; 15; 14; 1; 11; 12; 6; 8; 3; 13];
    [ 2; 12; 6; 10; 0; 11; 8; 3; 4; 13; 7; 5; 15; 14; 1; 9];
    [12; 5; 1; 15; 14; 13; 4; 10; 0; 7; 6; 3; 9; 2; 8; 11];
    [13; 11; 7; 14; 12; 1; 3; 9; 5; 0; 15; 4; 8; 6; 2; 10];
    [ 6; 15; 14; 9; 11; 3; 0; 8; 12; 2; 13; 7; 1; 4; 10; 5];
    [10; 2; 8; 4; 7; 6; 1; 5; 15; 11; 9; 14; 3; 12; 13; 0] ]%nat.

Definition getw (v : list Z) (i : nat) : Z := nth i v 0.

Fixpoint setw (v : list Z) (i : nat) (x : Z) : list Z :=
  match v, i with
  | [], _ => []
  | _ :: t, O => x :: t
  | h :: t, S i' => h :: setw t i' x
  end.

(** The mixing function G on the working vector. *)
Definition G (v : list Z) (a b c d : nat) (x y : Z) : list Z :=
  let v := setw v a (w64 (getw v a + getw v b + x)) in
  let v := setw v d (rotr64 (Z.lxor (getw v d) (getw v a)) 32) in
  let v := setw v c (w64 (getw v c + getw v d)) in
  let v := setw v b (rotr64 (Z.lxor (getw v b) (getw v c)) 24) in
  let v := setw v a (w64 (getw v a + getw v b + y)) in
  let v := setw v d (rotr64 (Z.lxor (getw v d) (getw v a)) 16) in
  let v := setw v c (w64 (getw v c + getw v d)) in
  setw v b (rotr64 (Z.lxor (getw v b) (getw v c)) 63).

Definition mix_round (m : list Z) (v : list Z) (s : list nat) : list Z :=
  let w i := getw m (nth i s 0%nat) in
  let v := G v 0 4 8 12 (w 0%nat) (w 1%nat) in
  let v := G v 1 5 9 13 (w 2%nat) (w 3%nat) in
  let v := G v 2 6 10 14 (w 4%nat) (w 5%nat) in
  let v := G v 3 7 11 15 (w 6%nat) (w 7%nat) in
  let v := G v 0 5 10 15 (w 8%nat) (w 9%nat) in
  let v := G v 1 6 11 12 (w 10%nat) (w 11%nat) in
  let v := G v 2 7 8 13 (w 12%nat) (w 13%nat) in
  G v 3 4 9 14 (w 14%nat) (w 15%nat).

(** Twelve rounds: the ten rows of SIGMA, then rows 0 and 1 again. *)
Definition schedule : list (list nat) := SIGMA ++ firstn 2 SIGMA.

(** The compression function F: chaining value [h], message block [m]
    (sixteen words), byte counter [t], final-block flag [f]. *)
Definition F (h m : list Z) (t : Z) (f : bool) : list Z :=
  let v := h ++ IV in
  let v := setw v 12 (Z.lxor (getw v 12) (w64 t)) in
  let v := setw v 13 (Z.lxor (getw v 13) (w64 (Z.shiftr t 64))) in
  let v := if f then setw v 14 (Z.lxor (getw v 14) (2 ^ 64 - 1)) else v in
  let v := fold_left (mix_round m) schedule v in
  map (fun i => Z.lxor (Z.lxor (getw h i) (getw v i)) (getw v (i + 8)%nat))
      (seq 0 8).

(** A 128-byte block as sixteen little-endian words; a short block is
    padded with zero bytes. *)
Fixpoint words (n : nat) (block : bytes) : list Z :=
  match n with
  | O => []
  | S n' => le_combine (firstn 8 block) :: words n' (skipn 8 block)
  end.

(** All blocks but the last are compressed with the running byte count;
    the last one with the total length [ll] and the final flag.  The
    empty message is one block of zeros. *)
Fixpoint absorb (fuel : nat) (h : list Z) (data : bytes) (t ll : Z) : list Z :=
  match fuel with
  | O => h
  | S fuel' =>
      if len data <=? 128
      then F h (words 16 data) ll true
      else absorb fuel' (F h (words 16 (firstn 128 data)) (t + 128) false)
                  (skipn 128 data) (t + 128) ll
  end.

(** [hashlib.blake2b(data, digest_size=nn).digest()]. *)
Definition blake2b (data : bytes) (digest_size : nat) : bytes :=
  let h0 := setw IV 0 (Z.lxor (getw IV 0)
                         (Z.lxor 0x01010000 (Z.of_nat digest_size))) in
  let h := absorb (S (length data)) h0 data 0 (len data) in
  firstn digest_size (flat_map (le_split 8) h).

End Blake2b.

(* ================================================================== *)
(** ** Outcomes of Python operations *)

Inductive exn : Type :=
| ValueError (msg : string)
| StructError            (* struct.error *)
| OverflowError
| ZeroDivisionError
| IndexError
| UnicodeEncodeError.

(** [Ret] is a normal return, [Raise] an exception that leaves the callee;
    [Diverge] is a loop that was still running when its fuel ran out. *)
Inductive outcome (A : Type) : Type :=
| Ret (a : A)
| Raise (e : exn)
| Diverge.
Arguments Ret {A} a.
Arguments Raise {A} e.
Arguments Diverge {A}.

Definition obind {A B} (o : outcome A) (f : A -> outcome B) : outcome B :=
  match o with
  | Ret a => f a
  | Raise e => Raise e
  | Diverge => Diverge
  end.

(** A method on a mutable object: the object after the call and the
    outcome.  An exception keeps whatever was written before it. *)
Definition M (S A : Type) : Type := S -> S * outcome A.

Definition ret {S A} (a : A) : M S A := fun s => (s, Ret a).
Definition raise {S A} (e : exn) : M S A := fun s => (s, Raise e).
Definition lift {S A} (o : outcome A) : M S A := fun s => (s, o).
Definition gets {S A} (f : S -> A) : M S A := fun s => (s, Ret (f s)).
Definition modify {S} (f : S -> S) : M S unit := fun s => (f s, Ret tt).
Definition bind {S A B} (c : M S A) (f : A -> M S B) : M S B :=
  fun s => match c s with
           | (s', Ret a) => f a s'
           | (s', Raise e) => (s', Raise e)
           | (s', Diverge) => (s', Diverge)
           end.

Declare Scope py_scope.
Delimit Scope py_scope with py.
Notation "x <- c ;; k" := (bind c (fun x => k))
  (at level 61, c at next level, right associativity) : py_scope.
Notation "c ;;; k" := (bind c (fun _ => k))
  (at level 61, right associativity) : py_scope.
Notation "x <~ o ;; k" := (obind o (fun x => k))
  (at level 61, o at next level, right associativity) : py_scope.

(* ================================================================== *)
(** ** Python sequences: slices, items, mmap *)

(** The largest [Py_ssize_t] (64-bit build): the bound on every length
    and on every integer converted to an index or a size. *)
Definition PY_SSIZE_T_MAX : Z := 2 ^ 63 - 1.

Definition zeros (n : Z) : bytes := repeat Byte.x00 (Z.to_nat n).

Fixpoint bytes_eqb (a b : bytes) : bool :=
  match a, b with
  | [], [] => true
  | x :: a', y :: b' => Byte.eqb x y && bytes_eqb a' b'
  | _, _ => false
  end.

(** Slice index adjustment: a negative index counts from the end, and
    the result is clamped to [0, n]. *)
Definition adjust (n i : Z) : Z :=
  let j := if i <? 0 then i + n else i in Z.max 0 (Z.min j n).

(** [b[lo:hi]]. *)
Definition slice (b : bytes) (lo hi : Z) : bytes :=
  let lo' := adjust (len b) lo in
  let hi' := adjust (len b) hi in
  firstn (Z.to_nat (hi' - lo')) (skipn (Z.to_nat lo') b).

(** [mm[lo:hi] = data] on a mmap, which cannot change its length. *)
Definition mmap_setslice (mm : bytes) (lo hi : Z) (data : bytes) : outcome bytes :=
  let lo' := adjust (len mm) lo in
  let hi' := adjust (len mm) hi in
  if len data =? Z.max 0 (hi' - lo')
  then Ret (firstn (Z.to_nat lo') mm ++ data
            ++ skipn (Z.to_nat (lo' + len data)) mm)
  else Raise IndexError.

(** [mm.resize(n)]: the file is cut or extended with zero bytes. *)
Definition mmap_resize (mm : bytes) (n : Z) : outcome bytes :=
  if PY_SSIZE_T_MAX <? n then Raise OverflowError
  else if n <? 0 then Raise (ValueError "new size out of range")
  else Ret (firstn (Z.to_nat n) mm ++ zeros (n - len mm)).

(** Item index of a sequence of length [n]. *)
Definition item_index (n i : Z) : option nat :=
  let j := if i <? 0 then i + n else i in
  if (0 <=? j) && (j <? n) then Some (Z.to_nat j) else None.

Fixpoint set_nth {A} (l : list A) (i : nat) (x : A) : list A :=
  match l, i with
  | [], _ => []
  | _ :: t, O => x :: t
  | h :: t, S i' => h :: set_nth t i' x
  end.

(* ================================================================== *)
(** ** struct: little-endian, standard sizes, no padding *)

(** One unsigned field of [width] bytes. *)
Definition pack_uint (width : nat) (v : Z) : outcome bytes :=
  if (0 <=? v) && (v <? 2 ^ (8 * Z.of_nat width))
  then Ret (le_split width v) else Raise StructError.

(** The offset checks of [unpack_from] and [pack_into]: the position the
    [size] bytes are at. *)
Definition buffer_at (size : Z) (buflen offset : Z) : outcome Z :=
  if (PY_SSIZE_T_MAX <? offset) || (offset <? - PY_SSIZE_T_MAX - 1)
  then Raise OverflowError
  else if offset <? 0 then
    if 0 <? offset + size then Raise StructError
    else if offset + buflen <? 0 then Raise StructError
    else Ret (offset + buflen)
  else if buflen - offset <? size then Raise StructError
  else Ret offset.

Definition unpack_from (size : Z) (buf : bytes) (offset : Z) : outcome bytes :=
  (pos <~ buffer_at size (len buf) offset ;;
   Ret (slice buf pos (pos + size)))%py.

Definition pack_into (data : bytes) (buf : bytes) (offset : Z) : outcome bytes :=
  (pos <~ buffer_at (len data) (len buf) offset ;;
   Ret (firstn (Z.to_nat pos) buf ++ data
        ++ skipn (Z.to_nat (pos + len data)) buf))%py.

Definition uint_at (raw : bytes) (pos width : Z) : Z :=
  le_combine (slice raw pos (pos + width)).

(* ================================================================== *)
(** ** const.py *)

Definition MAGIC : bytes := list_byte_of_string "SHS1".
Definition HEADER_FMT_SIZE : Z := 4 + 2 + 2 + 4 + 8.   (* "<4sHHLQ" *)
Definition HEADER_SIZE : Z := 24.
Definition BUCKET_SIZE : Z := 8.                       (* "<Q" *)
Definition ENTRY_HDR_SIZE : Z := 8 + 8 + 4.            (* "<QQL" *)
Definition VERSION_MINOR : Z := 0.

(** [struct.pack(HEADER_FMT, MAGIC, VERSION_MINOR, key_size, segments, bloom_bits)]. *)
Definition pack_header (key_size segments bloom_bits : Z) : outcome bytes :=
  (v <~ pack_uint 2 VERSION_MINOR ;;
   ks <~ pack_uint 2 key_size ;;
   sg <~ pack_uint 4 segments ;;
   bb <~ pack_uint 8 bloom_bits ;;
   Ret (MAGIC ++ v ++ ks ++ sg ++ bb))%py.

(** [struct.pack(ENTRY_HDR_FMT, next_offset, key_hash, value_size)]. *)
Definition pack_entry_hdr (nxt key_hash val_sz : Z) : outcome bytes :=
  (a <~ pack_uint 8 nxt ;;
   b <~ pack_uint 8 key_hash ;;
   c <~ pack_uint 4 val_sz ;;
   Ret (a ++ b ++ c))%py.

(** [header.ljust(HEADER_SIZE, b"\0")]. *)
Definition ljust (b : bytes) (width : Z) : bytes := b ++ zeros (width - len b).

(* ================================================================== *)
(** ** bloom.py *)

(** The constructor sizes the filter in floating point,
      m = ceil(-(n_items * log(fp_rate)) / log(2) ** 2),
      k = ceil((m / n_items) * log(2)),
    and the store always passes n_items = 1.  The float arithmetic is not
    embedded: a rate is represented by the pair it yields. *)
Record fp_rate : Type := { sized_m : Z; sized_k : Z }.

(** bloom_fp = 0.01, the default: m = 10, k = 7. *)
Definition fp_0_01 : fp_rate := {| sized_m := 10; sized_k := 7 |}.
(** bloom_fp = 1e-16: m = 77, k = 54. *)
Definition fp_1e_16 : fp_rate := {| sized_m := 77; sized_k := 54 |}.

Module Bloom.

Record t : Type := mk { m : Z; k : Z; bits : bytes }.

Definition set_m (x : Z) (b : t) : t := mk x (k b) (bits b).
Definition set_bits (x : bytes) (b : t) : t := mk (m b) (k b) x.

(** [Bloom(1, fp_rate, bits)]. *)
Definition __init__ (fp : fp_rate) (data : option bytes) : outcome t :=
  let m := sized_m fp in
  let k := sized_k fp in
  match data with
  | Some d => Ret (mk m k d)
  | None =>
      if (m + 7) / 8 <? 0 then Raise (ValueError "negative count")
      else Ret (mk m k (zeros ((m + 7) / 8)))
  end.

(** [struct.unpack("<QQ", blake2b(key, digest_size=16).digest())]. *)
Definition digest128 (key : bytes) : Z * Z :=
  let h := Blake2b.blake2b key 16 in
  (le_combine (firstn 8 h), le_combine (skipn 8 h)).

(** One step of the generator [_hashes]: [(h1 + i * h2) % self.m], with
    [self.m] read when the step runs. *)
Definition _hashes_next (h1 h2 i : Z) : M t Z :=
  fun b => if m b =? 0 then (b, Raise ZeroDivisionError)
           else (b, Ret ((h1 + i * h2) mod m b)).

(** [self.bits[byte_i]]. *)
Definition getitem (byte_i : Z) : M t byte :=
  fun b => match item_index (len (bits b)) byte_i with
           | Some j => match nth_error (bits b) j with
                       | Some x => (b, Ret x)
                       | None => (b, Raise IndexError)
                       end
           | None => (b, Raise IndexError)
           end.

(** [self.bits[byte_i] = x]. *)
Definition setitem (byte_i : Z) (x : Z) : M t unit :=
  fun b => match item_index (len (bits b)) byte_i with
           | Some j =>
               if (0 <=? x) && (x <? 256)
               then (set_bits (set_nth (bits b) j (byte.of_Z x)) b, Ret tt)
               else (b, Raise (ValueError "byte must be in range(0, 256)"))
           | None => (b, Raise IndexError)
           end.

(** The body of the [for] loop of [add] for one yielded bit. *)
Definition add_bit (bit : Z) : M t unit :=
  (let byte_i := bit / 8 in
   let bit_mask := Z.shiftl 1 (Z.land bit 7) in
   n <- gets (fun b => len (bits b)) ;;
   (if n <=? byte_i
    then modify (fun b =>
           let need := byte_i + 1 - len (bits b) in
           let b := set_bits (bits b ++ zeros need) b in
           set_m (len (bits b) * 8) b)
    else ret tt) ;;;
   x <- getitem byte_i ;;
   setitem byte_i (Z.lor (byte.unsigned x) bit_mask))%py.

Fixpoint add_loop (h1 h2 i : Z) (n : nat) : M t unit :=
  match n with
  | O => ret tt
  | S n' =>
      (bit <- _hashes_next h1 h2 i ;;
       add_bit bit ;;;
       add_loop h1 h2 (i + 1) n')%py
  end.

Definition add (key : bytes) : M t unit :=
  fun b => let (h1, h2) := digest128 key in
           add_loop h1 h2 0 (Z.to_nat (k b)) b.

(** [all(self.bits[bit//8] & (1 << (bit & 7)) for bit in self._hashes(key))]:
    stops at the first clear bit. *)
Fixpoint contains_loop (h1 h2 i : Z) (n : nat) : M t bool :=
  match n with
  | O => ret true
  | S n' =>
      (bit <- _hashes_next h1 h2 i ;;
       x <- getitem (bit / 8) ;;
       if Z.land (byte.unsigned x) (Z.shiftl 1 (Z.land bit 7)) =? 0
       then ret false
       else contains_loop h1 h2 (i + 1) n')%py
  end.

Definition __contains__ (key : bytes) : M t bool :=
  fun b => let (h1, h2) := digest128 key in
           contains_loop h1 h2 0 (Z.to_nat (k b)) b.

(** [Bloom.from_bytes(1, fp_rate, data)]. *)
Definition from_bytes (fp : fp_rate) (data : bytes) : outcome t :=
  __init__ fp (Some data).

End Bloom.

(* ================================================================== *)
(** ** store.py *)

(** A Python value handed to [put]: [bytes], or [str] as its code points. *)
Inductive py_value : Type :=
| PyBytes (b : bytes)
| PyStr (s : list Z).

Definition utf8_char (c : Z) : outcome bytes :=
  if c <? 0x80 then Ret [byte.of_Z c]
  else if c <? 0x800 then
    Ret [byte.of_Z (0xC0 + c / 64); byte.of_Z (0x80 + c mod 64)]
  else if c <? 0x10000 then
    if (0xD800 <=? c) && (c <=? 0xDFFF) then Raise UnicodeEncodeError
    else Ret [byte.of_Z (0xE0 + c / 4096); byte.of_Z (0x80 + (c / 64) mod 64);
              byte.of_Z (0x80 + c mod 64)]
  else
    Ret [byte.of_Z (0xF0 + c / 262144); byte.of_Z (0x80 + (c / 4096) mod 64);
         byte.of_Z (0x80 + (c / 64) mod 64); byte.of_Z (0x80 + c mod 64)].

(** [value.encode("utf-8")]. *)
Fixpoint utf8_encode (s : list Z) : outcome bytes :=
  match s with
  | [] => Ret []
  | c :: s' => (a <~ utf8_char c ;; b <~ utf8_encode s' ;; Ret (a ++ b))%py
  end.

(** The object: [self.mm] is the mapped file, so it is also what is on
    disk; [self.path] and [self.file] carry nothing else. *)
Record StaticHashStore : Type := mkStore {
  key_size : Z;
  segments : Z;
  bloom_fp : fp_rate;
  mm : bytes;
  bloom : Bloom.t;
  _header_dirty : bool
}.

Definition set_mm (x : bytes) (s : StaticHashStore) : StaticHashStore :=
  mkStore (key_size s) (segments s) (bloom_fp s) x (bloom s) (_header_dirty s).
Definition set_bloom (x : Bloom.t) (s : StaticHashStore) : StaticHashStore :=
  mkStore (key_size s) (segments s) (bloom_fp s) (mm s) x (_header_dirty s).
Definition set_header_dirty (x : bool) (s : StaticHashStore) : StaticHashStore :=
  mkStore (key_size s) (segments s) (bloom_fp s) (mm s) (bloom s) x.

(** A method of [self.bloom] called from a method of the store. *)
Definition on_bloom {A} (c : M Bloom.t A) : M StaticHashStore A :=
  fun s => let (b, r) := c (bloom s) in (set_bloom b s, r).

(** A call that replaces the mapping, or raises and leaves it. *)
Definition on_mm (f : bytes -> outcome bytes) : M StaticHashStore unit :=
  fun s => match f (mm s) with
           | Ret x => (set_mm x s, Ret tt)
           | Raise e => (s, Raise e)
           | Diverge => (s, Diverge)
           end.

Definition _create_new (key_size segments : Z) (bloom_fp : fp_rate)
  : outcome StaticHashStore :=
  (let bloom_bits := 1 in
   header <~ pack_header key_size segments bloom_bits ;;
   let file := ljust header HEADER_SIZE
               ++ zeros (BUCKET_SIZE * segments)
               ++ zeros bloom_bits in
   b <~ Bloom.__init__ bloom_fp None ;;
   Ret (mkStore key_size segments bloom_fp file b true))%py.

Definition _open_existing (file : bytes) (key_size segments : Z)
  (bloom_fp : fp_rate) : outcome StaticHashStore :=
  (if len file =? 0 then Raise (ValueError "cannot mmap an empty file") else
   hdr <~ unpack_from HEADER_FMT_SIZE file 0 ;;
   let magic := slice hdr 0 4 in
   let key_sz := uint_at hdr 6 2 in
   let seg_cnt := uint_at hdr 8 4 in
   let bloom_bits := uint_at hdr 12 8 in
   if negb (bytes_eqb magic MAGIC) then Raise (ValueError "Invalid store file") else
   if negb (key_sz =? key_size) then Raise (ValueError "Key size mismatch") else
   let segments := seg_cnt in
   let bloom_off := HEADER_SIZE + BUCKET_SIZE * segments in
   let bloom_raw := slice file bloom_off (bloom_off + bloom_bits) in
   b <~ Bloom.from_bytes bloom_fp bloom_raw ;;
   Ret (mkStore key_size segments bloom_fp file b false))%py.

(** [StaticHashStore(path, key_size, segments, bloom_fp)]; [file] is what
    is at [path], if anything. *)
Definition __init__ (file : option bytes) (key_size segments : Z)
  (bloom_fp : fp_rate) : outcome StaticHashStore :=
  match file with
  | Some f => _open_existing f key_size segments bloom_fp
  | None => _create_new key_size segments bloom_fp
  end.

Definition _segment_of (h : Z) : M StaticHashStore Z :=
  fun s => if segments s =? 0 then (s, Raise ZeroDivisionError)
           else (s, Ret (h mod segments s)).

Definition _bucket_offset (segment : Z) : Z := HEADER_SIZE + segment * BUCKET_SIZE.

(** [struct.unpack("<Q", hashlib.blake2b(key, digest_size=8).digest())[0]]. *)
Definition hash64 (key : bytes) : Z := le_combine (Blake2b.blake2b key 8).

(** The [while entry_of:] loop of [get]. *)
Fixpoint walk (fuel : nat) (key : bytes) (h_int entry_of : Z)
  : M StaticHashStore (option bytes) :=
  if entry_of =? 0 then ret None else
  match fuel with
  | O => lift Diverge
  | S fuel' =>
      (self <- gets id ;;
       hdr <- lift (unpack_from ENTRY_HDR_SIZE (mm self) entry_of) ;;
       let nxt := uint_at hdr 0 8 in
       let e_hash := uint_at hdr 8 8 in
       let val_sz := uint_at hdr 16 4 in
       let key_off := entry_of + ENTRY_HDR_SIZE in
       if (e_hash =? h_int)
          && bytes_eqb (slice (mm self) key_off (key_off + key_size self)) key
       then
         let val_off := key_off + key_size self in
         ret (Some (slice (mm self) val_off (val_off + val_sz)))
       else walk fuel' key h_int nxt)%py
  end.

Definition get (fuel : nat) (key : bytes) : M StaticHashStore (option bytes) :=
  (let h_int := hash64 key in
   present <- on_bloom (Bloom.__contains__ key) ;;
   if negb present then ret None else
   seg <- _segment_of h_int ;;
   let bucket_ptr_of := _bucket_offset seg in
   self <- gets id ;;
   head <- lift (unpack_from BUCKET_SIZE (mm self) bucket_ptr_of) ;;
   let entry_of := uint_at head 0 8 in
   walk fuel key h_int entry_of)%py.

(** [_lock] and [_unlock] are advisory byte-range locks on the file: with
    one handle they change nothing the object or the file holds. *)
Definition put (key : bytes) (value : py_value) : M StaticHashStore unit :=
  (self <- gets id ;;
   if negb (len key =? key_size self)
   then raise (ValueError "Key length mismatch") else
   value <- lift (match value with
                  | PyStr s => utf8_encode s
                  | PyBytes b => Ret b
                  end) ;;
   let h_int := hash64 key in
   seg <- _segment_of h_int ;;
   let bucket_ptr_off := _bucket_offset seg in
   head <- lift (unpack_from BUCKET_SIZE (mm self) bucket_ptr_off) ;;
   let bucket_head := uint_at head 0 8 in
   let eof := len (mm self) in
   hdr <- lift (pack_entry_hdr bucket_head h_int (len value)) ;;
   let entry := hdr ++ key ++ value in
   on_mm (fun mm => mmap_resize mm (eof + len entry)) ;;;
   on_mm (fun mm => mmap_setslice mm eof (eof + len entry) entry) ;;;
   slot <- lift (pack_uint 8 eof) ;;
   on_mm (fun mm => pack_into slot mm bucket_ptr_off) ;;;
   on_bloom (Bloom.add key) ;;;
   modify (set_header_dirty true))%py.

Definition flush : M StaticHashStore unit :=
  (self <- gets id ;;
   if _header_dirty self then
     let bloom_bits := len (Bloom.bits (bloom self)) in
     let bloom_off := HEADER_SIZE + BUCKET_SIZE * segments self in
     (if len (mm self) <? bloom_off + bloom_bits
      then on_mm (fun mm => mmap_resize mm (bloom_off + bloom_bits))
      else ret tt) ;;;
     on_mm (fun mm => mmap_setslice mm bloom_off (bloom_off + bloom_bits)
                        (Bloom.bits (bloom self))) ;;;
     header <- lift (pack_header (key_size self) (segments self) bloom_bits) ;;
     on_mm (fun mm => mmap_setslice mm 0 (len header) header) ;;;
     modify (set_header_dirty false)
   else ret tt)%py.

(** [close]: flush, then unmap and close the file.  What is left is the
    file on disk, next to the outcome of the flush. *)
Definition close (s : StaticHashStore) : bytes * outcome unit :=
  let (s', r) := flush s in (mm s', r).

(* ================================================================== *)
(** ** Derived notions used by the statements *)

(** The [next_offset] field of the entry at offset [e], and the head
    stored in the bucket slot of [segment]. *)
Definition entry_next (mm : bytes) (e : Z) : Z := uint_at mm e 8.
Definition bucket_head (mm : bytes) (segment : Z) : Z :=
  uint_at mm (_bucket_offset segment) 8.

(** A chain that can be walked from [e]: every entry header lies in the
    file at or after [lo], every link goes to a strictly smaller offset,
    and the last link is 0. *)
Inductive chain (lo : Z) (mm : bytes) : Z -> Prop :=
| chain_end : chain lo mm 0
| chain_step (e : Z) :
    lo <= e ->
    e + ENTRY_HDR_SIZE <= len mm ->
    entry_next mm e < e ->
    chain lo mm (entry_next mm e) ->
    chain lo mm e.

Definition table_end (s : StaticHashStore) : Z :=
  HEADER_SIZE + BUCKET_SIZE * segments s.

(** The bucket table is inside the file (whose length, like that of any
    Python buffer, is a [Py_ssize_t]) and every bucket heads a chain of
    entries that lie after the table. *)
Definition chains_ok (s : StaticHashStore) : Prop :=
  0 <= segments s /\
  table_end s <= len (mm s) <= PY_SSIZE_T_MAX /\
  forall seg, 0 <= seg < segments s ->
    chain (table_end s) (mm s) (bucket_head (mm s) seg).

(** The sizing of a rate is coherent: a positive hash count comes with a
    positive bit count (k = ceil(m * log 2)). *)
Definition rate_ok (fp : fp_rate) : Prop := 0 < sized_k fp -> 0 < sized_m fp.

(** What every constructed store satisfies. *)
Definition valid (s : StaticHashStore) : Prop :=
  0 <= segments s /\
  (0 < Bloom.k (bloom s) -> 0 < Bloom.m (bloom s)).

(** The first part of [get]: [None] when the Bloom test fails, else the
    head of the key's bucket. *)
Definition locate (key : bytes) (s : StaticHashStore) : outcome (option Z) :=
  match snd (Bloom.__contains__ key (bloom s)) with
  | Ret false => Ret None
  | Ret true =>
      if segments s =? 0 then Raise ZeroDivisionError
      else
        (head <~ unpack_from BUCKET_SIZE (mm s)
                   (_bucket_offset (hash64 key mod segments s)) ;;
         Ret (Some (uint_at head 0 8)))%py
  | Raise e => Raise e
  | Diverge => Diverge
  end.

Definition KeyLengthMismatch : exn := ValueError "Key length mismatch".

Definition u64key (i : Z) : bytes := le_split 8 i.
Definition ascii_bytes (s : string) : bytes := list_byte_of_string s.
Definition hello : py_value := PyBytes (ascii_bytes "hello").

(** What an operation can raise. *)
Definition oraises {A} (P : exn -> Prop) (o : outcome A) : Prop :=
  forall e, o = Raise e -> P e.

Definition raises_only {S A} (P : exn -> Prop) (c : M S A) : Prop :=
  forall s s' e, c s = (s', Raise e) -> P e.

(** The exceptions other than the key-length [ValueError]. *)
Definition other_exn (e : exn) : Prop := e <> KeyLengthMismatch.

(** The entry [put] appends. *)
Definition entry_bytes (nxt h : Z) (key value : bytes) : bytes :=
  le_split 8 nxt ++ le_split 8 h ++ le_split 4 (len value) ++ key ++ value.

Definition encoded (value : py_value) : outcome bytes :=
  match value with
  | PyStr s => utf8_encode s
  | PyBytes b => Ret b
  end.

(** The mask [1 << (bit & 7)]. *)
Definition mask (bit : Z) : Z := Z.shiftl 1 (Z.land bit 7).

(** Bit [bit] of the byte array is set. *)
Definition bit_set (bs : bytes) (bit : Z) : Prop :=
  match nth_error bs (Z.to_nat (bit / 8)) with
  | Some x => Z.land (byte.unsigned x) (mask bit) <> 0
  | None => False
  end.

(** The bit the [j]-th step of [_hashes] yields when the filter has [m] bits. *)
Definition hash_bit (h1 h2 m j : Z) : Z := (h1 + j * h2) mod m.

(* ================================================================== *)
(** ** Concrete stores and files *)

(** [StaticHashStore(path, key_size=8)] on a path that does not exist:
    default segments and rate. *)
Definition new_store : StaticHashStore :=
  mkStore 8 256 fp_0_01
    (MAGIC ++ le_split 2 0 ++ le_split 2 8 ++ le_split 4 256 ++ le_split 8 1
     ++ zeros 4 ++ zeros 2048 ++ zeros 1)
    (Bloom.mk 10 7 (zeros 2)) true.

(** The same path opened again before anything was flushed: the file
    still has the one-byte Bloom placeholder. *)
Definition reopened_store : StaticHashStore :=
  mkStore 8 256 fp_0_01 (mm new_store) (Bloom.mk 10 7 (zeros 1)) false.

(** A new store with bloom_fp = 1e-16. *)
Definition new_store_1e_16 : StaticHashStore :=
  mkStore 8 256 fp_1e_16 (mm new_store) (Bloom.mk 77 54 (zeros 10)) true.

(** The file of a new store after [close]: two Bloom bytes, nothing put. *)
Definition empty_file : bytes :=
  MAGIC ++ le_split 2 0 ++ le_split 2 8 ++ le_split 4 256 ++ le_split 8 2
  ++ zeros 4 ++ zeros 2048 ++ zeros 2.

(** A damaged file with one segment: the bucket head is 1000, past the
    end of the 34-byte file, and both Bloom bytes are 0xff. *)
Definition damaged_file : bytes :=
  MAGIC ++ le_split 2 0 ++ le_split 2 8 ++ le_split 4 1 ++ le_split 8 2
  ++ zeros 4 ++ le_split 8 1000 ++ [Byte.xff; Byte.xff].

Definition KEY : bytes := ascii_bytes "KEY_____".
Definition short_key : bytes := ascii_bytes "short".
Definition store_v1 : StaticHashStore :=
  fst (put KEY (PyBytes (ascii_bytes "v1")) new_store).
Definition store_v2 : StaticHashStore :=
  fst (put KEY (PyBytes (ascii_bytes "v2")) store_v1).
Definition reopened_empty : StaticHashStore :=
  mkStore 8 256 fp_0_01 empty_file (Bloom.mk 10 7 (zeros 2)) false.
Definition damaged_store : StaticHashStore :=
  mkStore 8 1 fp_0_01 damaged_file (Bloom.mk 10 7 [Byte.xff; Byte.xff]) false.

(* ================================================================== *)
(** ** compression.py *)

(** The [while True] loop of [delta_encode] for one delta: seven bits to
    a byte, lowest group first, bit 7 set on every byte but the last.
    [delta >>= 7] and [delta & 0x7F] are Python's, on integers of any
    sign. *)
Fixpoint varint (fuel : nat) (delta : Z) : outcome bytes :=
  match fuel with
  | O => Diverge
  | S fuel' =>
      let byte := Z.land delta 0x7F in
      let delta := Z.shiftr delta 7 in
      if negb (delta =? 0)
      then (rest <~ varint fuel' delta ;;
            Ret (byte.of_Z (Z.lor byte 0x80) :: rest))%py
      else Ret [byte.of_Z byte]
  end.

(** The [for n in sorted_ints] loop, [prev] being the previous integer. *)
Fixpoint delta_loop (fuel : nat) (prev : Z) (sorted_ints : list Z)
  : outcome bytes :=
  match sorted_ints with
  | [] => Ret []
  | n :: rest =>
      (let delta := n - prev in
       a <~ varint fuel delta ;;
       b <~ delta_loop fuel n rest ;;
       Ret (a ++ b))%py
  end.

(** [delta_encode(sorted_ints)]; the fuel bounds each [while] loop. *)
Definition delta_encode (fuel : nat) (sorted_ints : list Z) : outcome bytes :=
  delta_loop fuel 0 sorted_ints.

(** The list does not go down, starting from [prev]. *)
Fixpoint ascending (prev : Z) (l : list Z) : Prop :=
  match l with
  | [] => True
  | n :: rest => prev <= n /\ ascending n rest
  end.

(** Reading the bytes back (not in the source; used to show that the
    encoding loses nothing): [acc] and [shift] hold the groups of the
    integer being read. *)
Fixpoint delta_decode (prev acc shift : Z) (bs : bytes) : list Z :=
  match bs with
  | [] => []
  | b :: rest =>
      let x := byte.unsigned b in
      let acc := acc + (x mod 128) * 2 ^ shift in
      if x <? 128
      then (prev + acc) :: delta_decode (prev + acc) 0 0 rest
      else delta_decode prev acc (shift + 7) rest
  end.

(** Every step up is below [bound]. *)
Fixpoint gaps_below (bound prev : Z) (l : list Z) : Prop :=
  match l with
  | [] => True
  | n :: rest => n - prev < bound /\ gaps_below bound n rest
  end.

(* ================================================================== *)
(** ** The store as a map *)

(** What was put, newest first, and the value [get] should find. *)
Definition history : Type := list (bytes * bytes).

Fixpoint lookup (key : bytes) (h : history) : option bytes :=
  match h with
  | [] => None
  | (k, v) :: rest => if bytes_eqb k key then Some v else lookup key rest
  end.

(** The chain from offset [e] holds the pairs [kvs], newest first: each
    entry lies wholly in the file at or after [lo], carries the hash of
    its key, and links to a strictly smaller offset. *)
Inductive holds (lo ks : Z) (mm : bytes) : Z -> history -> Prop :=
| holds_end : holds lo ks mm 0 []
| holds_entry (e nxt : Z) (k v : bytes) (kvs : history) :
    lo <= e -> 0 <= nxt < e ->
    len k = ks -> len v < 2 ^ 32 ->
    e + ENTRY_HDR_SIZE + ks + len v <= len mm ->
    slice mm e (e + ENTRY_HDR_SIZE)
      = le_split 8 nxt ++ le_split 8 (hash64 k) ++ le_split 4 (len v) ->
    slice mm (e + ENTRY_HDR_SIZE) (e + ENTRY_HDR_SIZE + ks) = k ->
    slice mm (e + ENTRY_HDR_SIZE + ks) (e + ENTRY_HDR_SIZE + ks + len v) = v ->
    holds lo ks mm nxt kvs ->
    holds lo ks mm e ((k, v) :: kvs).

(** The byte array covers all [m] bits, so [add] never grows it. *)
Definition covered (b : Bloom.t) : Prop :=
  Bloom.k b <= 0 \/ 0 < Bloom.m b <= 8 * len (Bloom.bits b).

(** The pairs of a history whose key falls in [seg]. *)
Definition in_segment (segs seg : Z) (h : history) : history :=
  filter (fun kv => hash64 (fst kv) mod segs =? seg) h.

(** The store holds the history [h], its entries lying at or after [lo]:
    every bucket heads the chain of the pairs of its segment, and every key
    of [h] passes the Bloom test. *)
Definition represents (lo : Z) (s : StaticHashStore) (h : history) : Prop :=
  0 < segments s /\ 0 <= key_size s /\
  (table_end s <= lo /\ lo <= len (mm s) <= PY_SSIZE_T_MAX) /\
  (forall seg, 0 <= seg < segments s ->
     holds lo (key_size s) (mm s) (bucket_head (mm s) seg)
       (in_segment (segments s) seg h)) /\
  covered (bloom s) /\
  (forall k v, In (k, v) h ->
     snd (Bloom.__contains__ k (bloom s)) = Ret true).

(** A store made by the constructor on a new path and then only [put]
    to, with what was put. *)
Inductive built : StaticHashStore -> history -> Prop :=
| built_new ks segs fp s :
    _create_new ks segs fp = Ret s -> rate_ok fp -> 0 < segs ->
    built s []
| built_put s h key value v s' :
    built s h -> encoded value = Ret v ->
    put key value s = (s', Ret tt) ->
    built s' ((key, v) :: h).

(** Two keys of segment 51 put to a new store. *)
Definition store_a : StaticHashStore := fst (put (u64key 1) hello new_store).
Definition store_b : StaticHashStore :=
  fst (put (u64key 119) (PyBytes (ascii_bytes "other")) store_a).

(** A store with no segment. *)
Definition store_no_segment : StaticHashStore :=
  mkStore 8 0 fp_0_01
    (MAGIC ++ le_split 2 0 ++ le_split 2 8 ++ le_split 4 0 ++ le_split 8 1
     ++ zeros 4 ++ zeros 1)
    (Bloom.mk 10 7 (zeros 2)) true.

(** Two dirty stores after [flush]: [store_v1], whose file covers the two
    Bloom bytes, and the new store with bloom_fp = 1e-16, whose file is
    lengthened for the ten Bloom bytes. *)
Definition flushed_v1 : StaticHashStore := fst (flush store_v1).
Definition flushed_1e_16 : StaticHashStore := fst (flush new_store_1e_16).

(** bloom_fp = 0.05: m = ceil(6.23...) = 7 bits, k = ceil(4.85...) = 5. *)
Definition fp_0_05 : fp_rate := {| sized_m := 7; sized_k := 5 |}.

(** A store whose Bloom filter has at most [cap] bits: made on a new
    path, then put to, flushed, and closed and opened again with the same
    key size and rate, in any order; with what was put.  With [cap = 8]
    the byte array of the filter is the one byte [_create_new] reserves in
    the file. *)
Inductive lived (cap : Z) : StaticHashStore -> history -> Prop :=
| lived_new ks segs fp s :
    _create_new ks segs fp = Ret s -> 0 < segs -> 0 < sized_m fp <= cap ->
    lived cap s []
| lived_put s h key value v s' :
    lived cap s h -> encoded value = Ret v ->
    put key value s = (s', Ret tt) ->
    lived cap s' ((key, v) :: h)
| lived_flush s h s' :
    lived cap s h -> flush s = (s', Ret tt) -> lived cap s' h
| lived_reopen s h file segs' s' :
    lived cap s h -> close s = (file, Ret tt) ->
    __init__ (Some file) (key_size s) segs' (bloom_fp s) = Ret s' ->
    lived cap s' h.

(** What such a store keeps: the history, a one-byte Bloom filter sized
    from the rate, the header it was made with and, when the header is
    clean, the Bloom byte in the file. *)
Definition kept (s : StaticHashStore) (h : history) : Prop :=
  represents (table_end s + 1) s h /\
  segments s < 2 ^ 32 /\ key_size s < 2 ^ 16 /\
  Bloom.m (bloom s) = sized_m (bloom_fp s) /\
  Bloom.k (bloom s) = sized_k (bloom_fp s) /\
  len (Bloom.bits (bloom s)) = 1 /\
  slice (mm s) 0 HEADER_FMT_SIZE
  = MAGIC ++ le_split 2 VERSION_MINOR ++ le_split 2 (key_size s)
    ++ le_split 4 (segments s) ++ le_split 8 1 /\
  (_header_dirty s = false ->
   slice (mm s) (table_end s) (table_end s + 1) = Bloom.bits (bloom s)).

(** A new store with bloom_fp = 0.05; key 1 put; closed and opened again;
    key 119, of the same segment, put; flushed. *)
Definition small_new : StaticHashStore :=
  mkStore 8 256 fp_0_05 (mm new_store) (Bloom.mk 7 5 (zeros 1)) true.
Definition small_1 : StaticHashStore := fst (put (u64key 1) hello small_new).
Definition small_2 : StaticHashStore := fst (flush small_1).
Definition small_3 : StaticHashStore :=
  fst (put (u64key 119) (PyBytes (ascii_bytes "other")) small_2).
Definition small_4 : StaticHashStore := fst (flush small_3).

(** A chain that holds [kvs] as far as a walk for one of their keys goes:
    like [holds], but the link of the last entry is not constrained, and
    an entry that starts in the eight bytes from [lo] is the last of its
    chain. *)
Inductive links (lo ks : Z) (mm : bytes) : Z -> history -> Prop :=
| links_end e : links lo ks mm e []
| links_entry (e nxt : Z) (k v : bytes) (kvs : history) :
    lo <= e -> 0 <= nxt < 2 ^ 64 ->
    len k = ks -> len v < 2 ^ 32 ->
    e + ENTRY_HDR_SIZE + ks + len v <= len mm ->
    slice mm e (e + ENTRY_HDR_SIZE)
      = le_split 8 nxt ++ le_split 8 (hash64 k) ++ le_split 4 (len v) ->
    slice mm (e + ENTRY_HDR_SIZE) (e + ENTRY_HDR_SIZE + ks) = k ->
    slice mm (e + ENTRY_HDR_SIZE + ks) (e + ENTRY_HDR_SIZE + ks + len v) = v ->
    lo + 8 <= e \/ kvs = [] ->
    links lo ks mm nxt kvs ->
    links lo ks mm e ((k, v) :: kvs).

(** What a store keeps whose Bloom filter has one to nine bytes, so that
    the Bloom bytes [flush] writes at [bloom_offset] reach no further than
    the [next_offset] field of the first entry of the file. *)
Definition keeps (s : StaticHashStore) (h : history) : Prop :=
  0 < segments s < 2 ^ 32 /\ 0 <= key_size s < 2 ^ 16 /\
  table_end s + 1 <= len (mm s) <= PY_SSIZE_T_MAX /\
  (table_end s + 9 <= len (mm s) \/ h = []) /\
  (forall seg, 0 <= seg < segments s ->
     links (table_end s + 1) (key_size s) (mm s) (bucket_head (mm s) seg)
       (in_segment (segments s) seg h)) /\
  covered (bloom s) /\
  (forall k v, In (k, v) h ->
     snd (Bloom.__contains__ k (bloom s)) = Ret true) /\
  Bloom.m (bloom s) = sized_m (bloom_fp s) /\
  Bloom.k (bloom s) = sized_k (bloom_fp s) /\
  1 <= len (Bloom.bits (bloom s)) <= 9 /\
  slice (mm s) 0 4 = MAGIC /\
  uint_at (mm s) 6 2 = key_size s /\
  uint_at (mm s) 8 4 = segments s /\
  (_header_dirty s = false ->
   table_end s + len (Bloom.bits (bloom s)) <= len (mm s) /\
   uint_at (mm s) 12 8 = len (Bloom.bits (bloom s)) /\
   slice (mm s) (table_end s) (table_end s + len (Bloom.bits (bloom s)))
   = Bloom.bits (bloom s)).

(** The default store: key 1 put; closed and opened again; key 119, of the
    same segment, put; flushed. *)
Definition default_1 : StaticHashStore := fst (put (u64key 1) hello new_store).
Definition default_2 : StaticHashStore := fst (flush default_1).
Definition default_3 : StaticHashStore :=
  fst (put (u64key 119) (PyBytes (ascii_bytes "other")) default_2).
Definition default_4 : StaticHashStore := fst (flush default_3).

(** The filter of [reopened_store] after one and after two [add] of key 1. *)
Definition bloom_once : Bloom.t := fst (Bloom.add (u64key 1) (bloom reopened_store)).
Definition bloom_twice : Bloom.t := fst (Bloom.add (u64key 1) bloom_once).

(* ================================================================== *)
(** ** examples/build_store.py *)





(* ================================================================== *)
(** * Properties *)

(** ** The hash on known digests *)

(** Digests of [hashlib.blake2b] for the empty message, [b"abc"], a key of
    the store and a two-block message, read as [get] and [_hashes] read
    them. *)
Example blake2b_digests :
  hash64 [] = 13020603013274838756 /\
  hash64 (ascii_bytes "abc") = 6455300059550759896 /\
  hash64 KEY = 794417129139002136 /\
  Bloom.digest128 KEY = (1517849505372181441, 8024932705977614163) /\
  Bloom.digest128 (u64key 1) = (10520962563839140510, 10933683874248944889) /\
  hash64 (repeat Byte.x78 200) = 10205568089174323286.
Proof.
  do 5 (apply conj; [vm_compute; reflexivity|]). vm_compute. reflexivity.
Qed.

(** ** The monad *)

Lemma bind_Ret_inv {S A B} (c : M S A) (f : A -> M S B) s s' b :
  bind c f s = (s', Ret b) ->
  exists s1 a, c s = (s1, Ret a) /\ f a s1 = (s', Ret b).
Proof.
  unfold bind. destruct (c s) as [s1 [a | e |]]; intros H; try discriminate.
  exists s1, a. auto.
Qed.

Lemma bind_Ret {S A B} (c : M S A) (f : A -> M S B) s s1 a :
  c s = (s1, Ret a) -> bind c f s = f a s1.
Proof. unfold bind. intros ->. reflexivity. Qed.

Lemma set_bloom_same s : set_bloom (bloom s) s = s.
Proof. destruct s; reflexivity. Qed.

(** ** Reads do not write *)

Lemma contains_loop_state h1 h2 n : forall i b,
  fst (Bloom.contains_loop h1 h2 i n b) = b.
Proof.
  induction n as [| n IH]; intros i b; cbn [Bloom.contains_loop].
  - reflexivity.
  - unfold bind, Bloom._hashes_next, Bloom.getitem.
    destruct (Bloom.m b =? 0); [reflexivity|].
    destruct (item_index _ _) as [j|]; [|reflexivity].
    destruct (nth_error _ j) as [x|]; [|reflexivity].
    destruct (Z.land _ _ =? 0); [reflexivity|]. apply IH.
Qed.

Lemma contains_state key b : fst (Bloom.__contains__ key b) = b.
Proof.
  unfold Bloom.__contains__. destruct (Bloom.digest128 key).
  apply contains_loop_state.
Qed.

Lemma on_bloom_contains key s :
  on_bloom (Bloom.__contains__ key) s
  = (s, snd (Bloom.__contains__ key (bloom s))).
Proof.
  unfold on_bloom. pose proof (contains_state key (bloom s)) as H.
  destruct (Bloom.__contains__ key (bloom s)) as [b r]. cbn in *. subst b.
  now rewrite set_bloom_same.
Qed.

Lemma walk_state fuel key h : forall e s, fst (walk fuel key h e s) = s.
Proof.
  induction fuel as [| fuel IH]; intros e s; cbn [walk];
    destruct (e =? 0); try reflexivity.
  unfold bind, gets, lift, id.
  destruct (unpack_from _ _ _) as [hdr | x |]; try reflexivity.
  destruct (_ && _); [reflexivity | apply IH].
Qed.

Lemma walk_eq fuel key h e s :
  walk fuel key h e s = (s, snd (walk fuel key h e s)).
Proof.
  pose proof (walk_state fuel key h e s).
  destruct (walk fuel key h e s); cbn in *; congruence.
Qed.

(** [get] is the Bloom test and the bucket read, then the walk. *)
Lemma get_locate fuel key s :
  get fuel key s =
  match locate key s with
  | Ret None => (s, Ret None)
  | Ret (Some e) => walk fuel key (hash64 key) e s
  | Raise x => (s, Raise x)
  | Diverge => (s, Diverge)
  end.
Proof.
  unfold get, locate, bind at 1. rewrite on_bloom_contains.
  destruct (snd (Bloom.__contains__ key (bloom s))) as [[|] | x |]; cbn [negb];
    try reflexivity.
  unfold bind, _segment_of, gets, lift, id.
  destruct (segments s =? 0); [reflexivity|].
  destruct (unpack_from _ _ _) as [hd | x |]; reflexivity.
Qed.

(** C9.  [get] is read-only: whatever the key, the fuel and the result
    (a value, absent, an exception), the store after the call is the
    store before it: the mapped file, the Bloom filter's [m], [k] and
    byte array, and the header-dirty flag are all unchanged. *)
Theorem get_read_only : forall fuel key s, fst (get fuel key s) = s.
Proof.
  intros fuel key s. rewrite get_locate.
  destruct (locate key s) as [[e|] | x |]; try reflexivity.
  apply walk_state.
Qed.

(** ** A wrong key length *)

Lemma put_wrong_length key value s :
  len key <> key_size s ->
  put key value s = (s, Raise KeyLengthMismatch).
Proof.
  intros H. unfold put, bind, gets, id.
  apply Z.eqb_neq in H. rewrite H. reflexivity.
Qed.

(** C10.  When [len(key) != key_size], [put] raises the key-length
    [ValueError] and returns the store it was given: file image, bucket
    table, Bloom filter and header-dirty flag are untouched. *)
Theorem put_wrong_length_atomic : forall key value s,
  len key <> key_size s ->
  put key value s = (s, Raise KeyLengthMismatch).
Proof. intros key value s. apply put_wrong_length. Qed.

(** ** Which exceptions an operation can raise *)


Lemma oraises_Ret {A} P (a : A) : oraises P (Ret a).
Proof. intros e H; discriminate. Qed.

Lemma oraises_Raise {A} (P : exn -> Prop) x : P x -> oraises P (@Raise A x).
Proof. intros H e [= <-]; exact H. Qed.

Lemma oraises_obind {A B} P (o : outcome A) (f : A -> outcome B) :
  oraises P o -> (forall a, oraises P (f a)) -> oraises P (obind o f).
Proof.
  intros Ho Hf e. destruct o as [a | x |]; cbn; intros H.
  - exact (Hf a e H).
  - injection H as <-. apply Ho. reflexivity.
  - discriminate.
Qed.

Lemma raises_only_bind {S A B} P (c : M S A) (f : A -> M S B) :
  raises_only P c -> (forall a, raises_only P (f a)) ->
  raises_only P (bind c f).
Proof.
  intros Hc Hf s s' e. unfold bind.
  destruct (c s) as [s1 [a | x |]] eqn:E; intros H.
  - exact (Hf a _ _ _ H).
  - injection H as <- <-. exact (Hc _ _ _ E).
  - discriminate.
Qed.

Lemma raises_only_ret {S A} P (a : A) : raises_only P (@ret S A a).
Proof. intros s s' e H; discriminate. Qed.

Lemma raises_only_gets {S A} P (f : S -> A) : raises_only P (gets f).
Proof. intros s s' e H; discriminate. Qed.

Lemma raises_only_modify {S} P (f : S -> S) : raises_only P (modify f).
Proof. intros s s' e H; discriminate. Qed.

Lemma raises_only_lift {S A} P (o : outcome A) :
  oraises P o -> raises_only P (@lift S A o).
Proof. intros Ho s s' e [= _ H]. exact (Ho e H). Qed.

Lemma raises_only_on_mm P f :
  (forall x, oraises P (f x)) -> raises_only P (on_mm f).
Proof.
  intros Hf s s' e. unfold on_mm.
  destruct (f (mm s)) as [x | y |] eqn:E; intros [= _ H].
  subst y. exact (Hf _ _ E).
Qed.

Lemma raises_only_on_bloom {A} P (c : M Bloom.t A) :
  raises_only P c -> raises_only P (on_bloom c).
Proof.
  intros Hc s s' e. unfold on_bloom.
  destruct (c (bloom s)) as [b r] eqn:E. intros [= _ H]. subst r.
  exact (Hc _ _ _ E).
Qed.


Lemma pack_uint_other w v : oraises other_exn (pack_uint w v).
Proof.
  unfold pack_uint. destruct (_ && _);
    [apply oraises_Ret | apply oraises_Raise; discriminate].
Qed.

Lemma buffer_at_other size n off : oraises other_exn (buffer_at size n off).
Proof.
  unfold buffer_at.
  repeat match goal with
         | |- oraises _ (if ?c then _ else _) => destruct c
         end;
    first [apply oraises_Ret | apply oraises_Raise; discriminate].
Qed.

Lemma unpack_from_other size buf off :
  oraises other_exn (unpack_from size buf off).
Proof.
  unfold unpack_from. apply oraises_obind;
    [apply buffer_at_other | intros; apply oraises_Ret].
Qed.

Lemma pack_into_other data buf off :
  oraises other_exn (pack_into data buf off).
Proof.
  unfold pack_into. apply oraises_obind;
    [apply buffer_at_other | intros; apply oraises_Ret].
Qed.

Lemma pack_entry_hdr_other a b c : oraises other_exn (pack_entry_hdr a b c).
Proof.
  unfold pack_entry_hdr.
  repeat (apply oraises_obind; [apply pack_uint_other | intros]).
  apply oraises_Ret.
Qed.

Lemma utf8_encode_other s : oraises other_exn (utf8_encode s).
Proof.
  induction s as [| c s IH]; cbn [utf8_encode]; [apply oraises_Ret|].
  apply oraises_obind.
  - unfold utf8_char.
    repeat match goal with
           | |- oraises _ (if ?c then _ else _) => destruct c
           end;
      first [apply oraises_Ret | apply oraises_Raise; discriminate].
  - intros a. apply oraises_obind; [exact IH | intros; apply oraises_Ret].
Qed.

Lemma mmap_resize_other x n : oraises other_exn (mmap_resize x n).
Proof.
  unfold mmap_resize. destruct (_ <? n); [apply oraises_Raise; discriminate|].
  destruct (n <? 0);
    [apply oraises_Raise; discriminate | apply oraises_Ret].
Qed.

Lemma mmap_setslice_other x lo hi d : oraises other_exn (mmap_setslice x lo hi d).
Proof.
  unfold mmap_setslice. destruct (_ =? _);
    [apply oraises_Ret | apply oraises_Raise; discriminate].
Qed.

Lemma hashes_next_other h1 h2 i :
  raises_only other_exn (Bloom._hashes_next h1 h2 i).
Proof.
  intros b b' e. unfold Bloom._hashes_next.
  destruct (Bloom.m b =? 0); intros [= _ <-]. discriminate.
Qed.

Lemma getitem_other i : raises_only other_exn (Bloom.getitem i).
Proof.
  intros b b' e. unfold Bloom.getitem.
  destruct (item_index _ _) as [j|]; [destruct (nth_error _ j)|];
    intros [= _ <-]; discriminate.
Qed.

Lemma setitem_other i x : raises_only other_exn (Bloom.setitem i x).
Proof.
  intros b b' e. unfold Bloom.setitem.
  destruct (item_index _ _) as [j|]; [destruct (_ && _)|];
    intros [= _ <-]; discriminate.
Qed.

Lemma add_other key : raises_only other_exn (Bloom.add key).
Proof.
  assert (L : forall h1 h2 n i,
             raises_only other_exn (Bloom.add_loop h1 h2 i n)).
  { intros h1 h2 n. induction n as [| n IH]; intros i; cbn [Bloom.add_loop].
    - apply raises_only_ret.
    - apply raises_only_bind; [apply hashes_next_other | intros bit].
      apply raises_only_bind; [| intros _; apply IH].
      unfold Bloom.add_bit.
      apply raises_only_bind; [apply raises_only_gets | intros n0].
      apply raises_only_bind.
      + destruct (n0 <=? bit / 8);
          [apply raises_only_modify | apply raises_only_ret].
      + intros _. apply raises_only_bind;
          [apply getitem_other | intros; apply setitem_other]. }
  intros b b' e. unfold Bloom.add. destruct (Bloom.digest128 key).
  apply L.
Qed.

Lemma segment_of_other h : raises_only other_exn (_segment_of h).
Proof.
  intros s s' e. unfold _segment_of.
  destruct (segments s =? 0); intros [= _ <-]. discriminate.
Qed.

Create HintDb raises.
#[local] Hint Resolve pack_uint_other unpack_from_other pack_into_other
  pack_entry_hdr_other utf8_encode_other mmap_resize_other
  mmap_setslice_other add_other segment_of_other oraises_Ret : raises.

Ltac raises :=
  cbv beta;
  lazymatch goal with
  | |- raises_only _ (bind _ _) =>
      apply raises_only_bind; [raises | intros ?; raises]
  | |- raises_only _ (ret _) => apply raises_only_ret
  | |- raises_only _ (gets _) => apply raises_only_gets
  | |- raises_only _ (modify _) => apply raises_only_modify
  | |- raises_only _ (lift _) => apply raises_only_lift; raises
  | |- raises_only _ (on_mm _) => apply raises_only_on_mm; intros ?; raises
  | |- raises_only _ (on_bloom _) => apply raises_only_on_bloom; raises
  | |- oraises _ (match ?v with _ => _ end) => destruct v; raises
  | |- _ => auto with raises
  end.

(** With a key of the right length, [put] raises nothing that is the
    key-length error. *)
Lemma put_right_length_other key value s s' e :
  len key = key_size s ->
  put key value s = (s', Raise e) -> other_exn e.
Proof.
  intros Hlen. unfold put, bind at 1, gets at 1, id.
  apply Z.eqb_eq in Hlen. rewrite Hlen. cbn [negb]. intros H.
  match type of H with
  | ?c s = _ => assert (R : raises_only other_exn c) by raises
  end.
  exact (R _ _ _ H).
Qed.

(** C8.  [put] raises the key-length [ValueError] exactly when
    [len(key) != key_size].  After such a failure the store is the one
    before the call, so every later [get] and [put] on it behaves as it
    would have without the failed call: those that succeed still succeed,
    with the same result. *)
Theorem put_key_length_mismatch : forall key value s,
  (snd (put key value s) = Raise KeyLengthMismatch <-> len key <> key_size s)
  /\ (len key <> key_size s ->
      forall fuel key' value',
        get fuel key' (fst (put key value s)) = get fuel key' s /\
        put key' value' (fst (put key value s)) = put key' value' s).
Proof.
  intros key value s. split; [split|].
  - intros H Hlen.
    destruct (put key value s) as [s' r] eqn:E. cbn in H. subst r.
    exact (put_right_length_other _ _ _ _ _ Hlen E eq_refl).
  - intros H. now rewrite (put_wrong_length key value s H).
  - intros H fuel key' value'.
    now rewrite (put_wrong_length key value s H).
Qed.

(** ** Lengths and slices *)

Lemma len_nonneg {A} (l : list A) : 0 <= len l.
Proof. unfold len. lia. Qed.

Lemma len_app {A} (a b : list A) : len (a ++ b) = len a + len b.
Proof. unfold len. rewrite length_app. lia. Qed.

Lemma len_nil {A} : len (@nil A) = 0.
Proof. reflexivity. Qed.

Lemma len_zeros n : len (zeros n) = Z.max 0 n.
Proof. unfold len, zeros. rewrite repeat_length. lia. Qed.

Lemma len_le_split n z : len (le_split n z) = Z.of_nat n.
Proof. unfold len. now rewrite length_le_split. Qed.

Lemma len_firstn {A} n (l : list A) :
  0 <= n <= len l -> len (firstn (Z.to_nat n) l) = n.
Proof. unfold len. intros H. rewrite length_firstn. lia. Qed.

Lemma len_skipn {A} n (l : list A) :
  0 <= n <= len l -> len (skipn (Z.to_nat n) l) = len l - n.
Proof. unfold len. intros H. rewrite length_skipn. lia. Qed.

Lemma adjust_in n i : 0 <= i <= n -> adjust n i = i.
Proof.
  intros H. unfold adjust. destruct (Z.ltb_spec i 0); lia.
Qed.

(** A slice within bounds. *)
Lemma slice_in (b : bytes) p q :
  0 <= p <= q -> q <= len b ->
  slice b p q = firstn (Z.to_nat (q - p)) (skipn (Z.to_nat p) b).
Proof.
  intros H1 H2. unfold slice. rewrite !adjust_in by lia. reflexivity.
Qed.

Lemma len_slice (b : bytes) p q :
  0 <= p <= q -> q <= len b -> len (slice b p q) = q - p.
Proof.
  intros H1 H2. rewrite slice_in by lia.
  unfold len in *. rewrite length_firstn, length_skipn. lia.
Qed.

(** The slice that covers exactly the middle of three pieces. *)
Lemma slice_mid (l pre x post : bytes) p q :
  l = pre ++ x ++ post -> p = len pre -> q = p + len x ->
  slice l p q = x.
Proof.
  intros -> -> ->. pose proof (len_nonneg pre). pose proof (len_nonneg x).
  rewrite slice_in by (rewrite ?len_app; pose proof (len_nonneg post); lia).
  unfold len. rewrite Nat2Z.id.
  rewrite skipn_app, skipn_all, Nat.sub_diag. cbn [skipn app].
  replace (Z.to_nat _) with (length x) by lia.
  rewrite firstn_app, firstn_all, Nat.sub_diag. cbn [firstn].
  apply app_nil_r.
Qed.

Lemma slice_app_l (a b : bytes) p q :
  0 <= p <= q -> q <= len a -> slice (a ++ b) p q = slice a p q.
Proof.
  intros H1 H2. pose proof (len_nonneg b).
  rewrite !slice_in by (rewrite ?len_app; lia).
  unfold len in *.
  rewrite skipn_app. replace (Z.to_nat p - length a)%nat with 0%nat by lia.
  cbn [skipn]. rewrite firstn_app.
  replace (Z.to_nat (q - p) - length (skipn (Z.to_nat p) a))%nat with 0%nat
    by (rewrite length_skipn; lia).
  cbn [firstn]. apply app_nil_r.
Qed.

Lemma slice_app_r (a b : bytes) p q :
  len a <= p <= q -> q <= len a + len b ->
  slice (a ++ b) p q = slice b (p - len a) (q - len a).
Proof.
  intros H1 H2. pose proof (len_nonneg a).
  rewrite !slice_in by (rewrite ?len_app; lia).
  unfold len in *.
  rewrite skipn_app, skipn_all2 by lia. cbn [app].
  f_equal; [lia | f_equal; lia].
Qed.

(** A list cut around a slice. *)
Lemma slice_decomp (b : bytes) p q :
  0 <= p <= q -> q <= len b ->
  b = firstn (Z.to_nat p) b ++ slice b p q ++ skipn (Z.to_nat q) b.
Proof.
  intros H1 H2. rewrite slice_in by lia.
  rewrite <- (firstn_skipn (Z.to_nat p) b) at 1. f_equal.
  rewrite <- (firstn_skipn (Z.to_nat (q - p)) (skipn (Z.to_nat p) b)) at 1.
  f_equal. rewrite skipn_skipn. f_equal. lia.
Qed.

(** A slice of a slice. *)
Lemma slice_slice (b : bytes) p q a c :
  0 <= p <= q -> q <= len b -> 0 <= a <= c -> c <= q - p ->
  slice (slice b p q) a c = slice b (p + a) (p + c).
Proof.
  intros Hpq Hq Hac Hc.
  rewrite (slice_decomp b p q) at 2 by lia.
  pose proof (len_slice b p q Hpq Hq) as Hl.
  pose proof (len_firstn p b ltac:(lia)) as Hp.
  pose proof (len_nonneg (skipn (Z.to_nat q) b)).
  rewrite slice_app_r by (rewrite ?len_app; lia).
  rewrite Hp. replace (p + a - p) with a by lia.
  replace (p + c - p) with c by lia.
  now rewrite slice_app_l by lia.
Qed.

Lemma le_combine_le_split_small n z :
  0 <= z < 2 ^ (8 * Z.of_nat n) -> le_combine (le_split n z) = z.
Proof.
  intros H. rewrite le_combine_split.
  apply Z.mod_small. now rewrite Z.mul_comm.
Qed.

Lemma bytes_eqb_eq a : forall b, bytes_eqb a b = true -> a = b.
Proof.
  induction a as [| x a IH]; intros [| y b]; cbn; try discriminate; auto.
  intros H. apply andb_prop in H as [Hx Hl].
  apply Byte.byte_dec_bl in Hx. subst y. f_equal. now apply IH.
Qed.

Lemma bytes_eqb_refl a : bytes_eqb a a = true.
Proof.
  induction a as [| x a IH]; cbn; [reflexivity|].
  rewrite IH, andb_true_r. now apply Byte.byte_dec_lb.
Qed.

(** ** Inversion of successful steps *)

Lemma lift_Ret_inv {S A} (o : outcome A) (s s' : S) a :
  lift o s = (s', Ret a) -> s' = s /\ o = Ret a.
Proof. unfold lift. intros [= -> ->]. auto. Qed.

Lemma on_mm_Ret_inv f s s' u :
  on_mm f s = (s', Ret u) -> exists x, f (mm s) = Ret x /\ s' = set_mm x s.
Proof.
  unfold on_mm. destruct (f (mm s)) as [x | e |]; intros [= <-].
  exists x. auto.
Qed.

Lemma on_bloom_Ret_inv {A} (c : M Bloom.t A) s s' a :
  on_bloom c s = (s', Ret a) ->
  exists b, c (bloom s) = (b, Ret a) /\ s' = set_bloom b s.
Proof.
  unfold on_bloom. destruct (c (bloom s)) as [b r]. intros [= <- ->].
  exists b. auto.
Qed.

Lemma segment_of_Ret_inv h s s' seg :
  _segment_of h s = (s', Ret seg) ->
  s' = s /\ segments s <> 0 /\ seg = h mod segments s.
Proof.
  unfold _segment_of. destruct (Z.eqb_spec (segments s) 0); intros [= <- <-].
  auto.
Qed.

Lemma buffer_at_Ret_inv size n off pos :
  0 <= off -> buffer_at size n off = Ret pos ->
  pos = off /\ off + size <= n /\ off <= PY_SSIZE_T_MAX.
Proof.
  intros H0. unfold buffer_at.
  destruct (Z.ltb_spec PY_SSIZE_T_MAX off); [discriminate|].
  destruct (Z.ltb_spec off (- PY_SSIZE_T_MAX - 1)); [discriminate|].
  cbn [orb]. destruct (Z.ltb_spec off 0); [lia|].
  destruct (Z.ltb_spec (n - off) size); intros [= <-]. lia.
Qed.

Lemma buffer_at_Ret size n off :
  0 <= off <= PY_SSIZE_T_MAX -> off + size <= n ->
  buffer_at size n off = Ret off.
Proof.
  intros H0 H1. unfold buffer_at, PY_SSIZE_T_MAX in *.
  destruct (Z.ltb_spec (2 ^ 63 - 1) off); [lia|].
  destruct (Z.ltb_spec off (- (2 ^ 63 - 1) - 1)); [lia|].
  cbn [orb]. destruct (Z.ltb_spec off 0); [lia|].
  destruct (Z.ltb_spec (n - off) size); [lia | reflexivity].
Qed.

Lemma pack_uint_Ret_inv w v x :
  pack_uint w v = Ret x ->
  x = le_split w v /\ 0 <= v < 2 ^ (8 * Z.of_nat w).
Proof.
  unfold pack_uint.
  destruct (Z.leb_spec 0 v); cbn [andb]; [|discriminate].
  destruct (Z.ltb_spec v (2 ^ (8 * Z.of_nat w))); intros [= <-]. auto.
Qed.

Lemma obind_Ret_inv {A B} (o : outcome A) (f : A -> outcome B) b :
  obind o f = Ret b -> exists a, o = Ret a /\ f a = Ret b.
Proof. destruct o as [a | e |]; cbn; intros H; try discriminate. eauto. Qed.

Lemma pack_entry_hdr_Ret_inv nxt h sz x :
  pack_entry_hdr nxt h sz = Ret x ->
  x = le_split 8 nxt ++ le_split 8 h ++ le_split 4 sz /\
  0 <= nxt < 2 ^ 64 /\ 0 <= h < 2 ^ 64 /\ 0 <= sz < 2 ^ 32.
Proof.
  unfold pack_entry_hdr. intros H.
  apply obind_Ret_inv in H as (a & Ha & H).
  apply obind_Ret_inv in H as (b & Hb & H).
  apply obind_Ret_inv in H as (c & Hc & H).
  apply pack_uint_Ret_inv in Ha as [-> Ha].
  apply pack_uint_Ret_inv in Hb as [-> Hb].
  apply pack_uint_Ret_inv in Hc as [-> Hc].
  injection H as <-. auto.
Qed.

Lemma mmap_resize_grow x n y :
  len x <= n -> mmap_resize x n = Ret y ->
  y = x ++ zeros (n - len x) /\ n <= PY_SSIZE_T_MAX.
Proof.
  intros Hn. unfold mmap_resize.
  destruct (Z.ltb_spec PY_SSIZE_T_MAX n); [discriminate|].
  destruct (Z.ltb_spec n 0); intros [= <-].
  split; [|assumption]. f_equal. apply firstn_all2. unfold len in *. lia.
Qed.

(** Writing [d] over the zeros a resize has just appended. *)
Lemma mmap_setslice_tail x d :
  mmap_setslice (x ++ zeros (len d)) (len x) (len x + len d) d = Ret (x ++ d).
Proof.
  pose proof (len_nonneg x). pose proof (len_nonneg d).
  unfold mmap_setslice. rewrite len_app, len_zeros.
  rewrite !adjust_in by lia.
  replace (Z.max 0 (len x + len d - len x)) with (len d) by lia.
  rewrite Z.eqb_refl. f_equal.
  unfold len. rewrite Nat2Z.id, firstn_app, firstn_all, Nat.sub_diag.
  cbn [firstn]. rewrite app_nil_r. f_equal.
  rewrite skipn_all2; [apply app_nil_r|].
  rewrite length_app. unfold zeros. rewrite repeat_length. lia.
Qed.

Lemma pack_into_mid data buf off y :
  0 <= off -> pack_into data buf off = Ret y ->
  y = firstn (Z.to_nat off) buf ++ data
      ++ skipn (Z.to_nat (off + len data)) buf /\
  off + len data <= len buf.
Proof.
  intros H0. unfold pack_into. intros H.
  apply obind_Ret_inv in H as (pos & Hp & H).
  apply buffer_at_Ret_inv in Hp as (-> & Hp & _); [|assumption].
  injection H as <-. auto.
Qed.

Lemma unpack_from_Ret_inv size buf off x :
  0 <= off -> 0 <= size -> unpack_from size buf off = Ret x ->
  x = slice buf off (off + size) /\ off + size <= len buf
  /\ off <= PY_SSIZE_T_MAX.
Proof.
  intros H0 Hs. unfold unpack_from. intros H.
  apply obind_Ret_inv in H as (pos & Hp & H).
  apply buffer_at_Ret_inv in Hp as (-> & Hp & Hq); [|assumption].
  injection H as <-. auto.
Qed.

Lemma unpack_from_Ret size buf off :
  0 <= off <= PY_SSIZE_T_MAX -> off + size <= len buf ->
  unpack_from size buf off = Ret (slice buf off (off + size)).
Proof.
  intros H0 H1. unfold unpack_from. now rewrite buffer_at_Ret.
Qed.

Lemma uint_at_whole (x : bytes) w : len x = w -> uint_at x 0 w = le_combine x.
Proof.
  intros H. unfold uint_at. f_equal.
  apply slice_mid with (pre := []) (post := []);
    rewrite ?app_nil_r; cbn [app]; rewrite ?len_nil;
    first [reflexivity | lia].
Qed.


(** What a successful [put] has done. *)
Lemma put_Ret_inv key value s s' :
  0 <= segments s ->
  put key value s = (s', Ret tt) ->
  exists v b',
    encoded value = Ret v /\
    len key = key_size s /\
    0 < segments s /\
    let seg := hash64 key mod segments s in
    let bpo := _bucket_offset seg in
    let eof := len (mm s) in
    let entry := entry_bytes (bucket_head (mm s) seg) (hash64 key) key v in
    0 <= seg < segments s /\
    bpo + 8 <= eof /\
    0 <= bucket_head (mm s) seg < 2 ^ 64 /\
    0 <= hash64 key < 2 ^ 64 /\
    len v < 2 ^ 32 /\
    eof + len entry <= PY_SSIZE_T_MAX /\
    Bloom.add key (bloom s) = (b', Ret tt) /\
    s' = mkStore (key_size s) (segments s) (bloom_fp s)
           (firstn (Z.to_nat bpo) (mm s) ++ le_split 8 eof
            ++ skipn (Z.to_nat (bpo + 8)) (mm s) ++ entry)
           b' true.
Proof.
  intros Hseg H. unfold put in H.
  apply bind_Ret_inv in H as (s1 & self & H1 & H).
  injection H1 as <- <-. unfold id in H.
  destruct (Z.eqb_spec (len key) (key_size s)) as [Hlen|]; [|discriminate].
  cbn [negb] in H.
  apply bind_Ret_inv in H as (s1 & v & H1 & H).
  apply lift_Ret_inv in H1 as [-> Hv].
  apply bind_Ret_inv in H as (s1 & seg & H1 & H).
  apply segment_of_Ret_inv in H1 as (-> & Hs0 & ->).
  assert (Hpos : 0 < segments s) by lia.
  pose proof (Z.mod_pos_bound (hash64 key) (segments s) Hpos) as Hsegr.
  apply bind_Ret_inv in H as (s1 & head & H1 & H).
  apply lift_Ret_inv in H1 as [-> Hhead].
  unfold BUCKET_SIZE in Hhead.
  apply unpack_from_Ret_inv in Hhead as (-> & Hin & _);
    [| unfold _bucket_offset, HEADER_SIZE, BUCKET_SIZE; lia | lia].
  assert (Hbpo : 0 <= _bucket_offset (hash64 key mod segments s))
    by (unfold _bucket_offset, HEADER_SIZE, BUCKET_SIZE; lia).
  rewrite uint_at_whole in H by (rewrite len_slice; lia).
  change (le_combine (slice (mm s) _ _))
    with (bucket_head (mm s) (hash64 key mod segments s)) in H.
  apply bind_Ret_inv in H as (s1 & hdr & H1 & H).
  apply lift_Ret_inv in H1 as [-> Hhdr].
  apply pack_entry_hdr_Ret_inv in Hhdr as (-> & Hn & Hh & Hv32).
  rewrite <- !app_assoc in H.
  change (le_split 8 ?n ++ le_split 8 ?h ++ le_split 4 (len v) ++ key ++ v)
    with (entry_bytes n h key v) in H.
  set (entry := entry_bytes _ _ key v) in *.
  apply bind_Ret_inv in H as (s1 & [] & H1 & H).
  apply on_mm_Ret_inv in H1 as (x1 & Hx1 & ->).
  apply mmap_resize_grow in Hx1 as [-> Hmax];
    [| pose proof (len_nonneg entry); lia].
  replace (len (mm s) + len entry - len (mm s)) with (len entry) in H by lia.
  apply bind_Ret_inv in H as (s1 & [] & H1 & H).
  apply on_mm_Ret_inv in H1 as (x2 & Hx2 & ->). cbn [mm set_mm] in Hx2.
  rewrite mmap_setslice_tail in Hx2. injection Hx2 as <-.
  apply bind_Ret_inv in H as (s1 & slot & H1 & H).
  apply lift_Ret_inv in H1 as [-> Hslot].
  apply pack_uint_Ret_inv in Hslot as [-> Heof].
  apply bind_Ret_inv in H as (s1 & [] & H1 & H).
  apply on_mm_Ret_inv in H1 as (x3 & Hx3 & ->). cbn [mm set_mm] in Hx3.
  apply pack_into_mid in Hx3 as [-> _]; [|assumption].
  apply bind_Ret_inv in H as (s1 & [] & H1 & H).
  apply on_bloom_Ret_inv in H1 as (b' & Hb & ->). cbn [bloom set_mm] in Hb.
  unfold modify in H. injection H as <-.
  exists v, b'. cbv zeta. fold entry.
  repeat (split; [first [assumption | lia]|]).
  unfold set_header_dirty, set_bloom, set_mm.
  cbn [key_size segments bloom_fp mm bloom _header_dirty]. f_equal.
  rewrite len_le_split. change (Z.of_nat 8) with 8.
  rewrite firstn_app, skipn_app.
  replace (Z.to_nat _ - length (mm s))%nat with 0%nat by (unfold len in *; lia).
  replace (Z.to_nat _ - length (mm s))%nat with 0%nat by (unfold len in *; lia).
  cbn [firstn skipn]. now rewrite app_nil_r.
Qed.

(** ** The Bloom filter *)

Lemma set_nth_length {A} (l : list A) i x : length (set_nth l i x) = length l.
Proof.
  revert i; induction l as [| h t IH]; intros [| i]; cbn; auto.
Qed.

Lemma set_nth_same {A} (l : list A) i x :
  (i < length l)%nat -> nth_error (set_nth l i x) i = Some x.
Proof.
  revert i; induction l as [| h t IH]; intros [| i]; cbn; intros H;
    try lia; auto. apply IH. lia.
Qed.

Lemma set_nth_other {A} (l : list A) i j x :
  i <> j -> nth_error (set_nth l i x) j = nth_error l j.
Proof.
  revert i j; induction l as [| h t IH]; intros [| i] [| j]; cbn; intros H;
    try congruence; auto.
Qed.

Lemma lor_byte_range a b :
  0 <= a < 256 -> 0 <= b < 256 -> 0 <= Z.lor a b < 256.
Proof.
  intros Ha Hb. change 256 with (2 ^ 8) in *.
  rewrite <- (Z.mod_small a (2 ^ 8)), <- (Z.mod_small b (2 ^ 8)) by lia.
  rewrite <- !Z.land_ones, <- Z.land_lor_distr_l, Z.land_ones by lia.
  apply Z.mod_pos_bound. lia.
Qed.


Lemma mask_range bit : 0 < mask bit < 256.
Proof.
  unfold mask. change 7 with (Z.ones 3). rewrite Z.land_ones by lia.
  pose proof (Z.mod_pos_bound bit (2 ^ 3) ltac:(lia)) as H.
  rewrite Z.shiftl_1_l.
  split; [apply Z.pow_pos_nonneg; lia|].
  change 256 with (2 ^ 8). apply Z.pow_lt_mono_r; lia.
Qed.


Lemma item_index_in n i :
  0 <= i < n -> item_index n i = Some (Z.to_nat i).
Proof.
  intros H. unfold item_index.
  destruct (Z.ltb_spec i 0); [lia|].
  destruct (Z.leb_spec 0 i); [|lia].
  destruct (Z.ltb_spec i n); [reflexivity | lia].
Qed.

(** One bit added without growth: the byte array keeps its length, the
    bit is set, and no bit is cleared. *)
Lemma add_bit_fits bit b :
  0 <= bit -> bit / 8 < len (Bloom.bits b) ->
  exists b',
    Bloom.add_bit bit b = (b', Ret tt) /\
    Bloom.m b' = Bloom.m b /\ Bloom.k b' = Bloom.k b /\
    len (Bloom.bits b') = len (Bloom.bits b) /\
    bit_set (Bloom.bits b') bit /\
    forall bit2, bit_set (Bloom.bits b) bit2 -> bit_set (Bloom.bits b') bit2.
Proof.
  intros H0 Hfit.
  assert (Hq : 0 <= bit / 8) by (apply Z.div_pos; lia).
  unfold Bloom.add_bit, bind, gets.
  destruct (Z.leb_spec (len (Bloom.bits b)) (bit / 8)); [lia|].
  unfold ret, Bloom.getitem.
  rewrite item_index_in by lia.
  destruct (nth_error (Bloom.bits b) (Z.to_nat (bit / 8))) as [x|] eqn:Ex.
  2:{ apply nth_error_None in Ex. unfold len in *. lia. }
  unfold Bloom.setitem. rewrite item_index_in by lia.
  fold (mask bit).
  pose proof (byte.unsigned_range x) as Hx. change (2 ^ 8) with 256 in Hx.
  pose proof (mask_range bit) as Hm.
  assert (Hm' : 0 <= mask bit < 256) by lia.
  pose proof (lor_byte_range _ _ Hx Hm') as Hl.
  destruct (Z.leb_spec 0 (Z.lor (byte.unsigned x) (mask bit))); [|lia].
  destruct (Z.ltb_spec (Z.lor (byte.unsigned x) (mask bit)) 256); [|lia].
  cbn [andb]. eexists. split; [reflexivity|].
  unfold Bloom.set_bits. cbn [Bloom.m Bloom.k Bloom.bits].
  assert (Hlt : (Z.to_nat (bit / 8) < length (Bloom.bits b))%nat)
    by (unfold len in *; lia).
  assert (Hu : byte.unsigned (byte.of_Z (Z.lor (byte.unsigned x) (mask bit)))
               = Z.lor (byte.unsigned x) (mask bit)).
  { rewrite byte.unsigned_of_Z. unfold byte.wrap. apply Z.mod_small.
    change (2 ^ 8) with 256. lia. }
  repeat split.
  - unfold len. now rewrite set_nth_length.
  - unfold bit_set. rewrite set_nth_same by assumption. rewrite Hu.
    rewrite Z.land_lor_distr_l, Z.land_diag. intros E.
    apply Z.lor_eq_0_iff in E. lia.
  - intros bit2. unfold bit_set.
    destruct (Nat.eq_dec (Z.to_nat (bit / 8)) (Z.to_nat (bit2 / 8))) as [E|E].
    + rewrite <- E, set_nth_same, Ex by assumption. rewrite Hu.
      rewrite Z.land_lor_distr_l. intros Hs E0.
      apply Z.lor_eq_0_iff in E0. tauto.
    + now rewrite set_nth_other.
Qed.

(** One bit added beyond the byte array: the array grows to cover it and
    [m] becomes eight times its length. *)
Lemma add_bit_grows bit b :
  0 <= bit -> len (Bloom.bits b) <= bit / 8 ->
  exists b',
    Bloom.add_bit bit b = (b', Ret tt) /\
    Bloom.k b' = Bloom.k b /\
    Bloom.m b' = 8 * len (Bloom.bits b') /\
    0 < len (Bloom.bits b').
Proof.
  intros H0 Hg. pose proof (len_nonneg (Bloom.bits b)) as Hn.
  set (b1 := Bloom.set_m (len (Bloom.bits b ++ zeros (bit / 8 + 1 - len (Bloom.bits b))) * 8)
               (Bloom.set_bits (Bloom.bits b ++ zeros (bit / 8 + 1 - len (Bloom.bits b))) b)).
  assert (Hl : len (Bloom.bits b1) = bit / 8 + 1).
  { unfold b1. cbn [Bloom.bits Bloom.set_m Bloom.set_bits].
    rewrite len_app, len_zeros. lia. }
  destruct (add_bit_fits bit b1 H0 ltac:(lia))
    as (b' & E & Hm & Hk & Hlen & _).
  exists b'. split.
  - unfold Bloom.add_bit, bind, gets in *.
    destruct (Z.leb_spec (len (Bloom.bits b)) (bit / 8)); [|lia].
    destruct (Z.leb_spec (len (Bloom.bits b1)) (bit / 8)); [lia|].
    unfold modify, ret in *. exact E.
  - rewrite Hm, Hk, Hlen. repeat split; [|lia].
    unfold b1. cbn [Bloom.bits Bloom.m Bloom.set_m Bloom.set_bits]. lia.
Qed.

Lemma hash_bit_range h1 h2 m j : 0 < m -> 0 <= hash_bit h1 h2 m j < m.
Proof. intros H. unfold hash_bit. now apply Z.mod_pos_bound. Qed.

Lemma hashes_next_Ret h1 h2 i b :
  0 < Bloom.m b ->
  Bloom._hashes_next h1 h2 i b = (b, Ret (hash_bit h1 h2 (Bloom.m b) i)).
Proof.
  intros H. unfold Bloom._hashes_next.
  destruct (Z.eqb_spec (Bloom.m b) 0); [lia | reflexivity].
Qed.

(** The loop of [add] when every bit still to come falls inside the byte
    array: nothing grows, [m] stays, and all those bits end up set. *)
Lemma add_loop_fits h1 h2 n : forall i b,
  0 < Bloom.m b ->
  (forall j, i <= j < i + Z.of_nat n ->
     hash_bit h1 h2 (Bloom.m b) j / 8 < len (Bloom.bits b)) ->
  exists b',
    Bloom.add_loop h1 h2 i n b = (b', Ret tt) /\
    Bloom.m b' = Bloom.m b /\ Bloom.k b' = Bloom.k b /\
    len (Bloom.bits b') = len (Bloom.bits b) /\
    (forall j, i <= j < i + Z.of_nat n ->
       bit_set (Bloom.bits b') (hash_bit h1 h2 (Bloom.m b) j)) /\
    (forall bit2, bit_set (Bloom.bits b) bit2 -> bit_set (Bloom.bits b') bit2).
Proof.
  induction n as [| n IH]; intros i b Hm Hfit.
  - exists b. cbn [Bloom.add_loop]. repeat split; auto. intros j Hj. lia.
  - cbn [Bloom.add_loop].
    rewrite (bind_Ret _ _ _ _ _ (hashes_next_Ret h1 h2 i b Hm)).
    pose proof (hash_bit_range h1 h2 _ i Hm) as Hr.
    destruct (add_bit_fits (hash_bit h1 h2 (Bloom.m b) i) b)
      as (b1 & E1 & Hm1 & Hk1 & Hl1 & Hset1 & Hkeep1);
      [lia | apply Hfit; lia |].
    rewrite (bind_Ret _ _ _ _ _ E1).
    destruct (IH (i + 1) b1) as (b' & E & Hm' & Hk' & Hl' & Hset & Hkeep).
    { lia. }
    { intros j Hj. rewrite Hm1, Hl1. apply Hfit. lia. }
    exists b'. split; [exact E|].
    rewrite Hm', Hk', Hl', Hm1, Hk1, Hl1. repeat split; auto.
    intros j Hj. destruct (Z.eq_dec j i) as [->|Hne].
    + apply Hkeep, Hset1.
    + rewrite <- Hm1. apply Hset. lia.
Qed.

(** The loop of [add] in general: it returns, and afterwards either [m]
    is eight times the length of the byte array, or nothing has grown. *)
Lemma add_loop_total h1 h2 n : forall i b,
  0 < Bloom.m b ->
  exists b',
    Bloom.add_loop h1 h2 i n b = (b', Ret tt) /\
    Bloom.k b' = Bloom.k b /\ 0 < Bloom.m b' /\
    (Bloom.m b' = 8 * len (Bloom.bits b') \/
     (Bloom.m b' = Bloom.m b /\
      len (Bloom.bits b') = len (Bloom.bits b) /\
      forall j, i <= j < i + Z.of_nat n ->
        hash_bit h1 h2 (Bloom.m b) j / 8 < len (Bloom.bits b))).
Proof.
  induction n as [| n IH]; intros i b Hm.
  - exists b. cbn [Bloom.add_loop]. repeat split; auto.
    right. repeat split. intros j Hj. lia.
  - cbn [Bloom.add_loop].
    rewrite (bind_Ret _ _ _ _ _ (hashes_next_Ret h1 h2 i b Hm)).
    pose proof (hash_bit_range h1 h2 _ i Hm) as Hr.
    destruct (Z.lt_ge_cases (hash_bit h1 h2 (Bloom.m b) i / 8)
                (len (Bloom.bits b))) as [Hin | Hout].
    + destruct (add_bit_fits _ b (proj1 Hr) Hin)
        as (b1 & E1 & Hm1 & Hk1 & Hl1 & _).
      rewrite (bind_Ret _ _ _ _ _ E1).
      destruct (IH (i + 1) b1 ltac:(lia)) as (b' & E & Hk' & Hm' & Hcase).
      exists b'. split; [exact E|]. rewrite Hk', Hk1.
      repeat split; auto.
      destruct Hcase as [Hst | (Hm2 & Hl2 & Hfit)]; [now left | right].
      rewrite Hm2, Hl2, Hm1, Hl1. repeat split.
      intros j Hj. destruct (Z.eq_dec j i) as [->|Hne]; [exact Hin|].
      rewrite <- Hm1, <- Hl1. apply Hfit. lia.
    + destruct (add_bit_grows _ b (proj1 Hr) Hout)
        as (b1 & E1 & Hk1 & Hm1 & Hl1).
      rewrite (bind_Ret _ _ _ _ _ E1).
      destruct (add_loop_fits h1 h2 n (i + 1) b1)
        as (b' & E & Hm' & Hk' & Hl' & _); [lia | |].
      { intros j Hj.
        pose proof (hash_bit_range h1 h2 (Bloom.m b1) j ltac:(lia)) as Hj'.
        apply Z.div_lt_upper_bound; lia. }
      exists b'. split; [exact E|]. rewrite Hk', Hk1.
      repeat split; [lia|]. left. lia.
Qed.

Lemma contains_loop_true h1 h2 n : forall i b,
  0 < Bloom.m b ->
  (forall j, i <= j < i + Z.of_nat n ->
     bit_set (Bloom.bits b) (hash_bit h1 h2 (Bloom.m b) j)) ->
  Bloom.contains_loop h1 h2 i n b = (b, Ret true).
Proof.
  induction n as [| n IH]; intros i b Hm Hset; cbn [Bloom.contains_loop].
  - reflexivity.
  - rewrite (bind_Ret _ _ _ _ _ (hashes_next_Ret h1 h2 i b Hm)).
    pose proof (hash_bit_range h1 h2 _ i Hm) as Hr.
    pose proof (Hset i ltac:(lia)) as Hi. unfold bit_set in Hi.
    set (bit := hash_bit h1 h2 (Bloom.m b) i) in *.
    destruct (nth_error (Bloom.bits b) (Z.to_nat (bit / 8))) as [x|] eqn:Ex;
      [|contradiction].
    assert (Hq : 0 <= bit / 8) by (apply Z.div_pos; lia).
    assert (Hlt : bit / 8 < len (Bloom.bits b)).
    { assert (Hn : nth_error (Bloom.bits b) (Z.to_nat (bit / 8)) <> None)
        by congruence.
      apply nth_error_Some in Hn. unfold len. lia. }
    assert (Eg : Bloom.getitem (bit / 8) b = (b, Ret x)).
    { unfold Bloom.getitem. rewrite item_index_in by lia. now rewrite Ex. }
    rewrite (bind_Ret _ _ _ _ _ Eg). fold (mask bit).
    destruct (Z.eqb_spec (Z.land (byte.unsigned x) (mask bit)) 0); [contradiction|].
    apply IH; [assumption|]. intros j Hj. apply Hset. lia.
Qed.

(** After two successful [add]s of a key, the key is in the filter. *)
Lemma add_twice_contains key b0 b1 b2 :
  (0 < Bloom.k b0 -> 0 < Bloom.m b0) ->
  Bloom.add key b0 = (b1, Ret tt) ->
  Bloom.add key b1 = (b2, Ret tt) ->
  Bloom.__contains__ key b2 = (b2, Ret true).
Proof.
  intros Hok. unfold Bloom.add, Bloom.__contains__.
  destruct (Bloom.digest128 key) as [h1 h2]. intros E1 E2.
  destruct (Z.le_gt_cases (Bloom.k b0) 0) as [Hk | Hk].
  - replace (Z.to_nat (Bloom.k b0)) with 0%nat in E1 by lia.
    cbn in E1. injection E1 as <-.
    replace (Z.to_nat (Bloom.k b0)) with 0%nat in E2 by lia.
    cbn in E2. injection E2 as <-.
    replace (Z.to_nat (Bloom.k b0)) with 0%nat by lia. reflexivity.
  - specialize (Hok Hk).
    destruct (add_loop_total h1 h2 (Z.to_nat (Bloom.k b0)) 0 b0 Hok)
      as (b1' & E1' & Hk1 & Hm1 & Hcase).
    rewrite E1 in E1'. injection E1' as <-.
    assert (Hfit : forall j, 0 <= j < 0 + Z.of_nat (Z.to_nat (Bloom.k b1)) ->
              hash_bit h1 h2 (Bloom.m b1) j / 8 < len (Bloom.bits b1)).
    { rewrite Hk1. intros j Hj.
      destruct Hcase as [Hst | (Hm & Hl & Hfit)].
      - pose proof (hash_bit_range h1 h2 (Bloom.m b1) j Hm1).
        apply Z.div_lt_upper_bound; lia.
      - rewrite Hm, Hl. now apply Hfit. }
    destruct (add_loop_fits h1 h2 (Z.to_nat (Bloom.k b1)) 0 b1 Hm1 Hfit)
      as (b2' & E2' & Hm2 & Hk2 & Hl2 & Hset & _).
    rewrite E2 in E2'. injection E2' as <-.
    apply contains_loop_true; [lia|].
    rewrite Hk2, Hm2. exact Hset.
Qed.

(** ** The file after a [put] *)

Lemma hash64_range key : 0 <= hash64 key < 2 ^ 64.
Proof.
  unfold hash64, Blake2b.blake2b.
  match goal with |- context [le_combine ?l] =>
    pose proof (le_combine_bound l) as H;
    assert (Hl : (length l <= 8)%nat) by apply firstn_le_length
  end.
  split; [apply H|]. eapply Z.lt_le_trans; [apply H|].
  apply Z.pow_le_mono_r; lia.
Qed.

Lemma uint_at_range (x : bytes) p w :
  0 <= w -> 0 <= p -> p + w <= len x -> 0 <= uint_at x p w < 2 ^ (8 * w).
Proof.
  intros Hw Hp Hl. unfold uint_at.
  pose proof (le_combine_bound (slice x p (p + w))) as H.
  pose proof (len_slice x p (p + w) ltac:(lia) Hl) as E. unfold len in E.
  replace (8 * w) with (8 * Z.of_nat (length (slice x p (p + w)))) by lia.
  exact H.
Qed.

Section AfterPut.

Variables (key v : bytes) (value : py_value) (s s' : StaticHashStore).
Hypothesis Hseg : 0 <= segments s.
Hypothesis Hput : put key value s = (s', Ret tt).
Hypothesis Hval : encoded value = Ret v.

Let seg := hash64 key mod segments s.
Let bpo := _bucket_offset seg.
Let eof := len (mm s).
Let nxt := bucket_head (mm s) seg.
Let before := firstn (Z.to_nat bpo) (mm s).
Let after := skipn (Z.to_nat (bpo + 8)) (mm s).

Lemma put_facts :
  len key = key_size s /\ 0 < segments s /\ 0 <= seg < segments s /\
  HEADER_SIZE <= bpo /\ bpo + 8 <= eof /\ 0 <= nxt < 2 ^ 64 /\
  len v < 2 ^ 32 /\
  eof + ENTRY_HDR_SIZE + len key + len v <= PY_SSIZE_T_MAX /\
  Bloom.add key (bloom s) = (bloom s', Ret tt) /\
  key_size s' = key_size s /\ segments s' = segments s /\
  bloom_fp s' = bloom_fp s /\ _header_dirty s' = true /\
  mm s' = before ++ le_split 8 eof ++ after
          ++ entry_bytes nxt (hash64 key) key v.
Proof.
  destruct (put_Ret_inv key value s s' Hseg Hput)
    as (v0 & b' & Hv & Hl & Hp & H). cbv zeta in H.
  rewrite Hval in Hv. injection Hv as <-.
  destruct H as (Hs & Hb & Hn & Hh & Hv32 & Hmax & Hadd & ->).
  cbn [key_size segments bloom_fp mm bloom _header_dirty].
  fold seg bpo eof nxt before after in Hs, Hb, Hn, Hmax |- *.
  assert (Hent : len (entry_bytes nxt (hash64 key) key v)
                 = ENTRY_HDR_SIZE + len key + len v).
  { unfold entry_bytes. rewrite !len_app, !len_le_split.
    unfold ENTRY_HDR_SIZE. lia. }
  repeat split; try assumption; try lia.
  unfold bpo, _bucket_offset, HEADER_SIZE, BUCKET_SIZE. lia.
Qed.

Lemma put_mm :
  mm s' = before ++ le_split 8 eof ++ after
          ++ entry_bytes nxt (hash64 key) key v.
Proof. apply put_facts. Qed.

Lemma len_before : len before = bpo.
Proof.
  destruct put_facts as (_ & _ & _ & H1 & H2 & _).
  unfold before. apply len_firstn. unfold HEADER_SIZE in *.
  fold eof. lia.
Qed.

Lemma len_after : len after = eof - (bpo + 8).
Proof.
  destruct put_facts as (_ & _ & _ & H1 & H2 & _).
  unfold after. apply len_skipn. unfold HEADER_SIZE in *.
  fold eof. lia.
Qed.

Lemma len_mm_after_put :
  len (mm s') = eof + ENTRY_HDR_SIZE + len key + len v.
Proof.
  rewrite put_mm.
  unfold entry_bytes. rewrite !len_app, !len_le_split, len_before, len_after.
  unfold ENTRY_HDR_SIZE. lia.
Qed.

(** The bucket slot of the key holds the offset of the new entry. *)
Lemma put_head : slice (mm s') bpo (bpo + 8) = le_split 8 eof.
Proof.
  eapply slice_mid; [exact put_mm | now rewrite len_before |].
  now rewrite len_le_split.
Qed.

(** The new entry: header, key and value, at the old end of file. *)
Lemma put_entry_hdr :
  slice (mm s') eof (eof + ENTRY_HDR_SIZE)
  = le_split 8 nxt ++ le_split 8 (hash64 key) ++ le_split 4 (len v).
Proof.
  pose proof put_mm as H.
  apply slice_mid with (pre := before ++ le_split 8 eof ++ after)
                       (post := key ++ v).
  - rewrite H. unfold entry_bytes. now rewrite <- !app_assoc.
  - rewrite !len_app, len_le_split, len_before, len_after. lia.
  - rewrite !len_app, !len_le_split. unfold ENTRY_HDR_SIZE. lia.
Qed.

Lemma put_entry_key :
  slice (mm s') (eof + ENTRY_HDR_SIZE) (eof + ENTRY_HDR_SIZE + key_size s')
  = key.
Proof.
  destruct put_facts as (Hl & _ & _ & H1 & H2 & H).
  destruct H as (_ & _ & _ & _ & Hks & _). pose proof put_mm as H.
  apply slice_mid
    with (pre := before ++ le_split 8 eof ++ after ++ le_split 8 nxt
                 ++ le_split 8 (hash64 key) ++ le_split 4 (len v))
         (post := v).
  - rewrite H. unfold entry_bytes. now rewrite <- !app_assoc.
  - rewrite !len_app, !len_le_split, len_before, len_after.
    unfold ENTRY_HDR_SIZE. lia.
  - lia.
Qed.

Lemma put_entry_value :
  slice (mm s') (eof + ENTRY_HDR_SIZE + key_size s')
                (eof + ENTRY_HDR_SIZE + key_size s' + len v)
  = v.
Proof.
  destruct put_facts as (Hl & _ & _ & H1 & H2 & H).
  destruct H as (_ & _ & _ & _ & Hks & _). pose proof put_mm as H.
  apply slice_mid
    with (pre := before ++ le_split 8 eof ++ after ++ le_split 8 nxt
                 ++ le_split 8 (hash64 key) ++ le_split 4 (len v) ++ key)
         (post := []).
  - rewrite H. unfold entry_bytes. now rewrite <- !app_assoc, app_nil_r.
  - rewrite !len_app, !len_le_split, len_before, len_after.
    unfold ENTRY_HDR_SIZE. lia.
  - lia.
Qed.

(** [get] of the key just put, once the Bloom test lets it through. *)
Lemma get_after_put fuel :
  snd (Bloom.__contains__ key (bloom s')) = Ret true ->
  get (S fuel) key s' = (s', Ret (Some v)).
Proof.
  intros Hb.
  destruct put_facts as (Hl & Hp & Hs & H1 & H2 & Hn & Hv32 & Hmax & H).
  destruct H as (_ & Hks & Hsg & _).
  pose proof len_mm_after_put as Hlen.
  pose proof (len_nonneg key). pose proof (len_nonneg v).
  pose proof (hash64_range key) as Hh.
  unfold HEADER_SIZE, ENTRY_HDR_SIZE in *.
  rewrite get_locate. unfold locate. rewrite Hb, Hsg.
  destruct (Z.eqb_spec (segments s) 0); [lia|].
  fold seg bpo. unfold BUCKET_SIZE.
  rewrite unpack_from_Ret by lia. cbn [obind].
  rewrite put_head, uint_at_whole by now rewrite len_le_split.
  rewrite le_combine_le_split_small
    by (change (2 ^ (8 * Z.of_nat 8)) with (2 ^ 64);
        unfold PY_SSIZE_T_MAX in Hmax; lia).
  cbn [walk].
  destruct (Z.eqb_spec eof 0); [lia|].
  unfold bind at 1, gets at 1, id. unfold bind at 1, lift at 1.
  unfold ENTRY_HDR_SIZE.
  rewrite unpack_from_Ret by (fold eof; lia). fold eof.
  pose proof put_entry_hdr as Hhdr. unfold ENTRY_HDR_SIZE in Hhdr.
  cbn [Z.add] in Hhdr |- *. rewrite Hhdr.
  pose proof put_entry_key as Hk. unfold ENTRY_HDR_SIZE in Hk.
  cbn [Z.add] in Hk. rewrite Hk.
  pose proof put_entry_value as Hv. unfold ENTRY_HDR_SIZE in Hv.
  cbn [Z.add] in Hv.
  assert (E1 : uint_at (le_split 8 nxt ++ le_split 8 (hash64 key)
                        ++ le_split 4 (len v)) 8 8 = hash64 key).
  { unfold uint_at.
    erewrite slice_mid with (pre := le_split 8 nxt)
                            (post := le_split 4 (len v));
      [| reflexivity | now rewrite len_le_split | now rewrite len_le_split].
    apply le_combine_le_split_small. exact Hh. }
  assert (E2 : uint_at (le_split 8 nxt ++ le_split 8 (hash64 key)
                        ++ le_split 4 (len v)) 16 4 = len v).
  { unfold uint_at.
    erewrite slice_mid
      with (pre := le_split 8 nxt ++ le_split 8 (hash64 key)) (post := []);
      [| now rewrite <- app_assoc, app_nil_r
       | now rewrite len_app, !len_le_split
       | now rewrite len_le_split ].
    apply le_combine_le_split_small. change (2 ^ (8 * Z.of_nat 4)) with (2 ^ 32).
    lia. }
  rewrite E1, E2, Z.eqb_refl, bytes_eqb_refl. cbn [andb].
  unfold ret. now rewrite Hv.
Qed.

End AfterPut.

Lemma put_encoded key value s s' :
  0 <= segments s -> put key value s = (s', Ret tt) ->
  exists v, encoded value = Ret v.
Proof.
  intros Hseg H. destruct (put_Ret_inv _ _ _ _ Hseg H) as (v & _ & Hv & _).
  eauto.
Qed.

Lemma put_bloom key value s s' :
  0 <= segments s -> put key value s = (s', Ret tt) ->
  Bloom.add key (bloom s) = (bloom s', Ret tt) /\
  segments s' = segments s /\ key_size s' = key_size s /\
  len key = key_size s.
Proof.
  intros Hseg H. destruct (put_encoded _ _ _ _ Hseg H) as [v Hv].
  pose proof (put_facts key v value s s' Hseg H Hv) as F. tauto.
Qed.

(** C4.  LIFO shadowing: on a store (any object the constructor can
    return satisfies [valid]), once [put(k, v1)] and then [put(k, v2)]
    have returned, [get(k)] returns [v2]: the newest entry is the head of
    the key's chain and is the first one the walk compares.  That [put]
    returned implies [len(k) = key_size]. *)
Theorem lifo_shadowing : forall s key value1 v2 s1 s2 fuel,
  valid s ->
  put key value1 s = (s1, Ret tt) ->
  put key (PyBytes v2) s1 = (s2, Ret tt) ->
  get (S fuel) key s2 = (s2, Ret (Some v2)).
Proof.
  intros s key value1 v2 s1 s2 fuel [Hseg Hbl] H1 H2.
  destruct (put_bloom _ _ _ _ Hseg H1) as (Ha1 & Hs1 & _).
  assert (Hseg1 : 0 <= segments s1) by lia.
  destruct (put_bloom _ _ _ _ Hseg1 H2) as (Ha2 & _).
  apply (get_after_put key v2 (PyBytes v2) s1 s2 Hseg1 H2 eq_refl).
  now rewrite (add_twice_contains key _ _ _ Hbl Ha1 Ha2).
Qed.

(** ** Chains *)

(** A chain survives any change of the file that keeps the [next_offset]
    of every entry lying after [lo] and does not shorten the file. *)
Lemma chain_frame lo x y e :
  len x <= len y ->
  (forall e', lo <= e' -> e' + ENTRY_HDR_SIZE <= len x ->
     entry_next y e' = entry_next x e') ->
  chain lo x e -> chain lo y e.
Proof.
  intros Hlen Hsame Hc. induction Hc as [| e Hlo Hin Hlt Hc IH].
  - constructor.
  - rewrite <- (Hsame e Hlo Hin) in *.
    constructor; auto. lia.
Qed.

Lemma chain_below lo x e : 0 < lo -> lo <= len x -> chain lo x e -> e < len x.
Proof.
  intros H0 Hl Hc. destruct Hc; unfold ENTRY_HDR_SIZE in *; lia.
Qed.

(** On a chain the walk returns: a value at the first matching entry,
    absent at the end. *)
Lemma walk_chain lo key h s e :
  0 < lo -> len (mm s) <= PY_SSIZE_T_MAX ->
  chain lo (mm s) e ->
  exists n r, forall fuel, (n <= fuel)%nat ->
    walk fuel key h e s = (s, Ret r).
Proof.
  intros H0 Hmax Hc. induction Hc as [| e Hlo Hin Hlt Hc (n & r & IH)].
  - exists 0%nat, None. intros [| fuel] _; reflexivity.
  - assert (He : unpack_from ENTRY_HDR_SIZE (mm s) e
                 = Ret (slice (mm s) e (e + ENTRY_HDR_SIZE)))
      by (apply unpack_from_Ret; unfold ENTRY_HDR_SIZE in *; lia).
    set (hdr := slice (mm s) e (e + ENTRY_HDR_SIZE)) in *.
    assert (Hn : uint_at hdr 0 8 = entry_next (mm s) e).
    { unfold uint_at, entry_next, uint_at, hdr. f_equal.
      rewrite slice_slice by (unfold ENTRY_HDR_SIZE in *; lia).
      f_equal; lia. }
    destruct ((uint_at hdr 8 8 =? h)
              && bytes_eqb (slice (mm s) (e + ENTRY_HDR_SIZE)
                              (e + ENTRY_HDR_SIZE + key_size s)) key) eqn:Em.
    + exists 1%nat. eexists. intros [| fuel] Hf; [lia|].
      cbn [walk]. destruct (Z.eqb_spec e 0); [lia|].
      unfold bind, gets, lift, id. rewrite He. fold hdr. rewrite Em.
      reflexivity.
    + exists (S n), r. intros [| fuel] Hf; [lia|].
      cbn [walk]. destruct (Z.eqb_spec e 0); [lia|].
      unfold bind, gets, lift, id. rewrite He. fold hdr. rewrite Em, Hn.
      apply IH. lia.
Qed.

Section PutChains.

Variables (key : bytes) (value : py_value) (s s' : StaticHashStore).
Hypothesis Hok : chains_ok s.
Hypothesis Hput : put key value s = (s', Ret tt).

Let seg := hash64 key mod segments s.
Let bpo := _bucket_offset seg.
Let eof := len (mm s).

(** [put] writes the bucket slot and past the old end of file, and
    nowhere else. *)
Lemma put_frame p q :
  0 <= p <= q -> q <= eof -> q <= bpo \/ bpo + 8 <= p ->
  slice (mm s') p q = slice (mm s) p q.
Proof.
  intros Hpq Hq Hout. destruct Hok as (Hseg & _ & _).
  destruct (put_encoded _ _ _ _ Hseg Hput) as [v Hv].
  pose proof (put_facts key v value s s' Hseg Hput Hv) as F.
  destruct F as (_ & _ & _ & H1 & H2 & _).
  fold seg bpo eof in H1, H2. unfold HEADER_SIZE in H1.
  rewrite (put_mm key v value s s' Hseg Hput Hv). fold seg bpo eof.
  pose proof (slice_decomp (mm s) bpo (bpo + 8)
                ltac:(lia) ltac:(fold eof; lia)) as Hdec.
  pose proof (len_before key v value s s' Hseg Hput Hv) as Lb.
  pose proof (len_after key v value s s' Hseg Hput Hv) as La.
  fold seg bpo eof in Lb, La.
  assert (Lo : len (slice (mm s) bpo (bpo + 8)) = 8)
    by (rewrite len_slice; fold eof; lia).
  set (before := firstn (Z.to_nat bpo) (mm s)) in *.
  set (after := skipn (Z.to_nat (bpo + 8)) (mm s)) in *.
  set (old := slice (mm s) bpo (bpo + 8)) in *.
  set (entry := entry_bytes _ _ _ _).
  pose proof (len_nonneg entry).
  rewrite Hdec. clear Hdec.
  destruct Hout as [Hl | Hr].
  - now rewrite !slice_app_l by lia.
  - rewrite (app_assoc before (le_split 8 eof)).
    rewrite (app_assoc before old).
    rewrite !(slice_app_r (before ++ _))
      by (rewrite ?len_app, ?len_le_split, ?Lo;
          change (Z.of_nat 8) with 8; lia).
    rewrite !len_app, len_le_split, Lo. change (Z.of_nat 8) with 8.
    now rewrite slice_app_l by lia.
Qed.

(** The entry written has the old head as its [next_offset]. *)
Lemma put_next :
  entry_next (mm s') eof = bucket_head (mm s) seg.
Proof.
  destruct Hok as (Hseg & _ & _).
  destruct (put_encoded _ _ _ _ Hseg Hput) as [v Hv].
  pose proof (put_facts key v value s s' Hseg Hput Hv) as F.
  destruct F as (_ & _ & _ & H1 & H2 & Hn & _).
  pose proof (put_mm key v value s s' Hseg Hput Hv) as Hmm.
  pose proof (len_before key v value s s' Hseg Hput Hv) as Lb.
  pose proof (len_after key v value s s' Hseg Hput Hv) as La.
  fold seg bpo eof in H1, H2, Hn, Hmm, Lb, La.
  unfold entry_next, uint_at.
  erewrite slice_mid
    with (pre := firstn (Z.to_nat bpo) (mm s) ++ le_split 8 eof
                 ++ skipn (Z.to_nat (bpo + 8)) (mm s))
         (x := le_split 8 (bucket_head (mm s) seg)).
  - apply le_combine_le_split_small. exact Hn.
  - rewrite Hmm. unfold entry_bytes. rewrite <- !app_assoc. reflexivity.
  - rewrite !len_app, len_le_split, Lb, La. change (Z.of_nat 8) with 8. lia.
  - now rewrite len_le_split.
Qed.

Lemma put_chains_ok : chains_ok s'.
Proof.
  pose proof Hok as (Hseg & Htab & Hch).
  destruct (put_encoded _ _ _ _ Hseg Hput) as [v Hv].
  pose proof (put_facts key v value s s' Hseg Hput Hv) as F.
  destruct F as (_ & Hp & Hs & H1 & H2 & Hn & _ & Hmax & _ & _ & Hsg & _).
  pose proof (len_mm_after_put key v value s s' Hseg Hput Hv) as Hlen.
  pose proof (len_nonneg key). pose proof (len_nonneg v).
  fold seg bpo eof in Hs, H1, H2, Hn, Hmax, Hlen.
  assert (Hte : table_end s' = table_end s)
    by (unfold table_end; now rewrite Hsg).
  assert (Hb8 : bpo + 8 <= table_end s)
    by (unfold table_end, bpo, _bucket_offset, HEADER_SIZE, BUCKET_SIZE; lia).
  assert (Hpos : 0 < table_end s)
    by (unfold table_end, HEADER_SIZE, BUCKET_SIZE; lia).
  unfold ENTRY_HDR_SIZE, HEADER_SIZE in *.
  assert (Hframe : forall e, chain (table_end s) (mm s) e ->
                             chain (table_end s) (mm s') e).
  { intros e0. apply chain_frame; [fold eof; lia|].
    intros e Hlo Hin. unfold entry_next, uint_at, ENTRY_HDR_SIZE in *.
    f_equal. apply put_frame; fold eof in Hin; lia. }
  split; [lia|]. rewrite Hte, Hsg. split; [fold eof; lia|].
  intros seg' Hseg'.
  destruct (Z.eq_dec seg' seg) as [-> | Hne].
  - assert (E : bucket_head (mm s') seg = eof).
    { unfold bucket_head, uint_at.
      pose proof (put_head key v value s s' Hseg Hput Hv) as Hh.
      fold seg bpo eof in Hh |- *. rewrite Hh.
      apply le_combine_le_split_small.
      change (2 ^ (8 * Z.of_nat 8)) with (2 ^ 64).
      unfold PY_SSIZE_T_MAX in *. lia. }
    rewrite E. constructor.
    + fold eof in Htab. lia.
    + unfold ENTRY_HDR_SIZE. lia.
    + rewrite put_next.
      apply (chain_below (table_end s)); [lia | lia | now apply Hch].
    + rewrite put_next. apply Hframe, Hch. lia.
  - assert (E : bucket_head (mm s') seg' = bucket_head (mm s) seg').
    { unfold bucket_head, uint_at. f_equal.
      assert (0 <= _bucket_offset seg' /\
              _bucket_offset seg' + 8 <= table_end s /\
              (_bucket_offset seg' + 8 <= bpo \/ bpo + 8 <= _bucket_offset seg'))
        by (unfold table_end, bpo, _bucket_offset, HEADER_SIZE, BUCKET_SIZE; lia).
      apply put_frame; fold eof in Htab; lia. }
    rewrite E. now apply Hframe, Hch.
Qed.

End PutChains.

(** ** A new store *)

Lemma zeros_add a b : 0 <= a -> 0 <= b -> zeros (a + b) = zeros a ++ zeros b.
Proof.
  intros Ha Hb. unfold zeros. rewrite Z2Nat.inj_add by lia. apply repeat_app.
Qed.

Lemma le_combine_zeros n : le_combine (zeros n) = 0.
Proof. apply le_combine_0. Qed.

Lemma pack_header_Ret_inv ks segs bb x :
  pack_header ks segs bb = Ret x ->
  x = MAGIC ++ le_split 2 VERSION_MINOR ++ le_split 2 ks ++ le_split 4 segs
      ++ le_split 8 bb /\
  0 <= ks < 2 ^ 16 /\ 0 <= segs < 2 ^ 32 /\ 0 <= bb < 2 ^ 64.
Proof.
  unfold pack_header. intros H.
  apply obind_Ret_inv in H as (a & Ha & H).
  apply obind_Ret_inv in H as (b & Hb & H).
  apply obind_Ret_inv in H as (c & Hc & H).
  apply obind_Ret_inv in H as (d & Hd & H).
  apply pack_uint_Ret_inv in Ha as [-> _].
  apply pack_uint_Ret_inv in Hb as [-> Hb].
  apply pack_uint_Ret_inv in Hc as [-> Hc].
  apply pack_uint_Ret_inv in Hd as [-> Hd].
  injection H as <-. auto.
Qed.

Lemma len_header ks segs bb :
  len (MAGIC ++ le_split 2 VERSION_MINOR ++ le_split 2 ks ++ le_split 4 segs
       ++ le_split 8 bb) = HEADER_FMT_SIZE.
Proof. rewrite !len_app, !len_le_split. reflexivity. Qed.

Lemma create_new_inv ks segs fp s :
  _create_new ks segs fp = Ret s ->
  exists hdr,
    len hdr = HEADER_SIZE /\ 0 <= ks < 2 ^ 16 /\ 0 <= segs < 2 ^ 32 /\
    s = mkStore ks segs fp
          (hdr ++ zeros (BUCKET_SIZE * segs) ++ zeros 1)
          (Bloom.mk (sized_m fp) (sized_k fp) (zeros ((sized_m fp + 7) / 8)))
          true.
Proof.
  unfold _create_new. intros H.
  apply obind_Ret_inv in H as (hdr & Hh & H).
  apply obind_Ret_inv in H as (b & Hb & H).
  injection H as <-.
  apply pack_header_Ret_inv in Hh as (-> & Hks & Hsg & _).
  unfold Bloom.__init__ in Hb.
  destruct (_ <? 0); [discriminate|]. injection Hb as <-.
  eexists. split; [|split; [exact Hks | split; [exact Hsg | reflexivity]]].
  unfold ljust. rewrite len_app, len_header, len_zeros. reflexivity.
Qed.

Lemma create_new_chains_ok ks segs fp s :
  _create_new ks segs fp = Ret s -> chains_ok s.
Proof.
  intros H. apply create_new_inv in H as (hdr & Hl & _ & Hsg & ->).
  unfold chains_ok, table_end. cbn [segments mm].
  unfold HEADER_SIZE, BUCKET_SIZE, PY_SSIZE_T_MAX in *.
  split; [lia|]. split.
  - rewrite !len_app, !len_zeros. lia.
  - intros seg Hseg.
    assert (E : bucket_head (hdr ++ zeros (8 * segs) ++ zeros 1) seg = 0).
    { unfold bucket_head, uint_at, _bucket_offset, HEADER_SIZE, BUCKET_SIZE.
      rewrite <- (le_combine_zeros 8). f_equal.
      apply slice_mid with (pre := hdr ++ zeros (seg * 8))
                           (post := zeros (8 * segs - seg * 8 - 8) ++ zeros 1).
      - replace (zeros (8 * segs))
          with (zeros (seg * 8) ++ zeros 8 ++ zeros (8 * segs - seg * 8 - 8))
          by (rewrite <- !zeros_add by lia; f_equal; lia).
        now rewrite <- !app_assoc.
      - rewrite len_app, len_zeros. lia.
      - rewrite len_zeros. lia. }
    rewrite E. constructor.
Qed.

Lemma init_valid file ks segs fp s :
  rate_ok fp -> __init__ file ks segs fp = Ret s -> valid s.
Proof.
  intros Hfp. destruct file as [f|]; cbn [__init__].
  - unfold _open_existing. destruct (len f =? 0); [discriminate|].
    intros H. apply obind_Ret_inv in H as (hdr & Hh & H).
    destruct (negb _); [discriminate|]. destruct (negb _); [discriminate|].
    apply obind_Ret_inv in H as (b & Hb & H). injection H as <-.
    injection Hb as <-.
    unfold HEADER_FMT_SIZE in Hh.
    apply unpack_from_Ret_inv in Hh as (-> & Hin & _); [|lia|lia].
    split; cbn [segments bloom Bloom.m Bloom.k]; [|exact Hfp].
    apply uint_at_range; [lia | lia |]. rewrite len_slice; lia.
  - intros H. apply create_new_inv in H as (hdr & _ & _ & Hsg & ->).
    split; cbn [segments bloom Bloom.m Bloom.k]; [lia | exact Hfp].
Qed.

(** C7.  Chain termination.  A new store satisfies [chains_ok]: every
    bucket heads a chain whose offsets strictly decrease down to 0.  Every
    [put] that returns on such a store writes an entry whose [next_offset]
    (the old head, 0 for the tail) is strictly smaller than the entry's
    own offset, and keeps [chains_ok].  And on such a store the walk from
    any bucket head returns, for every key, after finitely many steps. *)
Theorem chain_termination :
  (forall ks segs fp s, __init__ None ks segs fp = Ret s -> chains_ok s) /\
  (forall s key value s',
      chains_ok s -> put key value s = (s', Ret tt) ->
      entry_next (mm s') (len (mm s))
        = bucket_head (mm s) (hash64 key mod segments s) /\
      entry_next (mm s') (len (mm s)) < len (mm s) /\
      chains_ok s') /\
  (forall s seg key,
      chains_ok s -> 0 <= seg < segments s ->
      exists n r, forall fuel, (n <= fuel)%nat ->
        walk fuel key (hash64 key) (bucket_head (mm s) seg) s = (s, Ret r)).
Proof.
  split; [|split].
  - intros ks segs fp s. apply create_new_chains_ok.
  - intros s key value s' Hok Hput.
    pose proof (put_next key value s s' Hok Hput) as Hn.
    split; [exact Hn|]. split; [|exact (put_chains_ok key value s s' Hok Hput)].
    rewrite Hn. destruct Hok as (Hseg & Htab & Hch).
    destruct (put_bloom _ _ _ _ Hseg Hput) as (_ & _ & _ & _).
    destruct (put_encoded _ _ _ _ Hseg Hput) as [v Hv].
    pose proof (put_facts key v value s s' Hseg Hput Hv) as F.
    destruct F as (_ & Hp & Hs & _).
    apply (chain_below (table_end s));
      [unfold table_end, HEADER_SIZE, BUCKET_SIZE; lia | lia | now apply Hch].
  - intros s seg key (Hseg & Htab & Hch) Hs.
    apply (walk_chain (table_end s));
      [unfold table_end, HEADER_SIZE, BUCKET_SIZE; lia | lia | now apply Hch].
Qed.

(** ** Opening an existing file *)

Lemma open_existing_inv file ks segs fp s :
  _open_existing file ks segs fp = Ret s ->
  HEADER_FMT_SIZE <= len file /\
  slice file 0 4 = MAGIC /\
  uint_at file 6 2 = ks /\
  s = mkStore ks (uint_at file 8 4) fp file
        (Bloom.mk (sized_m fp) (sized_k fp)
           (slice file (HEADER_SIZE + BUCKET_SIZE * uint_at file 8 4)
              (HEADER_SIZE + BUCKET_SIZE * uint_at file 8 4
               + uint_at file 12 8)))
        false.
Proof.
  unfold _open_existing. destruct (len file =? 0); [discriminate|].
  intros H. apply obind_Ret_inv in H as (hdr & Hh & H).
  unfold HEADER_FMT_SIZE in *. cbn [Z.add] in *.
  apply unpack_from_Ret_inv in Hh as (-> & Hin & _); [|lia|lia].
  cbn [Z.add] in *.
  assert (Hu : forall p w, 0 <= p -> 0 <= w -> p + w <= 20 ->
                 uint_at (slice file 0 20) p w = uint_at file p w).
  { intros p w Hp Hw Hpw. unfold uint_at. f_equal.
    rewrite slice_slice by lia. f_equal. }
  rewrite !Hu in H by lia.
  rewrite slice_slice in H by lia. cbn [Z.add] in H.
  destruct (bytes_eqb (slice file 0 4) MAGIC) eqn:Em; [|discriminate].
  cbn [negb] in H.
  destruct (Z.eqb_spec (uint_at file 6 2) ks) as [Ek|]; [|discriminate].
  cbn [negb] in H.
  apply obind_Ret_inv in H as (b & Hb & H). injection Hb as <-.
  injection H as <-. repeat split; try assumption.
  now apply bytes_eqb_eq.
Qed.

(** C5, as the code has it.  When an existing file is opened, the Bloom
    filter's [m] and [k] are the ones the constructor computes from the
    configured false-positive rate (with n_items = 1), whatever the file
    holds; only the byte array is taken from the file, from
    [bloom_offset] for [bloom_bits] bytes.  [m] is not set to
    [8 * len(bytes)]. *)
Theorem open_bloom_sizing : forall file ks segs fp s,
  __init__ (Some file) ks segs fp = Ret s ->
  Bloom.m (bloom s) = sized_m fp /\
  Bloom.k (bloom s) = sized_k fp /\
  Bloom.bits (bloom s)
    = slice file (table_end s) (table_end s + uint_at file 12 8).
Proof.
  intros file ks segs fp s H. cbn [__init__] in H.
  apply open_existing_inv in H as (_ & _ & _ & ->).
  repeat split.
Qed.

(** ** Concrete stores *)



Example reopened_store_init :
  __init__ (Some (mm new_store)) 8 256 fp_0_01 = Ret reopened_store.
Proof. vm_compute. reflexivity. Qed.

Example new_store_1e_16_init :
  __init__ None 8 256 fp_1e_16 = Ret new_store_1e_16.
Proof. vm_compute. reflexivity. Qed.

Example empty_file_closed : close new_store = (empty_file, Ret tt).
Proof. vm_compute. reflexivity. Qed.

(** C5, counterexample.  The file of a closed new store has two Bloom
    bytes; opened again, the filter has m = 10, not 8 * 2 = 16. *)
Lemma open_m_not_8_len :
  ~ (forall file ks segs fp s,
       __init__ (Some file) ks segs fp = Ret s ->
       Bloom.m (bloom s) = 8 * len (Bloom.bits (bloom s))).
Proof.
  intros H.
  assert (E : __init__ (Some empty_file) 8 256 fp_0_01
              = Ret (mkStore 8 256 fp_0_01 empty_file
                       (Bloom.mk 10 7 (zeros 2)) false))
    by (vm_compute; reflexivity).
  apply H in E. cbn [bloom Bloom.m Bloom.bits] in E.
  rewrite len_zeros in E. lia.
Qed.

(** C2, at the failing input.  The path of a new store is opened again
    before any flush; [put] of the key 01 00 00 00 00 00 00 00 returns,
    the byte array has grown from one byte to two and [m] from 10 to 16
    in the middle of [add], and the key is not in the filter. *)
Theorem bloom_false_negative :
  exists s1,
    put (u64key 1) hello reopened_store = (s1, Ret tt) /\
    Bloom.m (bloom s1) = 16 /\ len (Bloom.bits (bloom s1)) = 2 /\
    Bloom.__contains__ (u64key 1) (bloom s1) = (bloom s1, Ret false).
Proof.
  eexists. do 3 (apply conj; [vm_compute; reflexivity|]).
  vm_compute. reflexivity.
Qed.

(** C1, at the failing inputs.  (a) On the store opened before any flush,
    after [put(k, v)] and [flush], [get(k)] returns absent: the Bloom test
    fails.  (b) On a new store with bloom_fp = 1e-16, [get(k)] returns [v]
    after [put(k, v)], and after [flush] it raises: the ten Bloom bytes
    written at [bloom_offset] cover the entry's [next_offset] and the first
    byte of its [key_hash]. *)
Theorem round_trip_fails :
  (exists s1 s2,
     put (u64key 1) hello reopened_store = (s1, Ret tt) /\
     flush s1 = (s2, Ret tt) /\
     forall fuel, get fuel (u64key 1) s2 = (s2, Ret None)) /\
  (exists s1 s2,
     put (u64key 1) hello new_store_1e_16 = (s1, Ret tt) /\
     (forall fuel,
        get (S fuel) (u64key 1) s1 = (s1, Ret (Some (ascii_bytes "hello")))) /\
     flush s1 = (s2, Ret tt) /\
     forall fuel, get (S (S fuel)) (u64key 1) s2 = (s2, Raise OverflowError)).
Proof.
  split.
  - do 2 eexists. split; [vm_compute; reflexivity|].
    split; [vm_compute; reflexivity|].
    intros fuel. vm_compute. reflexivity.
  - do 2 eexists. split; [vm_compute; reflexivity|].
    split; [intros fuel; vm_compute; reflexivity|].
    split; [vm_compute; reflexivity|].
    intros fuel. vm_compute. reflexivity.
Qed.

(** C3, at the failing input.  On a new store, after
    [put(01 00 .. 00, b"hello")], [get] of the key 77 00 .. 00 (never put,
    same segment, Bloom positive) returns absent.  After [close] and a new
    open of the file, the same [get] raises [struct.error]: [close] wrote
    the second Bloom byte over the first byte of the entry, its
    [next_offset] is now 3, and the walk goes on into the header. *)
Theorem reopen_changes_get :
  exists s1 file s3,
    put (u64key 1) hello new_store = (s1, Ret tt) /\
    (forall fuel, get (S (S fuel)) (u64key 119) s1 = (s1, Ret None)) /\
    close s1 = (file, Ret tt) /\
    __init__ (Some file) 8 256 fp_0_01 = Ret s3 /\
    entry_next (mm s1) 2073 = 0 /\ entry_next (mm s3) 2073 = 3 /\
    forall fuel, get (S (S (S fuel))) (u64key 119) s3 = (s3, Raise StructError).
Proof.
  do 3 eexists. split; [vm_compute; reflexivity|].
  split; [intros [| fuel]; vm_compute; reflexivity|].
  split; [vm_compute; reflexivity|].
  split; [vm_compute; reflexivity|].
  split; [vm_compute; reflexivity|].
  split; [vm_compute; reflexivity|].
  intros fuel. vm_compute. reflexivity.
Qed.

(** C6, counterexample.  On the damaged file [get] of any key that passes
    the Bloom test reads the bucket head 1000 and raises [struct.error]. *)
Lemma get_raises_on_damaged_file :
  ~ (forall file key ks segs fp s,
       __init__ (Some file) ks segs fp = Ret s ->
       exists fuel r, snd (get fuel key s) = Ret r).
Proof.
  intros H.
  assert (E : __init__ (Some damaged_file) 8 256 fp_0_01
              = Ret (mkStore 8 1 fp_0_01 damaged_file
                       (Bloom.mk 10 7 [Byte.xff; Byte.xff]) false))
    by (vm_compute; reflexivity).
  destruct (H damaged_file (u64key 1) 8 256 fp_0_01 _ E) as (fuel & r & Hr).
  destruct fuel as [| fuel].
  - assert (D : snd (get 0 (u64key 1)
                       (mkStore 8 1 fp_0_01 damaged_file
                          (Bloom.mk 10 7 [Byte.xff; Byte.xff]) false))
                = Diverge) by (vm_compute; reflexivity).
    rewrite D in Hr. clear -Hr. discriminate Hr.
  - assert (D : snd (get (S fuel) (u64key 1)
                       (mkStore 8 1 fp_0_01 damaged_file
                          (Bloom.mk 10 7 [Byte.xff; Byte.xff]) false))
                = Raise StructError) by (vm_compute; reflexivity).
    rewrite D in Hr. clear -Hr. discriminate Hr.
Qed.

(** ** Chains that leave the file *)

Lemma walk_overrun fuel key h e s :
  0 < e -> len (mm s) < e + ENTRY_HDR_SIZE ->
  exists x, walk (S fuel) key h e s = (s, Raise x)
            /\ (x = StructError \/ x = OverflowError).
Proof.
  intros He Hover. cbn [walk]. destruct (Z.eqb_spec e 0); [lia|].
  unfold bind, gets, lift, id, unpack_from, buffer_at.
  destruct (Z.ltb_spec PY_SSIZE_T_MAX e); cbn [orb obind]; [eauto|].
  destruct (Z.ltb_spec e (- PY_SSIZE_T_MAX - 1)); cbn [orb obind]; [eauto|].
  destruct (Z.ltb_spec e 0); [lia|].
  destruct (Z.ltb_spec (len (mm s) - e) ENTRY_HDR_SIZE); cbn [obind];
    [eauto | lia].
Qed.

(** C6, as the code has it.  [get] checks no offset.  When the walk is at
    a non-zero offset whose 20-byte entry header is not wholly inside the
    file, be it the bucket head or a later [next_offset], it raises
    [struct.error] ([OverflowError] when the offset exceeds the largest
    [Py_ssize_t]); it does not return absent.  When the chain from the
    bucket head has every header inside the file and every link to a
    strictly smaller offset, [get] returns a stored value or absent. *)
Theorem get_chain_policy :
  (forall s key h e fuel,
      0 < e -> len (mm s) < e + ENTRY_HDR_SIZE ->
      exists x, walk (S fuel) key h e s = (s, Raise x)
                /\ (x = StructError \/ x = OverflowError)) /\
  (forall s key e fuel,
      locate key s = Ret (Some e) ->
      0 < e -> len (mm s) < e + ENTRY_HDR_SIZE ->
      exists x, get (S fuel) key s = (s, Raise x)
                /\ (x = StructError \/ x = OverflowError)) /\
  (forall s key e lo,
      locate key s = Ret (Some e) ->
      0 < lo -> len (mm s) <= PY_SSIZE_T_MAX -> chain lo (mm s) e ->
      exists n r, forall fuel, (n <= fuel)%nat -> get fuel key s = (s, Ret r)).
Proof.
  split; [|split].
  - intros s key h e fuel. apply walk_overrun.
  - intros s key e fuel Hloc He Hover. rewrite get_locate, Hloc.
    now apply walk_overrun.
  - intros s key e lo Hloc Hlo Hmax Hc.
    destruct (walk_chain lo key (hash64 key) s e Hlo Hmax Hc) as (n & r & Hw).
    exists n, r. intros fuel Hf. rewrite get_locate, Hloc. now apply Hw.
Qed.

(** ** [put] returns *)

Lemma add_returns key b :
  (0 < Bloom.k b -> 0 < Bloom.m b) ->
  exists b', Bloom.add key b = (b', Ret tt).
Proof.
  intros Hok. unfold Bloom.add. destruct (Bloom.digest128 key) as [h1 h2].
  destruct (Z.le_gt_cases (Bloom.k b) 0) as [Hk | Hk].
  - replace (Z.to_nat (Bloom.k b)) with 0%nat by lia. now exists b.
  - destruct (add_loop_total h1 h2 (Z.to_nat (Bloom.k b)) 0 b (Hok Hk))
      as (b' & E & _). eauto.
Qed.

Lemma pack_uint_Ret w v :
  0 <= v < 2 ^ (8 * Z.of_nat w) -> pack_uint w v = Ret (le_split w v).
Proof.
  intros H. unfold pack_uint.
  destruct (Z.leb_spec 0 v); [|lia].
  destruct (Z.ltb_spec v (2 ^ (8 * Z.of_nat w))); [reflexivity | lia].
Qed.

Lemma on_mm_Ret f s x : f (mm s) = Ret x -> on_mm f s = (set_mm x s, Ret tt).
Proof. unfold on_mm. now intros ->. Qed.

Lemma mmap_resize_Ret x n :
  len x <= n <= PY_SSIZE_T_MAX ->
  mmap_resize x n = Ret (x ++ zeros (n - len x)).
Proof.
  intros H. pose proof (len_nonneg x). unfold mmap_resize.
  destruct (Z.ltb_spec PY_SSIZE_T_MAX n); [lia|].
  destruct (Z.ltb_spec n 0); [lia|].
  rewrite firstn_all2 by (unfold len in *; lia). reflexivity.
Qed.

(** On a store whose bucket table is inside the file, [put] of a key of
    the right length returns, provided the value length fits the 4-byte
    field and the file stays within [Py_ssize_t]. *)
Lemma put_returns key value v s :
  valid s -> 0 < segments s ->
  table_end s <= len (mm s) ->
  len key = key_size s ->
  encoded value = Ret v ->
  len v < 2 ^ 32 ->
  len (mm s) + ENTRY_HDR_SIZE + len key + len v <= PY_SSIZE_T_MAX ->
  exists s', put key value s = (s', Ret tt).
Proof.
  intros [_ Hbl] Hseg Htab Hlen Hv Hv32 Hmax.
  pose proof (len_nonneg key). pose proof (len_nonneg v).
  pose proof (len_nonneg (mm s)).
  pose proof (hash64_range key) as Hh.
  pose proof (Z.mod_pos_bound (hash64 key) (segments s) Hseg) as Hs.
  set (seg := hash64 key mod segments s) in *.
  assert (Hb : 0 <= _bucket_offset seg /\ _bucket_offset seg + 8 <= len (mm s))
    by (unfold table_end, _bucket_offset, HEADER_SIZE, BUCKET_SIZE in *; lia).
  unfold ENTRY_HDR_SIZE in *.
  unfold put, bind at 1, gets at 1, id.
  apply Z.eqb_eq in Hlen. rewrite Hlen. cbn [negb].
  fold (encoded value). rewrite Hv.
  unfold bind at 1, lift at 1. unfold bind at 1, _segment_of at 1.
  destruct (Z.eqb_spec (segments s) 0); [lia|]. fold seg.
  unfold BUCKET_SIZE. rewrite unpack_from_Ret
    by (unfold PY_SSIZE_T_MAX in *; lia).
  unfold bind at 1, lift at 1.
  rewrite uint_at_whole by (rewrite len_slice; lia).
  pose proof (uint_at_range (mm s) (_bucket_offset seg) 8
                ltac:(lia) ltac:(lia) ltac:(lia)) as Hn.
  unfold uint_at in Hn. change (2 ^ (8 * 8)) with (2 ^ 64) in Hn.
  unfold pack_entry_hdr.
  rewrite !pack_uint_Ret
    by (change (2 ^ (8 * Z.of_nat 8)) with (2 ^ 64);
        change (2 ^ (8 * Z.of_nat 4)) with (2 ^ 32); lia).
  cbn [obind]. unfold bind at 1, lift at 1.
  set (entry := (_ ++ _ ++ _) ++ key ++ v).
  assert (He : len entry = 20 + len key + len v).
  { unfold entry. rewrite !len_app, !len_le_split. lia. }
  erewrite bind_Ret
    by (apply on_mm_Ret, mmap_resize_Ret; unfold PY_SSIZE_T_MAX in *; lia).
  replace (len (mm s) + len entry - len (mm s)) with (len entry) by lia.
  erewrite bind_Ret
    by (apply on_mm_Ret; cbn [mm set_mm]; apply mmap_setslice_tail).
  unfold bind at 1, lift at 1.
  rewrite pack_uint_Ret
    by (change (2 ^ (8 * Z.of_nat 8)) with (2 ^ 64);
        unfold PY_SSIZE_T_MAX in *; lia).
  erewrite bind_Ret.
  2:{ apply on_mm_Ret. cbn [mm set_mm]. unfold pack_into.
      rewrite buffer_at_Ret
        by (rewrite ?len_app, ?len_le_split; unfold PY_SSIZE_T_MAX in *;
            change (Z.of_nat 8) with 8; lia).
      reflexivity. }
  unfold bind at 1, on_bloom at 1. cbn [bloom set_mm].
  destruct (add_returns key (bloom s) Hbl) as [b' Hb']. rewrite Hb'.
  unfold modify. eauto.
Qed.

(** ** The statements at concrete stores *)


Lemma valid_new_store : valid new_store.
Proof. split; cbn; lia. Qed.

Lemma put_v1 : put KEY (PyBytes (ascii_bytes "v1")) new_store = (store_v1, Ret tt).
Proof. vm_compute. reflexivity. Qed.

Lemma put_v2 : put KEY (PyBytes (ascii_bytes "v2")) store_v1 = (store_v2, Ret tt).
Proof. vm_compute. reflexivity. Qed.

(** S2: after [put(k, b"v1"); put(k, b"v2")] on a new store, [get(k)] is
    [b"v2"]. *)
Lemma lifo_shadowing_witness :
  get 1 KEY store_v2 = (store_v2, Ret (Some (ascii_bytes "v2"))).
Proof.
  apply (lifo_shadowing new_store KEY (PyBytes (ascii_bytes "v1"))
           (ascii_bytes "v2") store_v1 store_v2 0%nat).
  - split; cbn; lia.
  - vm_compute. reflexivity.
  - vm_compute. reflexivity.
Defined.

(** S5: [put(b"short", b"x")] on a new store with key_size = 8. *)
Lemma put_wrong_length_atomic_witness :
  len short_key <> key_size new_store /\
  put short_key (PyBytes (ascii_bytes "x")) new_store
  = (new_store, Raise KeyLengthMismatch).
Proof.
  assert (H : len short_key <> key_size new_store)
    by (vm_compute; intros E; discriminate E).
  split; [exact H|].
  exact (put_wrong_length_atomic short_key (PyBytes (ascii_bytes "x"))
           new_store H).
Defined.

Lemma put_key_length_mismatch_witness :
  snd (put short_key (PyBytes (ascii_bytes "x")) new_store)
    = Raise KeyLengthMismatch /\
  put KEY (PyBytes (ascii_bytes "v1"))
      (fst (put short_key (PyBytes (ascii_bytes "x")) new_store))
    = put KEY (PyBytes (ascii_bytes "v1")) new_store /\
  get 1 KEY (fst (put short_key (PyBytes (ascii_bytes "x")) new_store))
    = get 1 KEY new_store.
Proof.
  assert (H : len short_key <> key_size new_store)
    by (vm_compute; intros E; discriminate E).
  destruct (put_key_length_mismatch short_key (PyBytes (ascii_bytes "x"))
              new_store) as [Hiff Hafter].
  split; [apply Hiff; exact H|].
  destruct (Hafter H 1%nat KEY (PyBytes (ascii_bytes "v1"))) as [Hg Hp].
  split; [exact Hp | exact Hg].
Defined.

(** S5, continued: after the failed [put] the store takes a [put] and
    answers the [get]. *)
Example wrong_length_then_put_get :
  exists s1,
    put KEY (PyBytes (ascii_bytes "v1"))
        (fst (put short_key (PyBytes (ascii_bytes "x")) new_store))
      = (s1, Ret tt) /\
    get 1 KEY s1 = (s1, Ret (Some (ascii_bytes "v1"))).
Proof.
  eexists. split; [vm_compute; reflexivity|]. vm_compute. reflexivity.
Qed.

Lemma chain_termination_witness :
  chains_ok new_store /\
  entry_next (mm store_v1) (len (mm new_store)) < len (mm new_store) /\
  chains_ok store_v1 /\
  exists n r, forall fuel, (n <= fuel)%nat ->
    walk fuel KEY (hash64 KEY) (bucket_head (mm store_v1) 24) store_v1
    = (store_v1, Ret r).
Proof.
  destruct chain_termination as (Hinit & Hput & Hwalk).
  assert (H0 : chains_ok new_store)
    by (apply (Hinit 8 256 fp_0_01); vm_compute; reflexivity).
  assert (E : put KEY (PyBytes (ascii_bytes "v1")) new_store
              = (store_v1, Ret tt)) by (vm_compute; reflexivity).
  destruct (Hput new_store KEY _ store_v1 H0 E) as (_ & Hlt & H1).
  split; [exact H0|]. split; [exact Hlt|]. split; [exact H1|].
  apply Hwalk; [exact H1|].
  assert (Es : segments store_v1 = 256) by (vm_compute; reflexivity).
  rewrite Es. lia.
Defined.

Lemma open_bloom_sizing_witness :
  __init__ (Some empty_file) 8 256 fp_0_01 = Ret reopened_empty /\
  Bloom.m (bloom reopened_empty) = 10 /\
  Bloom.k (bloom reopened_empty) = 7 /\
  Bloom.bits (bloom reopened_empty)
    = slice empty_file (table_end reopened_empty)
        (table_end reopened_empty + uint_at empty_file 12 8).
Proof.
  assert (E : __init__ (Some empty_file) 8 256 fp_0_01 = Ret reopened_empty)
    by (vm_compute; reflexivity).
  split; [exact E|].
  exact (open_bloom_sizing empty_file 8 256 fp_0_01 reopened_empty E).
Defined.

Lemma get_chain_policy_witness :
  (exists x, get 1 (u64key 1) damaged_store = (damaged_store, Raise x)
             /\ (x = StructError \/ x = OverflowError)) /\
  (exists n r, forall fuel, (n <= fuel)%nat ->
     get fuel KEY store_v2 = (store_v2, Ret r)).
Proof.
  destruct get_chain_policy as (_ & Hover & Hchain).
  split.
  - apply (Hover damaged_store (u64key 1) 1000 0%nat).
    + vm_compute. reflexivity.
    + lia.
    + vm_compute. reflexivity.
  - destruct chain_termination as (Hinit & Hput & _).
    assert (H0 : chains_ok new_store)
      by (apply (Hinit 8 256 fp_0_01); vm_compute; reflexivity).
    destruct (Hput new_store KEY _ store_v1 H0 put_v1) as (_ & _ & H1).
    destruct (Hput store_v1 KEY _ store_v2 H1 put_v2) as (_ & _ & H2).
    destruct H2 as (Hs & Ht & Hc).
    apply (Hchain store_v2 KEY 2103 (table_end store_v2)).
    + vm_compute. reflexivity.
    + vm_compute. reflexivity.
    + apply Ht.
    + assert (E : 2103 = bucket_head (mm store_v2) 24)
        by (vm_compute; reflexivity).
      rewrite E. apply Hc.
      assert (Es : segments store_v2 = 256) by (vm_compute; reflexivity).
      rewrite Es. lia.
Defined.

(** ** [flush] and the entries *)

(** A piece of the file written over in place leaves every slice outside
    the piece as it was. *)
Lemma slice_overwrite (x d : bytes) lo p q :
  0 <= lo -> lo + len d <= len x ->
  0 <= p <= q -> q <= len x ->
  q <= lo \/ lo + len d <= p ->
  slice (firstn (Z.to_nat lo) x ++ d ++ skipn (Z.to_nat (lo + len d)) x) p q
  = slice x p q.
Proof.
  intros Hlo Hin Hpq Hq Hout. pose proof (len_nonneg d) as Hd.
  pose proof (slice_decomp x lo (lo + len d) ltac:(lia) Hin) as Hdec.
  pose proof (len_firstn lo x ltac:(lia)) as Lb.
  pose proof (len_skipn (lo + len d) x ltac:(lia)) as La.
  pose proof (len_slice x lo (lo + len d) ltac:(lia) Hin) as Lo.
  set (before := firstn (Z.to_nat lo) x) in *.
  set (after := skipn (Z.to_nat (lo + len d)) x) in *.
  set (old := slice x lo (lo + len d)) in *.
  rewrite Hdec at 1. clear Hdec.
  destruct Hout as [Hl | Hr].
  - now rewrite !slice_app_l by lia.
  - rewrite (app_assoc before d), (app_assoc before old).
    rewrite !(slice_app_r (before ++ _)) by (rewrite ?len_app; lia).
    rewrite !len_app. now replace (len before + len old)
      with (len before + len d) by lia.
Qed.

Lemma len_overwrite (x d : bytes) lo :
  0 <= lo -> lo + len d <= len x ->
  len (firstn (Z.to_nat lo) x ++ d ++ skipn (Z.to_nat (lo + len d)) x)
  = len x.
Proof.
  intros Hlo Hin. pose proof (len_nonneg d).
  rewrite !len_app, len_firstn, len_skipn by lia. lia.
Qed.

Lemma mmap_setslice_Ret (x d : bytes) lo :
  0 <= lo -> lo + len d <= len x ->
  mmap_setslice x lo (lo + len d) d
  = Ret (firstn (Z.to_nat lo) x ++ d ++ skipn (Z.to_nat (lo + len d)) x).
Proof.
  intros Hlo Hin. pose proof (len_nonneg d). unfold mmap_setslice.
  rewrite !adjust_in by lia.
  replace (Z.max 0 (lo + len d - lo)) with (len d) by lia.
  now rewrite Z.eqb_refl.
Qed.

(** [flush] on a dirty store whose file already covers the Bloom bytes:
    it returns, keeps the Bloom filter and the sizes, and changes the file
    only in the 20 header bytes and in the [len(bits)] bytes at
    [bloom_offset]. *)
Lemma flush_frame s :
  _header_dirty s = true ->
  0 <= segments s < 2 ^ 32 -> 0 <= key_size s < 2 ^ 16 ->
  table_end s + len (Bloom.bits (bloom s)) <= len (mm s) ->
  len (mm s) <= PY_SSIZE_T_MAX ->
  exists x,
    flush s = (mkStore (key_size s) (segments s) (bloom_fp s) x (bloom s) false,
               Ret tt) /\
    len x = len (mm s) /\
    forall p q, HEADER_FMT_SIZE <= p <= q -> q <= len (mm s) ->
      q <= table_end s \/ table_end s + len (Bloom.bits (bloom s)) <= p ->
      slice x p q = slice (mm s) p q.
Proof.
  intros Hd Hsg Hks Hin Hmax.
  pose proof (len_nonneg (Bloom.bits (bloom s))) as Hb.
  assert (Ht : 24 <= table_end s)
    by (unfold table_end, HEADER_SIZE, BUCKET_SIZE; lia).
  unfold flush, bind at 1, gets at 1, id. rewrite Hd. fold (table_end s).
  destruct (Z.ltb_spec (len (mm s))
              (table_end s + len (Bloom.bits (bloom s)))); [lia|].
  unfold bind at 1, ret at 1.
  erewrite bind_Ret by (apply on_mm_Ret, mmap_setslice_Ret; lia).
  set (x1 := firstn _ (mm s) ++ _ ++ skipn _ (mm s)).
  assert (L1 : len x1 = len (mm s)) by (apply len_overwrite; lia).
  unfold bind at 1, lift at 1. unfold pack_header.
  rewrite !pack_uint_Ret
    by (change (2 ^ (8 * Z.of_nat 8)) with (2 ^ 64);
        change (2 ^ (8 * Z.of_nat 4)) with (2 ^ 32);
        change (2 ^ (8 * Z.of_nat 2)) with (2 ^ 16);
        unfold VERSION_MINOR, PY_SSIZE_T_MAX in *; lia).
  cbn [obind].
  set (hdr := MAGIC ++ _).
  assert (Lh : len hdr = 20) by (apply len_header).
  erewrite bind_Ret.
  2:{ apply on_mm_Ret. cbn [mm set_mm].
      replace (len hdr) with (0 + len hdr) by lia.
      apply mmap_setslice_Ret; lia. }
  unfold modify, set_header_dirty, set_mm.
  cbn [key_size segments bloom_fp mm bloom _header_dirty].
  eexists. split; [reflexivity|]. split.
  - rewrite len_overwrite; lia.
  - intros p q Hpq Hq Hout. unfold HEADER_FMT_SIZE in Hpq.
    rewrite slice_overwrite by lia.
    unfold x1. apply slice_overwrite; lia.
Qed.

(** [get] finds the entry at [e] when the Bloom test passes, the bucket
    slot of the key holds [e], and the entry at [e] carries the key. *)
Lemma get_found t key v e nxt fuel :
  snd (Bloom.__contains__ key (bloom t)) = Ret true ->
  0 < segments t ->
  _bucket_offset (hash64 key mod segments t) + 8 <= len (mm t) ->
  len (mm t) <= PY_SSIZE_T_MAX ->
  slice (mm t) (_bucket_offset (hash64 key mod segments t))
        (_bucket_offset (hash64 key mod segments t) + 8) = le_split 8 e ->
  0 < e -> e + 20 <= len (mm t) ->
  slice (mm t) e (e + 20)
    = le_split 8 nxt ++ le_split 8 (hash64 key) ++ le_split 4 (len v) ->
  len v < 2 ^ 32 ->
  slice (mm t) (e + 20) (e + 20 + key_size t) = key ->
  slice (mm t) (e + 20 + key_size t) (e + 20 + key_size t + len v) = v ->
  get (S fuel) key t = (t, Ret (Some v)).
Proof.
  intros Hb Hseg Hslot Hmax Hhead He Hin Hhdr Hv32 Hkey Hval.
  pose proof (Z.mod_pos_bound (hash64 key) (segments t) Hseg) as Hs.
  pose proof (hash64_range key) as Hh. pose proof (len_nonneg v).
  set (bpo := _bucket_offset (hash64 key mod segments t)) in *.
  assert (Hbpo : 24 <= bpo)
    by (unfold bpo, _bucket_offset, HEADER_SIZE, BUCKET_SIZE; lia).
  rewrite get_locate. unfold locate. rewrite Hb.
  destruct (Z.eqb_spec (segments t) 0); [lia|].
  fold bpo. unfold BUCKET_SIZE.
  rewrite unpack_from_Ret by lia. cbn [obind].
  rewrite Hhead, uint_at_whole by now rewrite len_le_split.
  rewrite le_combine_le_split_small
    by (change (2 ^ (8 * Z.of_nat 8)) with (2 ^ 64);
        unfold PY_SSIZE_T_MAX in *; lia).
  cbn [walk]. destruct (Z.eqb_spec e 0); [lia|].
  unfold bind at 1, gets at 1, id. unfold bind at 1, lift at 1.
  unfold ENTRY_HDR_SIZE. cbn [Z.add Pos.add Pos.succ].
  rewrite unpack_from_Ret by lia. rewrite Hhdr, Hkey.
  assert (E1 : uint_at (le_split 8 nxt ++ le_split 8 (hash64 key)
                        ++ le_split 4 (len v)) 8 8 = hash64 key).
  { unfold uint_at.
    erewrite slice_mid with (pre := le_split 8 nxt)
                            (post := le_split 4 (len v));
      [| reflexivity | now rewrite len_le_split | now rewrite len_le_split].
    apply le_combine_le_split_small. exact Hh. }
  assert (E2 : uint_at (le_split 8 nxt ++ le_split 8 (hash64 key)
                        ++ le_split 4 (len v)) 16 4 = len v).
  { unfold uint_at.
    erewrite slice_mid
      with (pre := le_split 8 nxt ++ le_split 8 (hash64 key)) (post := []);
      [| now rewrite <- app_assoc, app_nil_r
       | now rewrite len_app, !len_le_split
       | now rewrite len_le_split ].
    apply le_combine_le_split_small.
    change (2 ^ (8 * Z.of_nat 4)) with (2 ^ 32). lia. }
  rewrite E1, E2, Z.eqb_refl, bytes_eqb_refl. cbn [andb].
  unfold ret. now rewrite Hval.
Qed.

(** The round trip where it holds: when the Bloom bytes that [flush]
    writes at [bloom_offset] end before the entry [put] has appended, and
    the key passes the Bloom test after the [add], [get] after [put] and
    [flush] returns the value. *)
Lemma round_trip_reserved s key v s1 fuel :
  valid s -> 0 <= key_size s < 2 ^ 16 -> segments s < 2 ^ 32 ->
  put key (PyBytes v) s = (s1, Ret tt) ->
  table_end s + len (Bloom.bits (bloom s1)) <= len (mm s) ->
  snd (Bloom.__contains__ key (bloom s1)) = Ret true ->
  exists s2, flush s1 = (s2, Ret tt) /\
             get (S fuel) key s2 = (s2, Ret (Some v)).
Proof.
  intros [Hseg _] Hks Hsg32 Hput Hres Hb.
  pose proof (put_facts key v (PyBytes v) s s1 Hseg Hput eq_refl) as F.
  destruct F as (Hl & Hp & Hs & H1 & H2 & Hn & Hv32 & Hmax & _ & Eks & Esg
                 & _ & Hd & _).
  pose proof (len_mm_after_put key v (PyBytes v) s s1 Hseg Hput eq_refl) as Hlen.
  pose proof (put_head key v (PyBytes v) s s1 Hseg Hput eq_refl) as Hhead.
  pose proof (put_entry_hdr key v (PyBytes v) s s1 Hseg Hput eq_refl) as Hhdr.
  pose proof (put_entry_key key v (PyBytes v) s s1 Hseg Hput eq_refl) as Hkey.
  pose proof (put_entry_value key v (PyBytes v) s s1 Hseg Hput eq_refl) as Hval.
  pose proof (len_nonneg key). pose proof (len_nonneg v).
  pose proof (len_nonneg (Bloom.bits (bloom s1))).
  set (bpo := _bucket_offset (hash64 key mod segments s)) in *.
  set (eof := len (mm s)) in *.
  assert (Ete : table_end s1 = table_end s)
    by (unfold table_end; now rewrite Esg).
  assert (Hb8 : bpo + 8 <= table_end s)
    by (unfold table_end, bpo, _bucket_offset, HEADER_SIZE, BUCKET_SIZE; lia).
  unfold ENTRY_HDR_SIZE, HEADER_SIZE in *. cbn [Z.add Pos.add Pos.succ] in *.
  destruct (flush_frame s1 Hd) as (x & Hf & Lx & Hframe);
    [lia | lia | rewrite Ete; lia | lia |].
  rewrite Ete in Hframe. unfold HEADER_FMT_SIZE in Hframe.
  eexists. split; [exact Hf|].
  apply get_found with (e := eof) (nxt := bucket_head (mm s) (hash64 key mod segments s));
    cbn [key_size segments bloom_fp mm bloom _header_dirty];
    rewrite ?Esg, ?Lx; fold bpo; try lia; try assumption.
  - rewrite Hframe by lia. exact Hhead.
  - rewrite Hframe by lia. exact Hhdr.
  - rewrite Hframe by lia. exact Hkey.
  - rewrite Hframe by lia. exact Hval.
Qed.

(** No false negative where nothing grows: when the byte array covers all
    [m] bits, [add] keeps [m] and the array length, and the key is in the
    filter afterwards. *)
Lemma add_contains_covered key b :
  0 < Bloom.m b <= 8 * len (Bloom.bits b) ->
  exists b',
    Bloom.add key b = (b', Ret tt) /\
    Bloom.m b' = Bloom.m b /\
    len (Bloom.bits b') = len (Bloom.bits b) /\
    Bloom.__contains__ key b' = (b', Ret true).
Proof.
  intros Hm. unfold Bloom.add, Bloom.__contains__.
  destruct (Bloom.digest128 key) as [h1 h2].
  destruct (add_loop_fits h1 h2 (Z.to_nat (Bloom.k b)) 0 b)
    as (b' & E & Hm' & Hk' & Hl' & Hset & _); [lia | |].
  { intros j Hj.
    pose proof (hash_bit_range h1 h2 (Bloom.m b) j ltac:(lia)).
    apply Z.div_lt_upper_bound; lia. }
  exists b'. repeat split; try assumption.
  apply contains_loop_true; [lia|]. rewrite Hk', Hm'. exact Hset.
Qed.

(** ** compression.py: [delta_encode] *)

Lemma varint_negative fuel : forall d, d < 0 -> varint fuel d = Diverge.
Proof.
  induction fuel as [| fuel IH]; intros d Hd; cbn [varint]; [reflexivity|].
  assert (Hs : Z.shiftr d 7 < 0) by (apply Z.shiftr_neg; lia).
  destruct (Z.eqb_spec (Z.shiftr d 7) 0); [lia|]. cbn [negb].
  now rewrite IH.
Qed.




Lemma lor_128 x : 0 <= x < 128 -> Z.lor x 128 = x + 128.
Proof.
  intros Hx. rewrite <- (Z.add_lor_land x 128).
  assert (E : Z.land x 128 = 0).
  { rewrite <- (Z.mod_small x (2 ^ 7)) by (change (2 ^ 7) with 128; lia).
    rewrite <- Z.land_ones by lia. rewrite <- Z.land_assoc. cbn.
    apply Z.land_0_r. }
  rewrite E. lia.
Qed.

(** Reading back the bytes of one delta. *)
Lemma decode_varint fuel : forall d bs prev acc shift rest,
  0 <= d -> 0 <= shift -> varint fuel d = Ret bs ->
  delta_decode prev acc shift (bs ++ rest)
  = (prev + (acc + d * 2 ^ shift))
      :: delta_decode (prev + (acc + d * 2 ^ shift)) 0 0 rest.
Proof.
  induction fuel as [| fuel IH]; intros d bs prev acc shift rest Hd Hs;
    cbn [varint]; [discriminate|].
  change 127 with (Z.ones 7). rewrite Z.land_ones by lia.
  rewrite Z.shiftr_div_pow2 by lia. change (2 ^ 7) with 128.
  pose proof (Z.mod_pos_bound d 128 ltac:(lia)) as Hm.
  pose proof (Z.div_mod d 128 ltac:(lia)) as Hdm.
  destruct (Z.eqb_spec (d / 128) 0) as [E0 | Hne]; cbn [negb].
  - intros [= <-]. cbn [app delta_decode].
    rewrite byte.unsigned_of_Z. unfold byte.wrap.
    rewrite (Z.mod_small (d mod 128) (2 ^ 8)) by (change (2 ^ 8) with 256; lia).
    rewrite Z.mod_mod by lia.
    destruct (Z.ltb_spec (d mod 128) 128); [|lia].
    replace (d mod 128) with d by lia. reflexivity.
  - intros H. apply obind_Ret_inv in H as (bs' & E & H). injection H as <-.
    cbn [app delta_decode].
    rewrite byte.unsigned_of_Z. unfold byte.wrap.
    rewrite lor_128 by lia.
    rewrite (Z.mod_small (d mod 128 + 128) (2 ^ 8))
      by (change (2 ^ 8) with 256; lia).
    destruct (Z.ltb_spec (d mod 128 + 128) 128); [lia|].
    replace ((d mod 128 + 128) mod 128) with (d mod 128)
      by (replace (d mod 128 + 128) with (d mod 128 + 1 * 128) by lia;
          rewrite Z.mod_add by lia; now rewrite Z.mod_mod by lia).
    rewrite (IH (d / 128) bs' prev _ (shift + 7) rest
               ltac:(apply Z.div_pos; lia) ltac:(lia) E).
    rewrite Z.pow_add_r by lia. change (2 ^ 7) with 128.
    replace (acc + d mod 128 * 2 ^ shift + d / 128 * (2 ^ shift * 128))
      with (acc + d * 2 ^ shift) by nia.
    reflexivity.
Qed.

Lemma delta_loop_decode fuel l : forall prev bs,
  delta_loop fuel prev l = Ret bs ->
  ascending prev l /\ delta_decode prev 0 0 bs = l.
Proof.
  induction l as [| n l IH]; intros prev bs; cbn [delta_loop].
  - intros [= <-]. split; constructor.
  - cbv zeta. intros H. apply obind_Ret_inv in H as (a & Ea & H).
    apply obind_Ret_inv in H as (b & Eb & H). injection H as <-.
    destruct (Z.lt_ge_cases (n - prev) 0) as [Hneg | Hpos].
    { rewrite varint_negative in Ea by assumption. discriminate Ea. }
    destruct (IH n b Eb) as [Hasc Hdec].
    split; [split; [lia | exact Hasc]|].
    rewrite (decode_varint fuel (n - prev) a prev 0 0 b Hpos ltac:(lia) Ea).
    replace (prev + (0 + (n - prev) * 2 ^ 0)) with n by (cbn; lia).
    now rewrite Hdec.
Qed.




(** X2.  The encoding loses nothing: two lists on which [delta_encode]
    returns the same bytes are the same list. *)
Theorem delta_encode_injective : forall fuel1 fuel2 l1 l2 bs,
  delta_encode fuel1 l1 = Ret bs ->
  delta_encode fuel2 l2 = Ret bs ->
  l1 = l2.
Proof.
  intros fuel1 fuel2 l1 l2 bs H1 H2.
  apply delta_loop_decode in H1 as [_ <-].
  apply delta_loop_decode in H2 as [_ <-]. reflexivity.
Qed.

Lemma varint_len k : forall fuel d bs,
  0 <= d < 2 ^ (7 * (Z.of_nat k + 1)) -> varint fuel d = Ret bs ->
  1 <= len bs <= Z.of_nat k + 1.
Proof.
  induction k as [| k IH]; intros fuel d bs Hd;
    (destruct fuel as [| fuel]; [discriminate|]); cbn [varint];
    rewrite Z.shiftr_div_pow2 by lia; change (2 ^ 7) with 128.
  - change (2 ^ (7 * (Z.of_nat 0 + 1))) with 128 in Hd.
    rewrite Z.div_small by lia. cbn [Z.eqb negb].
    intros [= <-]. cbn. lia.
  - destruct (Z.eqb_spec (d / 128) 0); cbn [negb].
    + intros [= <-]. cbn. lia.
    + intros H. apply obind_Ret_inv in H as (bs' & E & H). injection H as <-.
      apply IH in E.
      * unfold len in *. cbn [length]. lia.
      * split; [apply Z.div_pos; lia|].
        apply Z.div_lt_upper_bound; [lia|].
        replace (7 * (Z.of_nat (S k) + 1)) with (7 + 7 * (Z.of_nat k + 1)) in Hd
          by lia.
        rewrite Z.pow_add_r in Hd by lia. change (2 ^ 7) with 128 in Hd. lia.
Qed.

(** X3.  Size of the encoding: at least one byte for each integer, and
    when every step up is below [2 ^ (7 * n)] at most [n] bytes for each;
    so integers less than 128 apart take exactly one byte each. *)
Theorem delta_encode_length : forall k fuel l bs,
  delta_encode fuel l = Ret bs ->
  gaps_below (2 ^ (7 * (Z.of_nat k + 1))) 0 l ->
  len l <= len bs <= (Z.of_nat k + 1) * len l.
Proof.
  intros k fuel l. unfold delta_encode. generalize 0 as prev.
  induction l as [| n l IH]; intros prev bs; cbn [delta_loop gaps_below].
  - intros [= <-] _. cbn. lia.
  - cbv zeta. intros H [Hgap Hgaps].
    apply obind_Ret_inv in H as (a & Ea & H).
    apply obind_Ret_inv in H as (b & Eb & H). injection H as <-.
    destruct (Z.lt_ge_cases (n - prev) 0) as [Hneg | Hpos].
    { rewrite varint_negative in Ea by assumption. discriminate Ea. }
    pose proof (varint_len k fuel (n - prev) a ltac:(lia) Ea) as Ha.
    pose proof (IH n b Eb Hgaps) as Hb.
    rewrite len_app. unfold len in *. cbn [length]. nia.
Qed.

Lemma delta_encode_injective_witness :
  delta_encode 4 [3; 300; 300; 70000]
    = Ret [Byte.x03; Byte.xa9; Byte.x02; Byte.x00; Byte.xc4; Byte.xa0; Byte.x04]
  /\ [3; 300; 300; 70000] = [3; 300; 300; 70000].
Proof.
  assert (E : delta_encode 4 [3; 300; 300; 70000]
              = Ret [Byte.x03; Byte.xa9; Byte.x02; Byte.x00; Byte.xc4;
                     Byte.xa0; Byte.x04]) by (vm_compute; reflexivity).
  split; [exact E|].
  exact (delta_encode_injective 4 4 _ _ _ E E).
Defined.


Lemma delta_encode_length_witness :
  len [3; 300; 300; 70000]
  <= len [Byte.x03; Byte.xa9; Byte.x02; Byte.x00; Byte.xc4; Byte.xa0; Byte.x04]
  <= (Z.of_nat 2 + 1) * len [3; 300; 300; 70000].
Proof.
  apply (delta_encode_length 2 4 [3; 300; 300; 70000]).
  - vm_compute. reflexivity.
  - cbn. lia.
Defined.

(** ** The Bloom filter while nothing grows *)

Lemma covered_fits h1 h2 b j :
  0 < Bloom.m b <= 8 * len (Bloom.bits b) ->
  0 <= hash_bit h1 h2 (Bloom.m b) j / 8 < len (Bloom.bits b).
Proof.
  intros Hm. pose proof (hash_bit_range h1 h2 (Bloom.m b) j ltac:(lia)).
  split; [apply Z.div_pos; lia | apply Z.div_lt_upper_bound; lia].
Qed.

(** The membership test returns, and it returns true exactly when every
    bit of the key is set. *)
Lemma contains_loop_covered h1 h2 n : forall i b,
  0 < Bloom.m b <= 8 * len (Bloom.bits b) ->
  exists r, Bloom.contains_loop h1 h2 i n b = (b, Ret r) /\
            (r = true <->
             forall j, i <= j < i + Z.of_nat n ->
               bit_set (Bloom.bits b) (hash_bit h1 h2 (Bloom.m b) j)).
Proof.
  induction n as [| n IH]; intros i b Hm; cbn [Bloom.contains_loop].
  - exists true. split; [reflexivity|]. split; [intros _ j Hj; lia | reflexivity].
  - rewrite (bind_Ret _ _ _ _ _ (hashes_next_Ret h1 h2 i b ltac:(lia))).
    pose proof (covered_fits h1 h2 b i Hm) as Hq.
    set (bit := hash_bit h1 h2 (Bloom.m b) i) in *.
    destruct (nth_error (Bloom.bits b) (Z.to_nat (bit / 8))) as [x|] eqn:Ex.
    2:{ apply nth_error_None in Ex. unfold len in *. lia. }
    assert (Eg : Bloom.getitem (bit / 8) b = (b, Ret x)).
    { unfold Bloom.getitem. rewrite item_index_in by lia. now rewrite Ex. }
    rewrite (bind_Ret _ _ _ _ _ Eg). fold (mask bit).
    destruct (Z.eqb_spec (Z.land (byte.unsigned x) (mask bit)) 0) as [E0 | Hne].
    + exists false. split; [reflexivity|]. split; [discriminate|].
      intros H. specialize (H i ltac:(lia)). fold bit in H.
      unfold bit_set in H. rewrite Ex in H. contradiction.
    + destruct (IH (i + 1) b Hm) as (r & Er & Hr).
      exists r. split; [exact Er|]. rewrite Hr. split.
      * intros H j Hj. destruct (Z.eq_dec j i) as [-> | Hji].
        -- fold bit. unfold bit_set. now rewrite Ex.
        -- apply H. lia.
      * intros H j Hj. apply H. lia.
Qed.

Lemma contains_covered key b :
  covered b -> exists r, Bloom.__contains__ key b = (b, Ret r).
Proof.
  intros [Hk | Hm]; unfold Bloom.__contains__;
    destruct (Bloom.digest128 key) as [h1 h2].
  - replace (Z.to_nat (Bloom.k b)) with 0%nat by lia. now exists true.
  - destruct (contains_loop_covered h1 h2 (Z.to_nat (Bloom.k b)) 0 b Hm)
      as (r & E & _). eauto.
Qed.

(** [add] on a covered filter: it returns, the filter stays covered, the
    key added is in it, and so is every key that was. *)
Lemma add_covered key b :
  covered b ->
  exists b',
    Bloom.add key b = (b', Ret tt) /\ covered b' /\
    snd (Bloom.__contains__ key b') = Ret true /\
    forall key0, snd (Bloom.__contains__ key0 b) = Ret true ->
                 snd (Bloom.__contains__ key0 b') = Ret true.
Proof.
  intros [Hk | Hm].
  - exists b. unfold Bloom.add, Bloom.__contains__, covered.
    destruct (Bloom.digest128 key) as [h1 h2].
    replace (Z.to_nat (Bloom.k b)) with 0%nat by lia.
    repeat split; auto.
  - unfold Bloom.add. destruct (Bloom.digest128 key) as [h1 h2] eqn:Ed.
    destruct (add_loop_fits h1 h2 (Z.to_nat (Bloom.k b)) 0 b)
      as (b' & E & Hm' & Hk' & Hl' & Hset & Hkeep); [lia | |].
    { intros j _. apply covered_fits. exact Hm. }
    exists b'. split; [exact E|]. split; [right; lia|]. split.
    + unfold Bloom.__contains__. rewrite Ed.
      rewrite contains_loop_true; [reflexivity | lia |].
      rewrite Hk', Hm'. exact Hset.
    + intros key0. unfold Bloom.__contains__.
      destruct (Bloom.digest128 key0) as [g1 g2].
      destruct (contains_loop_covered g1 g2 (Z.to_nat (Bloom.k b)) 0 b Hm)
        as (r & Er & Hr).
      rewrite Er. cbn [snd]. intros [= ->].
      rewrite contains_loop_true; [reflexivity | lia |].
      rewrite Hk', Hm'. intros j Hj. apply Hkeep. now apply Hr.
Qed.

(** ** The store as a map *)

(** The three fields of a packed entry header. *)
Lemma entry_hdr_fields nxt h sz :
  0 <= nxt < 2 ^ 64 -> 0 <= h < 2 ^ 64 -> 0 <= sz < 2 ^ 32 ->
  let hdr := le_split 8 nxt ++ le_split 8 h ++ le_split 4 sz in
  uint_at hdr 0 8 = nxt /\ uint_at hdr 8 8 = h /\ uint_at hdr 16 4 = sz.
Proof.
  intros Hn Hh Hs hdr. unfold uint_at, hdr. repeat split.
  - erewrite slice_mid with (pre := [])
      (post := le_split 8 h ++ le_split 4 sz);
      [| reflexivity | reflexivity | now rewrite len_le_split].
    now apply le_combine_le_split_small.
  - erewrite slice_mid with (pre := le_split 8 nxt) (post := le_split 4 sz);
      [| reflexivity | now rewrite len_le_split | now rewrite len_le_split].
    now apply le_combine_le_split_small.
  - erewrite slice_mid
      with (pre := le_split 8 nxt ++ le_split 8 h) (post := []);
      [| now rewrite <- app_assoc, app_nil_r
       | now rewrite len_app, !len_le_split
       | now rewrite len_le_split ].
    now apply le_combine_le_split_small.
Qed.

Lemma lookup_In key h v : lookup key h = Some v -> In (key, v) h.
Proof.
  induction h as [| [k w] h IH]; cbn [lookup]; [discriminate|].
  destruct (bytes_eqb k key) eqn:E.
  - intros [= ->]. apply bytes_eqb_eq in E. subst k. now left.
  - intros H. right. now apply IH.
Qed.

Lemma lookup_in_segment key segs h :
  lookup key (in_segment segs (hash64 key mod segs) h) = lookup key h.
Proof.
  unfold in_segment. induction h as [| [k w] h IH]; cbn [lookup filter fst];
    [reflexivity|].
  destruct (bytes_eqb k key) eqn:E.
  - apply bytes_eqb_eq in E. subst k.
    rewrite (Z.eqb_refl (hash64 key mod segs)). cbn [lookup].
    now rewrite bytes_eqb_refl.
  - destruct (_ =? _); [cbn [lookup]; now rewrite E|]; exact IH.
Qed.

(** The walk over a chain that holds [kvs] finds what [lookup] finds. *)
Lemma walk_holds lo key s e kvs :
  0 < lo -> len (mm s) <= PY_SSIZE_T_MAX ->
  holds lo (key_size s) (mm s) e kvs ->
  forall fuel, (length kvs <= fuel)%nat ->
    walk fuel key (hash64 key) e s = (s, Ret (lookup key kvs)).
Proof.
  intros Hlo Hmax Hh.
  induction Hh as [| e nxt k v kvs Hle Hn Hk Hv Hin Hhdr Hkey Hval Hh IH];
    intros fuel Hf.
  - destruct fuel; reflexivity.
  - destruct fuel as [| fuel]; [cbn in Hf; lia|]. cbn [length] in Hf.
    pose proof (len_nonneg v). pose proof (len_nonneg k).
    unfold ENTRY_HDR_SIZE in *. cbn [Z.add Pos.add Pos.succ] in *.
    cbn [walk lookup]. destruct (Z.eqb_spec e 0); [lia|].
    unfold bind at 1, gets at 1, id. unfold bind at 1, lift at 1.
    unfold ENTRY_HDR_SIZE. cbn [Z.add Pos.add Pos.succ].
    rewrite unpack_from_Ret by lia. rewrite Hhdr, Hkey.
    destruct (entry_hdr_fields nxt (hash64 k) (len v)) as (E0 & E1 & E2);
      [unfold PY_SSIZE_T_MAX in *; lia | apply hash64_range | lia |].
    rewrite E0, E1, E2.
    destruct (bytes_eqb k key) eqn:E.
    + apply bytes_eqb_eq in E. rewrite <- E, Z.eqb_refl. cbn [andb].
      unfold ret. now rewrite Hval.
    + rewrite andb_false_r. apply IH. lia.
Qed.

(** A chain survives any change of the file that keeps every slice lying
    after [lo] in the old file. *)
Lemma holds_frame lo ks x y e kvs :
  0 <= lo -> 0 <= ks -> len x <= len y ->
  (forall p q, lo <= p <= q -> q <= len x -> slice y p q = slice x p q) ->
  holds lo ks x e kvs -> holds lo ks y e kvs.
Proof.
  intros Hlo Hks Hlen Hsame Hh.
  induction Hh as [| e nxt k v kvs Hle Hn Hk Hv Hin Hhdr Hkey Hval Hh IH].
  - constructor.
  - pose proof (len_nonneg v).
    apply holds_entry with (nxt := nxt); unfold ENTRY_HDR_SIZE in *;
      try lia; try assumption; rewrite Hsame by lia; assumption.
Qed.

Lemma holds_below lo ks x e kvs :
  0 < lo -> lo <= len x -> holds lo ks x e kvs -> e < len x.
Proof.
  intros H0 Hl Hh. destruct Hh; [lia|].
  pose proof (len_nonneg v). pose proof (len_nonneg k).
  unfold ENTRY_HDR_SIZE in *. lia.
Qed.

(** [put] writes the bucket slot of the key and past the old end of the
    file, and nothing else. *)
Lemma put_unchanged key value s s' p q :
  0 <= segments s -> put key value s = (s', Ret tt) ->
  0 <= p <= q -> q <= len (mm s) ->
  q <= _bucket_offset (hash64 key mod segments s)
  \/ _bucket_offset (hash64 key mod segments s) + 8 <= p ->
  slice (mm s') p q = slice (mm s) p q.
Proof.
  intros Hseg Hput Hpq Hq Hout.
  destruct (put_encoded _ _ _ _ Hseg Hput) as [v Hv].
  pose proof (put_facts key v value s s' Hseg Hput Hv) as F.
  destruct F as (_ & _ & _ & H1 & H2 & _). unfold HEADER_SIZE in H1.
  rewrite (put_mm key v value s s' Hseg Hput Hv).
  set (bpo := _bucket_offset (hash64 key mod segments s)) in *.
  set (entry := entry_bytes _ _ _ _).
  pose proof (len_nonneg entry).
  rewrite <- (slice_overwrite (mm s) (le_split 8 (len (mm s))) bpo p q)
    by (rewrite ?len_le_split; change (Z.of_nat 8) with 8; lia).
  rewrite len_le_split. change (Z.of_nat 8) with 8.
  set (x := firstn (Z.to_nat bpo) (mm s) ++ le_split 8 (len (mm s))
            ++ skipn (Z.to_nat (bpo + 8)) (mm s)).
  assert (Lx : len x = len (mm s)).
  { unfold x. replace (bpo + 8) with (bpo + len (le_split 8 (len (mm s))))
      by (rewrite len_le_split; reflexivity).
    apply len_overwrite; rewrite ?len_le_split; change (Z.of_nat 8) with 8; lia. }
  replace (firstn (Z.to_nat bpo) (mm s) ++ le_split 8 (len (mm s))
           ++ skipn (Z.to_nat (bpo + 8)) (mm s) ++ entry)
    with (x ++ entry) by (unfold x; now rewrite <- !app_assoc).
  apply slice_app_l; lia.
Qed.

Lemma new_store_heads ks segs fp s seg :
  _create_new ks segs fp = Ret s -> 0 <= seg < segs ->
  bucket_head (mm s) seg = 0.
Proof.
  intros H Hseg. apply create_new_inv in H as (hdr & Hl & _ & Hsg & ->).
  cbn [mm].
  unfold bucket_head, uint_at, _bucket_offset, HEADER_SIZE, BUCKET_SIZE in *.
  rewrite <- (le_combine_zeros 8). f_equal.
  apply slice_mid with (pre := hdr ++ zeros (seg * 8))
                       (post := zeros (8 * segs - seg * 8 - 8) ++ zeros 1).
  - replace (zeros (8 * segs))
      with (zeros (seg * 8) ++ zeros 8 ++ zeros (8 * segs - seg * 8 - 8))
      by (rewrite <- !zeros_add by lia; f_equal; lia).
    now rewrite <- !app_assoc.
  - rewrite len_app, len_zeros. lia.
  - rewrite len_zeros. lia.
Qed.

Lemma new_represents ks segs fp s :
  _create_new ks segs fp = Ret s -> rate_ok fp -> 0 < segs ->
  represents (table_end s + 1) s [].
Proof.
  intros H Hfp Hsegs.
  pose proof (fun seg => new_store_heads ks segs fp s seg H) as Hheads.
  pose proof H as H'. unfold _create_new in H'.
  apply obind_Ret_inv in H' as (hd & _ & H').
  apply obind_Ret_inv in H' as (b0 & Hb0 & _).
  apply create_new_inv in H as (hdr & Hl & Hks & Hsg & ->).
  unfold represents, table_end. cbn [segments key_size mm bloom] in *.
  unfold HEADER_SIZE, BUCKET_SIZE, PY_SSIZE_T_MAX in *.
  repeat split; try lia; try (rewrite !len_app, !len_zeros; lia).
  - intros seg Hseg. rewrite Hheads by lia. constructor.
  - unfold covered. cbn [Bloom.k Bloom.m Bloom.bits].
    destruct (Z.le_gt_cases (sized_k fp) 0) as [Hk | Hk]; [now left | right].
    specialize (Hfp Hk). rewrite len_zeros.
    pose proof (Z.div_mod (sized_m fp + 7) 8 ltac:(lia)).
    pose proof (Z.mod_pos_bound (sized_m fp + 7) 8 ltac:(lia)). lia.
  - intros k v [].
Qed.

Lemma put_represents lo key value v s s' h :
  represents lo s h -> encoded value = Ret v ->
  put key value s = (s', Ret tt) ->
  represents lo s' ((key, v) :: h).
Proof.
  intros (Hseg0 & Hks & (Hlo & Htab) & Hch & Hcov & Hbl) Hv Hput.
  assert (Hseg : 0 <= segments s) by lia.
  pose proof (put_facts key v value s s' Hseg Hput Hv) as F.
  destruct F as (Hl & _ & Hs & H1 & H2 & Hn & Hv32 & Hmax & Hadd & Eks & Esg & _).
  pose proof (len_mm_after_put key v value s s' Hseg Hput Hv) as Hlen.
  pose proof (put_head key v value s s' Hseg Hput Hv) as Hhead.
  pose proof (put_entry_hdr key v value s s' Hseg Hput Hv) as Hhdr.
  pose proof (put_entry_key key v value s s' Hseg Hput Hv) as Hkey.
  pose proof (put_entry_value key v value s s' Hseg Hput Hv) as Hval.
  pose proof (len_nonneg key). pose proof (len_nonneg v).
  set (seg := hash64 key mod segments s) in *.
  set (bpo := _bucket_offset seg) in *.
  set (eof := len (mm s)) in *.
  assert (Hte : table_end s' = table_end s)
    by (unfold table_end; now rewrite Esg).
  assert (Hb8 : bpo + 8 <= table_end s)
    by (unfold table_end, bpo, _bucket_offset, HEADER_SIZE, BUCKET_SIZE; lia).
  assert (Hpos : 24 <= table_end s)
    by (unfold table_end, HEADER_SIZE, BUCKET_SIZE; lia).
  unfold HEADER_SIZE in H1.
  assert (Hframe : forall e kvs,
             holds lo (key_size s) (mm s) e kvs ->
             holds lo (key_size s) (mm s') e kvs).
  { intros e kvs. apply holds_frame; [lia | lia | |].
    - rewrite Hlen. fold eof. unfold ENTRY_HDR_SIZE. lia.
    - intros p q Hpq Hq.
      apply (put_unchanged key value s s' p q Hseg Hput); fold seg bpo; lia. }
  unfold represents. rewrite Hte, Esg, Eks.
  split; [lia|]. split; [lia|]. split.
  { rewrite Hlen. unfold ENTRY_HDR_SIZE in *. fold eof in Htab. lia. }
  split; [|split].
  - intros seg' Hseg'. unfold in_segment. cbn [filter fst]. fold seg.
    destruct (Z.eqb_spec seg seg') as [<- | Hne].
    + assert (E : bucket_head (mm s') seg = eof).
      { unfold bucket_head, uint_at. fold bpo. rewrite Hhead.
        apply le_combine_le_split_small.
        change (2 ^ (8 * Z.of_nat 8)) with (2 ^ 64).
        unfold PY_SSIZE_T_MAX in *. fold eof in Htab. lia. }
      rewrite E.
      apply holds_entry with (nxt := bucket_head (mm s) seg);
        try rewrite <- Eks; try assumption.
      * fold eof in Htab. lia.
      * split; [lia|].
        apply (holds_below lo (key_size s) (mm s) _
                 (in_segment (segments s) seg h)); [lia | lia | now apply Hch].
      * rewrite Eks. lia.
      * rewrite Eks, Hlen, <- Hl. lia.
      * rewrite Eks. apply Hframe. now apply Hch.
    + assert (E : bucket_head (mm s') seg' = bucket_head (mm s) seg').
      { unfold bucket_head, uint_at. f_equal.
        assert (0 <= _bucket_offset seg' /\
                _bucket_offset seg' + 8 <= table_end s /\
                (_bucket_offset seg' + 8 <= bpo \/ bpo + 8 <= _bucket_offset seg'))
          by (unfold table_end, bpo, _bucket_offset, HEADER_SIZE, BUCKET_SIZE;
              lia).
        apply (put_unchanged key value s s' _ _ Hseg Hput); fold seg bpo; lia. }
      rewrite E. apply Hframe. now apply Hch.
  - destruct (add_covered key (bloom s) Hcov) as (b' & Eb & Hc' & _).
    rewrite Hadd in Eb. injection Eb as <-. exact Hc'.
  - destruct (add_covered key (bloom s) Hcov) as (b' & Eb & _ & Hnew & Hold).
    rewrite Hadd in Eb. injection Eb as <-.
    intros k w [[= <- <-] | Hin]; [exact Hnew|].
    apply Hold. now apply (Hbl k w).
Qed.

Lemma built_represents s h : built s h -> represents (table_end s + 1) s h.
Proof.
  induction 1 as [ks segs fp s H Hfp Hsegs | s h key value v s' Hb IH Hv Hput].
  - now apply (new_represents ks segs fp).
  - assert (E : table_end s' = table_end s).
    { destruct IH as (Hseg & _).
      destruct (put_bloom key value s s' ltac:(lia) Hput) as (_ & Es & _).
      unfold table_end. now rewrite Es. }
    rewrite E. now apply (put_represents _ key value v s s' h).
Qed.

Lemma in_segment_length segs seg h :
  (length (in_segment segs seg h) <= length h)%nat.
Proof.
  unfold in_segment. induction h as [| kv h IH]; cbn [filter length]; [lia|].
  destruct (_ =? _); cbn [length]; lia.
Qed.

Lemma represents_get lo s h key fuel :
  represents lo s h -> (length h <= fuel)%nat ->
  get fuel key s = (s, Ret (lookup key h)).
Proof.
  intros (Hseg0 & Hks & (Hlo & Htab) & Hch & Hcov & Hbl) Hf.
  rewrite get_locate. unfold locate.
  destruct (contains_covered key (bloom s) Hcov) as [r Er]. rewrite Er.
  cbn [snd]. destruct r.
  - destruct (Z.eqb_spec (segments s) 0); [lia|].
    pose proof (Z.mod_pos_bound (hash64 key) (segments s) Hseg0) as Hs.
    set (seg := hash64 key mod segments s) in *.
    assert (Hb : 24 <= _bucket_offset seg /\ _bucket_offset seg + 8 <= table_end s)
      by (unfold table_end, _bucket_offset, HEADER_SIZE, BUCKET_SIZE; lia).
    unfold BUCKET_SIZE. rewrite unpack_from_Ret by lia. cbn [obind].
    rewrite uint_at_whole by (rewrite len_slice; lia).
    change (le_combine (slice (mm s) _ _)) with (bucket_head (mm s) seg).
    rewrite (walk_holds lo key s _ (in_segment (segments s) seg h));
      [| lia | lia | now apply Hch
       | pose proof (in_segment_length (segments s) seg h); lia].
    unfold seg. now rewrite lookup_in_segment.
  - destruct (lookup key h) as [v|] eqn:El; [|reflexivity].
    apply lookup_In in El. pose proof (Hbl key v El) as Ht.
    rewrite Er in Ht. cbn [snd] in Ht. discriminate Ht.
Qed.

(** X4.  The store is a map.  On a store made by the constructor on a new
    path (at least one segment) and then only [put] to, [get(key)] returns
    the value of the newest [put] of that key, and absent when the key was
    never put (so absent for every key on a new store), once the loop may
    run as many turns as there were puts.  Keys that share a segment or a
    Bloom bit do not disturb each other. *)
Theorem store_is_map : forall s h key fuel,
  built s h -> (length h <= fuel)%nat ->
  get fuel key s = (s, Ret (lookup key h)).
Proof.
  intros s h key fuel Hb Hf.
  apply (represents_get (table_end s + 1)); [|exact Hf].
  now apply built_represents.
Qed.

Lemma built_store_b :
  built store_b [(u64key 119, ascii_bytes "other");
                 (u64key 1, ascii_bytes "hello")].
Proof.
  apply built_put with (s := store_a)
                       (value := PyBytes (ascii_bytes "other"));
    [| reflexivity | vm_compute; reflexivity].
  apply built_put with (s := new_store) (value := hello);
    [| reflexivity | vm_compute; reflexivity].
  apply (built_new 8 256 fp_0_01);
    [vm_compute; reflexivity | intros _; cbn; lia | lia].
Qed.

(** Key 1 is found behind key 119 in the chain of segment 51. *)
Lemma store_is_map_witness :
  get 2 (u64key 1) store_b = (store_b, Ret (Some (ascii_bytes "hello"))).
Proof.
  apply (store_is_map store_b
           [(u64key 119, ascii_bytes "other"); (u64key 1, ascii_bytes "hello")]
           (u64key 1) 2%nat).
  - exact built_store_b.
  - cbn. lia.
Defined.

(** ** More on [put] *)

(** X5.  No false negative while nothing grows.  A filter made by the
    constructor without bytes is covered (its byte array holds all [m]
    bits); on a covered filter [add] returns, keeps the filter covered,
    makes the key pass the membership test, and every key that passed
    still passes. *)
Theorem bloom_covered_no_false_negative :
  (forall fp b, rate_ok fp -> Bloom.__init__ fp None = Ret b -> covered b) /\
  (forall key b,
      covered b ->
      exists b',
        Bloom.add key b = (b', Ret tt) /\ covered b' /\
        snd (Bloom.__contains__ key b') = Ret true /\
        forall key0, snd (Bloom.__contains__ key0 b) = Ret true ->
                     snd (Bloom.__contains__ key0 b') = Ret true).
Proof.
  split.
  - intros fp b Hfp. unfold Bloom.__init__.
    destruct (Z.ltb_spec ((sized_m fp + 7) / 8) 0); [discriminate|].
    intros [= <-]. unfold covered. cbn [Bloom.k Bloom.m Bloom.bits].
    destruct (Z.le_gt_cases (sized_k fp) 0) as [Hk | Hk]; [now left | right].
    specialize (Hfp Hk). rewrite len_zeros.
    pose proof (Z.div_mod (sized_m fp + 7) 8 ltac:(lia)).
    pose proof (Z.mod_pos_bound (sized_m fp + 7) 8 ltac:(lia)). lia.
  - intros key b. apply add_covered.
Qed.

Lemma bloom_covered_no_false_negative_witness :
  covered (Bloom.mk 10 7 (zeros 2)) /\
  exists b',
    Bloom.add KEY (Bloom.mk 10 7 (zeros 2)) = (b', Ret tt) /\
    snd (Bloom.__contains__ KEY b') = Ret true.
Proof.
  destruct bloom_covered_no_false_negative as [Hnew Hadd].
  assert (Hc : covered (Bloom.mk 10 7 (zeros 2))).
  { apply (Hnew fp_0_01); [intros _; cbn; lia | vm_compute; reflexivity]. }
  split; [exact Hc|].
  destruct (Hadd KEY _ Hc) as (b' & E & _ & Hin & _). eauto.
Defined.

(** X6.  When [put] returns.  On a store with at least one segment whose
    bucket table lies inside the file, [put] of a key of [key_size] bytes
    returns, provided the value is shorter than [2 ^ 32] bytes (the 4-byte
    [value_size] field) and the longer file still has a [Py_ssize_t]
    length. *)
Theorem put_succeeds : forall key value v s,
  valid s -> 0 < segments s ->
  table_end s <= len (mm s) ->
  len key = key_size s ->
  encoded value = Ret v ->
  len v < 2 ^ 32 ->
  len (mm s) + ENTRY_HDR_SIZE + len key + len v <= PY_SSIZE_T_MAX ->
  exists s', put key value s = (s', Ret tt).
Proof. intros key value v s. apply put_returns. Qed.

Lemma put_succeeds_witness :
  exists s', put KEY hello new_store = (s', Ret tt).
Proof.
  apply (put_succeeds KEY hello (ascii_bytes "hello") new_store).
  - split; cbn; lia.
  - cbn. lia.
  - vm_compute. intros E; discriminate E.
  - vm_compute. reflexivity.
  - reflexivity.
  - vm_compute. reflexivity.
  - vm_compute. intros E; discriminate E.
Defined.

(** X7.  [put] only appends.  A [put] that returns lengthens the file by
    exactly [20 + key_size + len(value)] bytes and changes no byte of the
    old file outside the 8-byte bucket slot of the key's segment: header,
    other buckets and every entry written before stay as they were.  The
    key size, the segment count and the rate are kept, and the header is
    marked dirty. *)
Theorem put_appends : forall key value v s s',
  0 <= segments s ->
  put key value s = (s', Ret tt) ->
  encoded value = Ret v ->
  len (mm s') = len (mm s) + ENTRY_HDR_SIZE + key_size s + len v /\
  (forall p q,
      0 <= p <= q -> q <= len (mm s) ->
      q <= _bucket_offset (hash64 key mod segments s)
      \/ _bucket_offset (hash64 key mod segments s) + 8 <= p ->
      slice (mm s') p q = slice (mm s) p q) /\
  key_size s' = key_size s /\ segments s' = segments s /\
  bloom_fp s' = bloom_fp s /\ _header_dirty s' = true.
Proof.
  intros key value v s s' Hseg Hput Hv.
  pose proof (put_facts key v value s s' Hseg Hput Hv) as F.
  destruct F as (Hl & _ & _ & _ & _ & _ & _ & _ & _ & Eks & Esg & Efp & Hd & _).
  split; [|split; [|tauto]].
  - rewrite (len_mm_after_put key v value s s' Hseg Hput Hv). lia.
  - intros p q. apply (put_unchanged key value s s' p q Hseg Hput).
Qed.

Lemma put_appends_witness :
  len (mm store_v1) = len (mm new_store) + ENTRY_HDR_SIZE + key_size new_store
                      + len (ascii_bytes "v1") /\
  slice (mm store_v1) 0 24 = slice (mm new_store) 0 24.
Proof.
  destruct (put_appends KEY (PyBytes (ascii_bytes "v1")) (ascii_bytes "v1")
              new_store store_v1) as (Hlen & Hsame & _).
  - cbn. lia.
  - vm_compute. reflexivity.
  - reflexivity.
  - split; [exact Hlen|]. apply Hsame.
    + lia.
    + vm_compute. intros E; discriminate E.
    + left. vm_compute. intros E; discriminate E.
Defined.

(** X8.  A store with no segment takes nothing.  The constructor accepts
    [segments=0]; on such a store every [put] of a key of the right length
    raises [ZeroDivisionError] (from [h % self.segments]) and leaves the
    store as it was. *)
Theorem put_no_segment : forall key value v s,
  segments s = 0 -> len key = key_size s -> encoded value = Ret v ->
  put key value s = (s, Raise ZeroDivisionError).
Proof.
  intros key value v s Hs Hl Hv. unfold put, bind at 1, gets at 1, id.
  apply Z.eqb_eq in Hl. rewrite Hl. cbn [negb]. fold (encoded value).
  rewrite Hv. unfold bind at 1, lift at 1. unfold bind at 1, _segment_of.
  now rewrite Hs.
Qed.

Lemma put_no_segment_witness :
  __init__ None 8 0 fp_0_01 = Ret store_no_segment /\
  put KEY hello store_no_segment = (store_no_segment, Raise ZeroDivisionError).
Proof.
  split; [vm_compute; reflexivity|].
  apply (put_no_segment KEY hello (ascii_bytes "hello") store_no_segment).
  - reflexivity.
  - vm_compute. reflexivity.
  - reflexivity.
Defined.

(** X9.  Read your write.  On any store, new or opened from a file, whose
    Bloom byte array covers all [m] bits, [get(k)] right after a [put(k, v)]
    that returned gives [v]. *)
Theorem read_your_write : forall key value v s s' fuel,
  0 <= segments s -> covered (bloom s) ->
  put key value s = (s', Ret tt) ->
  encoded value = Ret v ->
  get (S fuel) key s' = (s', Ret (Some v)).
Proof.
  intros key value v s s' fuel Hseg Hcov Hput Hv.
  apply (get_after_put key v value s s' Hseg Hput Hv).
  destruct (put_bloom _ _ _ _ Hseg Hput) as (Hadd & _).
  destruct (add_covered key (bloom s) Hcov) as (b' & Eb & _ & Hin & _).
  rewrite Hadd in Eb. injection Eb as <-. exact Hin.
Qed.

Lemma read_your_write_witness :
  get 1 KEY store_v1 = (store_v1, Ret (Some (ascii_bytes "v1"))).
Proof.
  apply (read_your_write KEY (PyBytes (ascii_bytes "v1")) (ascii_bytes "v1")
           new_store store_v1 0%nat).
  - cbn. lia.
  - right. vm_compute. split; [reflexivity | intros E; discriminate E].
  - vm_compute. reflexivity.
  - reflexivity.
Defined.


(** ** [flush], [close] and opening a file *)

Lemma slice_split (b : bytes) p q r :
  0 <= p <= q -> q <= r -> r <= len b ->
  slice b p r = slice b p q ++ slice b q r.
Proof.
  intros Hp Hq Hr.
  assert (E : skipn (Z.to_nat q) b = slice b q r ++ skipn (Z.to_nat r) b).
  { rewrite slice_in by lia.
    replace (Z.to_nat r) with (Z.to_nat (r - q) + Z.to_nat q)%nat by lia.
    rewrite <- skipn_skipn. symmetry. apply firstn_skipn. }
  apply slice_mid with (pre := firstn (Z.to_nat p) b)
                       (post := skipn (Z.to_nat r) b).
  - rewrite <- app_assoc, <- E. apply slice_decomp; lia.
  - rewrite len_firstn; lia.
  - rewrite len_app, !len_slice by lia. lia.
Qed.

(** The fields of a file that starts with a packed header. *)
Lemma header_fields (x : bytes) ks segs bb :
  0 <= ks < 2 ^ 16 -> 0 <= segs < 2 ^ 32 -> 0 <= bb < 2 ^ 64 ->
  HEADER_FMT_SIZE <= len x ->
  slice x 0 HEADER_FMT_SIZE
  = MAGIC ++ le_split 2 VERSION_MINOR ++ le_split 2 ks ++ le_split 4 segs
    ++ le_split 8 bb ->
  slice x 0 4 = MAGIC /\ uint_at x 6 2 = ks /\ uint_at x 8 4 = segs /\
  uint_at x 12 8 = bb.
Proof.
  intros Hks Hsg Hbb Hl Hh. unfold HEADER_FMT_SIZE in *.
  cbn [Z.add Pos.add Pos.succ] in *.
  assert (F : forall a c, 0 <= a <= c -> c <= 20 ->
                slice x a c = slice (slice x 0 20) a c).
  { intros a c Ha Hc. rewrite slice_slice by lia. reflexivity. }
  unfold uint_at. cbn [Z.add Pos.add Pos.succ].
  rewrite (F 0 4), (F 6 8), (F 8 12), (F 12 20) by lia.
  rewrite Hh. split; [|split; [|split]].
  - apply slice_mid with (pre := [])
      (post := le_split 2 VERSION_MINOR ++ le_split 2 ks ++ le_split 4 segs
               ++ le_split 8 bb); reflexivity.
  - erewrite slice_mid with (pre := MAGIC ++ le_split 2 VERSION_MINOR)
      (x := le_split 2 ks) (post := le_split 4 segs ++ le_split 8 bb);
      [| now rewrite <- app_assoc | reflexivity | reflexivity].
    now apply le_combine_le_split_small.
  - erewrite slice_mid
      with (pre := MAGIC ++ le_split 2 VERSION_MINOR ++ le_split 2 ks)
           (x := le_split 4 segs) (post := le_split 8 bb);
      [| now rewrite <- !app_assoc | reflexivity | reflexivity].
    now apply le_combine_le_split_small.
  - erewrite slice_mid
      with (pre := MAGIC ++ le_split 2 VERSION_MINOR ++ le_split 2 ks
                   ++ le_split 4 segs)
           (x := le_split 8 bb) (post := []);
      [| now rewrite <- !app_assoc, app_nil_r | reflexivity | reflexivity].
    now apply le_combine_le_split_small.
Qed.

(** [flush] on a dirty store whose file already covers the Bloom bytes,
    with what it leaves in the file. *)
Lemma flush_written s :
  _header_dirty s = true ->
  0 <= segments s < 2 ^ 32 -> 0 <= key_size s < 2 ^ 16 ->
  len (Bloom.bits (bloom s)) < 2 ^ 64 ->
  table_end s + len (Bloom.bits (bloom s)) <= len (mm s) ->
  exists x,
    flush s = (mkStore (key_size s) (segments s) (bloom_fp s) x (bloom s) false,
               Ret tt) /\
    len x = len (mm s) /\
    slice x 0 HEADER_FMT_SIZE
    = MAGIC ++ le_split 2 VERSION_MINOR ++ le_split 2 (key_size s)
      ++ le_split 4 (segments s)
      ++ le_split 8 (len (Bloom.bits (bloom s))) /\
    slice x (table_end s) (table_end s + len (Bloom.bits (bloom s)))
    = Bloom.bits (bloom s) /\
    forall p q, HEADER_FMT_SIZE <= p <= q -> q <= len (mm s) ->
      q <= table_end s \/ table_end s + len (Bloom.bits (bloom s)) <= p ->
      slice x p q = slice (mm s) p q.
Proof.
  intros Hd Hsg Hks Hb64 Hin.
  pose proof (len_nonneg (Bloom.bits (bloom s))) as Hb.
  assert (Ht : 24 <= table_end s)
    by (unfold table_end, HEADER_SIZE, BUCKET_SIZE; lia).
  unfold flush, bind at 1, gets at 1, id. rewrite Hd. fold (table_end s).
  destruct (Z.ltb_spec (len (mm s))
              (table_end s + len (Bloom.bits (bloom s)))); [lia|].
  unfold bind at 1, ret at 1.
  erewrite bind_Ret by (apply on_mm_Ret, mmap_setslice_Ret; lia).
  set (x1 := firstn _ (mm s) ++ _ ++ skipn _ (mm s)).
  assert (L1 : len x1 = len (mm s)) by (apply len_overwrite; lia).
  unfold bind at 1, lift at 1. unfold pack_header.
  rewrite !pack_uint_Ret
    by (change (2 ^ (8 * Z.of_nat 8)) with (2 ^ 64);
        change (2 ^ (8 * Z.of_nat 4)) with (2 ^ 32);
        change (2 ^ (8 * Z.of_nat 2)) with (2 ^ 16);
        unfold VERSION_MINOR in *; lia).
  cbn [obind].
  set (hdr := MAGIC ++ _).
  assert (Lh : len hdr = 20) by (apply len_header).
  erewrite bind_Ret.
  2:{ apply on_mm_Ret. cbn [mm set_mm].
      replace (len hdr) with (0 + len hdr) by lia.
      apply mmap_setslice_Ret; lia. }
  unfold modify, set_header_dirty, set_mm.
  cbn [key_size segments bloom_fp mm bloom _header_dirty].
  eexists. split; [reflexivity|]. unfold HEADER_FMT_SIZE.
  cbn [Z.add Pos.add Pos.succ].
  split; [|split; [|split]].
  - rewrite len_overwrite; lia.
  - eapply slice_mid with (pre := firstn (Z.to_nat 0) x1);
      [reflexivity | reflexivity | cbn [firstn Z.to_nat len length]; lia].
  - rewrite slice_overwrite by lia.
    unfold x1. eapply slice_mid; [reflexivity | | reflexivity].
    rewrite len_firstn; lia.
  - intros p q Hpq Hq Hout.
    rewrite slice_overwrite by lia.
    unfold x1. apply slice_overwrite; lia.
Qed.

(** When the file is too short for the Bloom bytes, [flush] first
    lengthens it with zeros. *)
Lemma flush_grow s :
  _header_dirty s = true ->
  len (mm s) < table_end s + len (Bloom.bits (bloom s)) <= PY_SSIZE_T_MAX ->
  flush s
  = flush (set_mm (mm s ++ zeros (table_end s + len (Bloom.bits (bloom s))
                                 - len (mm s))) s).
Proof.
  intros Hd Hlt. set (L := len (Bloom.bits (bloom s))) in *.
  set (y := mm s ++ zeros (table_end s + L - len (mm s))).
  assert (Ly : len y = table_end s + L)
    by (unfold y; rewrite len_app, len_zeros; lia).
  unfold flush at 2. unfold bind at 1, gets at 1, id.
  unfold set_mm at 1. cbn [_header_dirty]. rewrite Hd.
  unfold set_mm at 1 2 3 4 5 6. cbn [mm bloom segments key_size].
  fold (table_end s). fold L. fold y. rewrite Ly.
  rewrite Z.ltb_irrefl. unfold bind at 1, ret at 1.
  unfold flush, bind at 1, gets at 1, id. rewrite Hd.
  fold (table_end s). fold L.
  destruct (Z.ltb_spec (len (mm s)) (table_end s + L)); [|lia].
  erewrite bind_Ret by (apply on_mm_Ret, mmap_resize_Ret; lia).
  reflexivity.
Qed.

(** [flush] on a dirty store. *)
Lemma flush_dirty s :
  _header_dirty s = true ->
  0 <= segments s < 2 ^ 32 -> 0 <= key_size s < 2 ^ 16 ->
  len (Bloom.bits (bloom s)) < 2 ^ 64 ->
  (len (mm s) < table_end s + len (Bloom.bits (bloom s)) ->
   table_end s + len (Bloom.bits (bloom s)) <= PY_SSIZE_T_MAX) ->
  exists x,
    flush s = (mkStore (key_size s) (segments s) (bloom_fp s) x (bloom s) false,
               Ret tt) /\
    len x = Z.max (len (mm s)) (table_end s + len (Bloom.bits (bloom s))) /\
    slice x 0 HEADER_FMT_SIZE
    = MAGIC ++ le_split 2 VERSION_MINOR ++ le_split 2 (key_size s)
      ++ le_split 4 (segments s)
      ++ le_split 8 (len (Bloom.bits (bloom s))) /\
    slice x (table_end s) (table_end s + len (Bloom.bits (bloom s)))
    = Bloom.bits (bloom s) /\
    forall p q, HEADER_FMT_SIZE <= p <= q -> q <= len (mm s) ->
      q <= table_end s \/ table_end s + len (Bloom.bits (bloom s)) <= p ->
      slice x p q = slice (mm s) p q.
Proof.
  intros Hd Hsg Hks Hb64 Hmax.
  destruct (Z.lt_ge_cases (len (mm s))
              (table_end s + len (Bloom.bits (bloom s)))) as [Hlt | Hge].
  - specialize (Hmax Hlt). rewrite flush_grow by (auto; lia).
    set (y := mm s ++ zeros _).
    assert (Ly : len y = table_end s + len (Bloom.bits (bloom s)))
      by (unfold y; rewrite len_app, len_zeros; lia).
    destruct (flush_written (set_mm y s)) as (x & Hf & Lx & Hh & Hbl & Hfr);
      try assumption.
    { unfold set_mm, table_end. cbn [mm segments bloom]. fold (table_end s).
      lia. }
    unfold set_mm, table_end in Hf, Lx, Hh, Hbl, Hfr.
    cbn [mm segments bloom key_size bloom_fp] in Hf, Lx, Hh, Hbl, Hfr.
    fold (table_end s) in Hbl, Hfr.
    exists x. split; [exact Hf|]. split; [lia|]. split; [exact Hh|].
    split; [exact Hbl|].
    intros p q Hpq Hq Hout. unfold HEADER_FMT_SIZE in *.
    rewrite Hfr by lia. unfold y. apply slice_app_l; lia.
  - destruct (flush_written s) as (x & Hf & Lx & Hh & Hbl & Hfr);
      try assumption; try lia.
    exists x. split; [exact Hf|]. split; [lia|]. auto.
Qed.

(** A [flush] that returns on a dirty store packed the header and, where
    the file was too short, resized it. *)
Lemma flush_Ret_inv s s1 :
  _header_dirty s = true -> flush s = (s1, Ret tt) ->
  0 <= segments s < 2 ^ 32 /\ 0 <= key_size s < 2 ^ 16 /\
  len (Bloom.bits (bloom s)) < 2 ^ 64 /\
  (len (mm s) < table_end s + len (Bloom.bits (bloom s)) ->
   table_end s + len (Bloom.bits (bloom s)) <= PY_SSIZE_T_MAX).
Proof.
  intros Hd H. unfold flush, bind at 1, gets at 1, id in H. rewrite Hd in H.
  fold (table_end s) in H.
  apply bind_Ret_inv in H as (sa & [] & Ha & H).
  apply bind_Ret_inv in H as (sb & [] & Hb & H).
  apply bind_Ret_inv in H as (sc & hdr & Hc & H).
  apply lift_Ret_inv in Hc as (-> & Hc).
  apply pack_header_Ret_inv in Hc as (_ & Hks & Hsg & Hbb).
  repeat split; try lia.
  intros Hlt. apply Z.ltb_lt in Hlt. rewrite Hlt in Ha.
  apply on_mm_Ret_inv in Ha as (y & Hy & _).
  apply mmap_resize_grow in Hy as (_ & Hy); [exact Hy|].
  apply Z.ltb_lt in Hlt. lia.
Qed.


(** The file [_create_new] writes. *)
Lemma create_new_file ks segs fp s :
  _create_new ks segs fp = Ret s ->
  0 <= ks < 2 ^ 16 /\ 0 <= segs < 2 ^ 32 /\
  s = mkStore ks segs fp
        ((MAGIC ++ le_split 2 VERSION_MINOR ++ le_split 2 ks
          ++ le_split 4 segs ++ le_split 8 1)
         ++ zeros 4 ++ zeros (BUCKET_SIZE * segs) ++ zeros 1)
        (Bloom.mk (sized_m fp) (sized_k fp) (zeros ((sized_m fp + 7) / 8)))
        true.
Proof.
  unfold _create_new. intros H.
  apply obind_Ret_inv in H as (hdr & Hh & H).
  apply obind_Ret_inv in H as (b & Hb & H).
  injection H as <-.
  apply pack_header_Ret_inv in Hh as (-> & Hks & Hsg & _).
  unfold Bloom.__init__ in Hb.
  destruct (_ <? 0); [discriminate|]. injection Hb as <-.
  split; [exact Hks|]. split; [exact Hsg|].
  unfold ljust. rewrite len_header. unfold HEADER_SIZE, HEADER_FMT_SIZE.
  cbn [Z.add Z.sub Z.opp Pos.add Pos.succ Z.pos_sub Pos.pred_double].
  now rewrite <- !app_assoc.
Qed.

(** [_open_existing], check by check. *)
Lemma open_existing_eq file ks segs fp :
  _open_existing file ks segs fp =
  if len file =? 0 then Raise (ValueError "cannot mmap an empty file")
  else if len file <? HEADER_FMT_SIZE then Raise StructError
  else if negb (bytes_eqb (slice file 0 4) MAGIC)
       then Raise (ValueError "Invalid store file")
  else if negb (uint_at file 6 2 =? ks)
       then Raise (ValueError "Key size mismatch")
  else Ret (mkStore ks (uint_at file 8 4) fp file
              (Bloom.mk (sized_m fp) (sized_k fp)
                 (slice file (HEADER_SIZE + BUCKET_SIZE * uint_at file 8 4)
                    (HEADER_SIZE + BUCKET_SIZE * uint_at file 8 4
                     + uint_at file 12 8)))
              false).
Proof.
  unfold _open_existing. destruct (len file =? 0); [reflexivity|].
  unfold unpack_from, buffer_at.
  change ((PY_SSIZE_T_MAX <? 0) || (0 <? - PY_SSIZE_T_MAX - 1)) with false.
  change (0 <? 0) with false. cbn [obind]. rewrite Z.sub_0_r.
  destruct (Z.ltb_spec (len file) HEADER_FMT_SIZE) as [Hlt | Hge];
    [reflexivity|].
  cbn [obind]. unfold HEADER_FMT_SIZE in *. cbn [Z.add Pos.add Pos.succ] in *.
  assert (Hu : forall p w, 0 <= p -> 0 <= w -> p + w <= 20 ->
                 uint_at (slice file 0 20) p w = uint_at file p w).
  { intros p w Hp Hw Hpw. unfold uint_at. f_equal.
    rewrite slice_slice by lia. f_equal. }
  rewrite !Hu by lia. rewrite slice_slice by lia. cbn [Z.add].
  reflexivity.
Qed.


(** Opening a file that starts with a packed header for the key size. *)
Lemma open_header (file : bytes) ks sg bb segs' fp :
  0 <= ks < 2 ^ 16 -> 0 <= sg < 2 ^ 32 -> 0 <= bb < 2 ^ 64 ->
  HEADER_FMT_SIZE <= len file ->
  slice file 0 HEADER_FMT_SIZE
  = MAGIC ++ le_split 2 VERSION_MINOR ++ le_split 2 ks ++ le_split 4 sg
    ++ le_split 8 bb ->
  forall ks',
  _open_existing file ks' segs' fp =
  if ks' =? ks
  then Ret (mkStore ks sg fp file
              (Bloom.mk (sized_m fp) (sized_k fp)
                 (slice file (HEADER_SIZE + BUCKET_SIZE * sg)
                    (HEADER_SIZE + BUCKET_SIZE * sg + bb)))
              false)
  else Raise (ValueError "Key size mismatch").
Proof.
  intros Hks Hsg Hbb Hl Hh ks'.
  destruct (header_fields file ks sg bb Hks Hsg Hbb Hl Hh)
    as (Em & Ek & Es & Eb).
  rewrite open_existing_eq, Em, Ek, Es, Eb, bytes_eqb_refl.
  unfold HEADER_FMT_SIZE in *. cbn [Z.add Pos.add Pos.succ] in *.
  destruct (Z.eqb_spec (len file) 0); [lia|].
  destruct (Z.ltb_spec (len file) 20); [lia|]. cbn [negb].
  rewrite (Z.eqb_sym ks ks').
  destruct (Z.eqb_spec ks' ks) as [-> |]; reflexivity.
Qed.

(** X11.  A new file opened again.  The file the constructor writes on a
    new path opens, before any flush, only with the key size it was made
    with: any other key size raises [ValueError("Key size mismatch")].
    The opened store has the segment count of the file whatever
    [segments] is passed, and a Bloom filter sized from the rate passed
    over the single zero byte the file reserves. *)
Theorem create_then_open : forall ks segs fp s ks' segs' fp',
  _create_new ks segs fp = Ret s ->
  __init__ (Some (mm s)) ks' segs' fp' =
  if ks' =? ks
  then Ret (mkStore ks segs fp' (mm s)
              (Bloom.mk (sized_m fp') (sized_k fp') (zeros 1)) false)
  else Raise (ValueError "Key size mismatch").
Proof.
  intros ks segs fp s ks' segs' fp' H.
  apply create_new_file in H as (Hks & Hsg & ->). cbn [mm __init__].
  set (hdr := MAGIC ++ _).
  assert (Lh : len hdr = 20) by apply len_header.
  set (file := hdr ++ _).
  assert (Lf : len file = 24 + 8 * segs + 1).
  { unfold file, BUCKET_SIZE. rewrite !len_app, !len_zeros. lia. }
  rewrite (open_header file ks segs 1 segs' fp' Hks Hsg ltac:(lia)).
  - destruct (ks' =? ks); [|reflexivity]. do 3 f_equal.
    unfold HEADER_SIZE, BUCKET_SIZE.
    apply slice_mid with (pre := hdr ++ zeros 4 ++ zeros (8 * segs))
                         (post := []).
    + unfold file, BUCKET_SIZE. now rewrite <- !app_assoc, app_nil_r.
    + rewrite !len_app, !len_zeros. lia.
    + rewrite len_zeros. lia.
  - unfold HEADER_FMT_SIZE. lia.
  - unfold HEADER_FMT_SIZE. cbn [Z.add Pos.add Pos.succ].
    apply slice_mid with (pre := [])
      (post := zeros 4 ++ zeros (BUCKET_SIZE * segs) ++ zeros 1);
      [reflexivity | reflexivity | fold hdr; rewrite Lh; reflexivity].
Qed.

Lemma create_then_open_witness :
  __init__ (Some (mm new_store)) 8 16 fp_1e_16
  = Ret (mkStore 8 256 fp_1e_16 (mm new_store) (Bloom.mk 77 54 (zeros 1)) false)
  /\ __init__ (Some (mm new_store)) 4 256 fp_0_01
     = Raise (ValueError "Key size mismatch").
Proof.
  split.
  - apply (create_then_open 8 256 fp_0_01 new_store 8 16 fp_1e_16).
    vm_compute. reflexivity.
  - apply (create_then_open 8 256 fp_0_01 new_store 4 256 fp_0_01).
    vm_compute. reflexivity.
Defined.

(** X12.  What [flush] writes.  A [flush] that returns on a dirty store
    keeps the key size, the segment count, the rate and the Bloom filter
    and clears the dirty flag.  The file becomes as long as needed to
    hold the Bloom bytes at [bloom_offset] and is never shortened; its
    header holds the magic, the key size, the segment count and the
    number of Bloom bytes; the Bloom bytes are at [bloom_offset]; bytes
    from offset 20 on outside the Bloom bytes are as they were. *)
Theorem flush_effect : forall s s1,
  _header_dirty s = true -> flush s = (s1, Ret tt) ->
  let L := len (Bloom.bits (bloom s)) in
  key_size s1 = key_size s /\ segments s1 = segments s /\
  bloom_fp s1 = bloom_fp s /\ bloom s1 = bloom s /\
  _header_dirty s1 = false /\
  len (mm s1) = Z.max (len (mm s)) (table_end s + L) /\
  slice (mm s1) 0 4 = MAGIC /\
  uint_at (mm s1) 6 2 = key_size s /\
  uint_at (mm s1) 8 4 = segments s /\
  uint_at (mm s1) 12 8 = L /\
  slice (mm s1) (table_end s) (table_end s + L) = Bloom.bits (bloom s) /\
  forall p q, HEADER_FMT_SIZE <= p <= q -> q <= len (mm s) ->
    q <= table_end s \/ table_end s + L <= p ->
    slice (mm s1) p q = slice (mm s) p q.
Proof.
  intros s s1 Hd Hf L.
  destruct (flush_Ret_inv s s1 Hd Hf) as (Hsg & Hks & Hb64 & Hmax).
  destruct (flush_dirty s Hd Hsg Hks Hb64 Hmax)
    as (x & Ef & Lx & Hh & Hbl & Hfr).
  rewrite Hf in Ef. injection Ef as ->.
  cbn [key_size segments bloom_fp mm bloom _header_dirty].
  pose proof (len_nonneg (Bloom.bits (bloom s))).
  assert (Ht : 24 <= table_end s)
    by (unfold table_end, HEADER_SIZE, BUCKET_SIZE; lia).
  destruct (header_fields x (key_size s) (segments s) L Hks Hsg)
    as (Em & Ek & Es & Eb);
    [fold L in Hb64; lia | unfold HEADER_FMT_SIZE; lia | exact Hh |].
  do 5 (split; [reflexivity|]).
  split; [exact Lx|]. split; [exact Em|]. split; [exact Ek|].
  split; [exact Es|]. split; [exact Eb|]. split; [exact Hbl | exact Hfr].
Qed.

Lemma flush_effect_witness :
  bloom flushed_1e_16 = bloom new_store_1e_16 /\
  len (mm flushed_1e_16) = 2082 /\
  uint_at (mm flushed_1e_16) 12 8 = 10.
Proof.
  destruct (flush_effect new_store_1e_16 flushed_1e_16)
    as (_ & _ & _ & Hb & _ & Hl & _ & _ & _ & Hn & _).
  - reflexivity.
  - vm_compute. reflexivity.
  - split; [exact Hb|].
    split; [exact (Hl <: len (mm flushed_1e_16) = 2082)|].
    exact (Hn <: uint_at (mm flushed_1e_16) 12 8 = 10).
Defined.

(** X13.  When [flush] returns.  On a clean store [flush] returns and
    changes nothing.  On a dirty store it returns exactly when the header
    can be packed (key size below [2 ^ 16], segment count below [2 ^ 32],
    neither negative) and, where the file is too short for the Bloom bytes,
    the needed length is a [Py_ssize_t]. *)
Theorem flush_returns_iff : forall s,
  (_header_dirty s = false -> flush s = (s, Ret tt)) /\
  (_header_dirty s = true ->
   ((exists s1, flush s = (s1, Ret tt)) <->
    0 <= segments s < 2 ^ 32 /\ 0 <= key_size s < 2 ^ 16 /\
    len (Bloom.bits (bloom s)) < 2 ^ 64 /\
    (len (mm s) < table_end s + len (Bloom.bits (bloom s)) ->
     table_end s + len (Bloom.bits (bloom s)) <= PY_SSIZE_T_MAX))).
Proof.
  intros s. split.
  - intros Hd. unfold flush, bind, gets, id. now rewrite Hd.
  - intros Hd. split.
    + intros [s1 Hf]. exact (flush_Ret_inv s s1 Hd Hf).
    + intros (Hsg & Hks & Hb64 & Hmax).
      destruct (flush_dirty s Hd Hsg Hks Hb64 Hmax) as (x & Ef & _).
      eauto.
Qed.

Lemma flush_returns_iff_witness :
  (exists s1, flush store_v1 = (s1, Ret tt)) /\
  flush flushed_v1 = (flushed_v1, Ret tt).
Proof.
  split.
  - destruct (flush_returns_iff store_v1) as (_ & H).
    apply H; [vm_compute; reflexivity|].
    vm_compute. repeat split; intros E; discriminate E.
  - destruct (flush_returns_iff flushed_v1) as (H & _).
    apply H. vm_compute. reflexivity.
Defined.

(** X14.  [flush] twice is [flush] once: after a [flush] that returned, a
    second [flush] returns and changes nothing, so [close] after [flush]
    leaves the file as the [flush] left it. *)
Theorem flush_idempotent : forall s s1,
  flush s = (s1, Ret tt) ->
  flush s1 = (s1, Ret tt) /\ close s1 = (mm s1, Ret tt).
Proof.
  intros s s1 Hf.
  assert (Hc : _header_dirty s1 = false).
  { destruct (_header_dirty s) eqn:Hd.
    - destruct (flush_Ret_inv s s1 Hd Hf) as (Hsg & Hks & Hb64 & Hmax).
      destruct (flush_dirty s Hd Hsg Hks Hb64 Hmax) as (x & Ef & _).
      rewrite Hf in Ef. now injection Ef as ->.
    - unfold flush, bind, gets, id in Hf. rewrite Hd in Hf.
      unfold ret in Hf. now injection Hf as <-. }
  assert (E : flush s1 = (s1, Ret tt))
    by (unfold flush, bind, gets, id; now rewrite Hc).
  split; [exact E|]. unfold close. now rewrite E.
Qed.

Lemma flush_idempotent_witness :
  flush flushed_v1 = (flushed_v1, Ret tt) /\
  close flushed_v1 = (mm flushed_v1, Ret tt).
Proof.
  apply (flush_idempotent store_v1 flushed_v1). vm_compute. reflexivity.
Defined.

(** X15.  Close and reopen.  When [close] flushes a dirty store, opening
    the file it leaves, with the same key size and rate and any
    [segments], succeeds and gives the flushed store back: same file, key
    size, segment count and Bloom bytes, clean header.  Only [m] and [k]
    of the Bloom filter are computed anew from the rate. *)
Theorem close_then_reopen : forall s s1 segs',
  _header_dirty s = true -> flush s = (s1, Ret tt) ->
  close s = (mm s1, Ret tt) /\
  __init__ (Some (mm s1)) (key_size s) segs' (bloom_fp s)
  = Ret (set_bloom (Bloom.mk (sized_m (bloom_fp s)) (sized_k (bloom_fp s))
                      (Bloom.bits (bloom s))) s1).
Proof.
  intros s s1 segs' Hd Hf.
  split; [unfold close; now rewrite Hf|].
  destruct (flush_Ret_inv s s1 Hd Hf) as (Hsg & Hks & Hb64 & Hmax).
  destruct (flush_dirty s Hd Hsg Hks Hb64 Hmax)
    as (x & Ef & Lx & Hh & Hbl & Hfr).
  rewrite Hf in Ef. injection Ef as ->.
  pose proof (len_nonneg (Bloom.bits (bloom s))).
  assert (Ht : 24 <= table_end s)
    by (unfold table_end, HEADER_SIZE, BUCKET_SIZE; lia).
  cbn [__init__ mm].
  rewrite (open_header x (key_size s) (segments s)
             (len (Bloom.bits (bloom s))) segs' (bloom_fp s) Hks Hsg);
    [| lia | unfold HEADER_FMT_SIZE; lia | exact Hh].
  rewrite Z.eqb_refl. fold (table_end s). rewrite Hbl. reflexivity.
Qed.

Lemma close_then_reopen_witness :
  close store_v1 = (mm flushed_v1, Ret tt) /\
  __init__ (Some (mm flushed_v1)) 8 1 fp_0_01 = Ret flushed_v1.
Proof.
  destruct (close_then_reopen store_v1 flushed_v1 1) as (Hc & Ho).
  - vm_compute. reflexivity.
  - vm_compute. reflexivity.
  - split; [exact Hc|].
    exact (Ho <: __init__ (Some (mm flushed_v1)) 8 1 fp_0_01 = Ret flushed_v1).
Defined.


Lemma add_sizes key b b' :
  covered b -> Bloom.add key b = (b', Ret tt) ->
  Bloom.m b' = Bloom.m b /\ Bloom.k b' = Bloom.k b /\
  len (Bloom.bits b') = len (Bloom.bits b).
Proof.
  intros [Hk | Hm] H; unfold Bloom.add in H;
    destruct (Bloom.digest128 key) as [h1 h2].
  - replace (Z.to_nat (Bloom.k b)) with 0%nat in H by lia.
    cbn [Bloom.add_loop] in H. unfold ret in H. injection H as <-. auto.
  - destruct (add_loop_fits h1 h2 (Z.to_nat (Bloom.k b)) 0 b)
      as (b2 & E & Hm' & Hk' & Hl' & _); [lia | |].
    { intros j _. apply covered_fits. exact Hm. }
    rewrite E in H. injection H as <-. auto.
Qed.

(** What [flush] never changes, and the flag it leaves. *)
Lemma flush_fields s s1 :
  flush s = (s1, Ret tt) ->
  key_size s1 = key_size s /\ segments s1 = segments s /\
  bloom_fp s1 = bloom_fp s /\ bloom s1 = bloom s /\
  _header_dirty s1 = false.
Proof.
  intros Hf. destruct (_header_dirty s) eqn:Hd.
  - destruct (flush_Ret_inv s s1 Hd Hf) as (Hsg & Hks & Hb64 & Hmax).
    destruct (flush_dirty s Hd Hsg Hks Hb64 Hmax) as (x & Ef & _).
    rewrite Hf in Ef. injection Ef as ->. cbn. auto.
  - unfold flush, bind, gets, id in Hf. rewrite Hd in Hf.
    unfold ret in Hf. injection Hf as <-. auto.
Qed.

(** X16.  Round trip where the Bloom bytes spill at most eight bytes.
    [flush] writes the Bloom bytes at [bloom_offset]; when they end at
    most eight bytes after the end the file had before the [put] (they
    reach no further than the [next_offset] field of the entry just
    appended) and the Bloom byte array covers all [m] bits, [put(k, v)],
    [flush], [get(k)] returns [v].  This is the case of a new store with
    the default rate, which reserves one byte and writes two. *)
Theorem round_trip_small_bloom : forall s key value v s1 fuel,
  0 <= segments s < 2 ^ 32 -> 0 <= key_size s < 2 ^ 16 ->
  covered (bloom s) ->
  table_end s + len (Bloom.bits (bloom s)) <= len (mm s) + 8 ->
  encoded value = Ret v ->
  put key value s = (s1, Ret tt) ->
  exists s2, flush s1 = (s2, Ret tt) /\
             get (S fuel) key s2 = (s2, Ret (Some v)).
Proof.
  intros s key value v s1 fuel [Hseg Hsg32] Hks Hcov Hspill Hv Hput.
  pose proof (put_facts key v value s s1 Hseg Hput Hv) as F.
  destruct F as (Hl & Hp & Hs & H1 & H2 & Hn & Hv32 & Hmax & Hadd & Eks & Esg
                 & _ & Hd & _).
  pose proof (len_mm_after_put key v value s s1 Hseg Hput Hv) as Hlen.
  pose proof (put_head key v value s s1 Hseg Hput Hv) as Hhead.
  pose proof (put_entry_hdr key v value s s1 Hseg Hput Hv) as Hhdr.
  pose proof (put_entry_key key v value s s1 Hseg Hput Hv) as Hkey.
  pose proof (put_entry_value key v value s s1 Hseg Hput Hv) as Hval.
  destruct (add_sizes key (bloom s) (bloom s1) Hcov Hadd) as (_ & _ & El).
  destruct (add_covered key (bloom s) Hcov) as (b' & Eb & _ & Hin & _).
  rewrite Hadd in Eb. injection Eb as <-.
  pose proof (len_nonneg key). pose proof (len_nonneg v).
  pose proof (len_nonneg (Bloom.bits (bloom s))).
  set (bpo := _bucket_offset (hash64 key mod segments s)) in *.
  set (eof := len (mm s)) in *.
  assert (Ete : table_end s1 = table_end s)
    by (unfold table_end; now rewrite Esg).
  assert (Hb8 : bpo + 8 <= table_end s)
    by (unfold table_end, bpo, _bucket_offset, HEADER_SIZE, BUCKET_SIZE; lia).
  unfold ENTRY_HDR_SIZE, HEADER_SIZE in *. cbn [Z.add Pos.add Pos.succ] in *.
  destruct (flush_frame s1 Hd) as (x & Hf & Lx & Hframe);
    [lia | lia | rewrite Ete, El; lia | lia |].
  rewrite Ete, El in Hframe. unfold HEADER_FMT_SIZE in Hframe.
  cbn [Z.add Pos.add Pos.succ] in Hframe.
  eexists. split; [exact Hf|].
  apply get_found with (e := eof) (nxt := le_combine (slice x eof (eof + 8)));
    cbn [key_size segments bloom_fp mm bloom _header_dirty];
    rewrite ?Esg, ?Lx; fold bpo; try lia; try assumption.
  - rewrite Hframe by lia. exact Hhead.
  - rewrite (slice_split x eof (eof + 8) (eof + 20)) by lia. f_equal.
    + rewrite <- (split_le_combine (slice x eof (eof + 8))) at 1.
      f_equal. apply Nat2Z.inj. fold (len (slice x eof (eof + 8))).
      rewrite len_slice by lia. lia.
    + rewrite Hframe by lia.
      replace (eof + 20) with (eof + (8 + 12)) by lia.
      rewrite <- (slice_slice (mm s1) eof (eof + 20) 8 (8 + 12)) by lia.
      rewrite Hhdr.
      apply slice_mid
        with (pre := le_split 8 (bucket_head (mm s) (hash64 key mod segments s)))
             (post := []);
        [ now rewrite app_nil_r
        | now rewrite len_le_split
        | rewrite len_app, !len_le_split; reflexivity ].
  - rewrite Hframe by lia. exact Hkey.
  - rewrite Hframe by lia. exact Hval.
Qed.

Lemma round_trip_small_bloom_witness :
  exists s2, flush store_v1 = (s2, Ret tt) /\
             get 1 KEY s2 = (s2, Ret (Some (ascii_bytes "v1"))).
Proof.
  apply (round_trip_small_bloom new_store KEY (PyBytes (ascii_bytes "v1"))
           (ascii_bytes "v1") store_v1 0%nat).
  - cbn. lia.
  - cbn. lia.
  - right. vm_compute. split; [reflexivity | intros E; discriminate E].
  - vm_compute. intros E; discriminate E.
  - reflexivity.
  - vm_compute. reflexivity.
Defined.

(** ** A store with a one-byte Bloom filter *)

Lemma kept_new ks segs fp s :
  _create_new ks segs fp = Ret s -> 0 < segs -> 0 < sized_m fp <= 8 ->
  kept s [].
Proof.
  intros H Hsegs Hm.
  pose proof (new_represents ks segs fp s H ltac:(intros _; lia) Hsegs) as Hr.
  apply create_new_file in H as (Hks & Hsg & ->).
  unfold kept. cbn [segments key_size bloom bloom_fp mm _header_dirty Bloom.m
                    Bloom.k Bloom.bits].
  split; [exact Hr|]. split; [lia|]. split; [lia|].
  split; [reflexivity|]. split; [reflexivity|]. split; [|split].
  - replace ((sized_m fp + 7) / 8) with 1; [now rewrite len_zeros|].
    apply Z.div_unique with (r := sized_m fp - 1); lia.
  - apply slice_mid with (pre := [])
      (post := zeros 4 ++ zeros (BUCKET_SIZE * segs) ++ zeros 1);
      [now rewrite <- app_assoc | reflexivity | now rewrite len_header].
  - discriminate.
Qed.

Lemma kept_put key value v s s' h :
  kept s h -> encoded value = Ret v -> put key value s = (s', Ret tt) ->
  kept s' ((key, v) :: h).
Proof.
  intros (Hr & Hsg & Hks & Em & Ek & El & Hh & _) Hv Hput.
  pose proof Hr as (Hseg0 & _ & _ & _ & Hcov & _).
  assert (Hseg : 0 <= segments s) by lia.
  pose proof (put_facts key v value s s' Hseg Hput Hv) as F.
  destruct F as (_ & _ & Hs & H1 & H2 & _ & _ & _ & Hadd & Eks & Esg & Efp
                 & Hd & _).
  destruct (add_sizes key (bloom s) (bloom s') Hcov Hadd) as (Em' & Ek' & El').
  assert (Ete : table_end s' = table_end s)
    by (unfold table_end; now rewrite Esg).
  unfold kept. rewrite Ete, Esg, Eks, Efp, Em', Ek', El'.
  split; [now apply (put_represents _ key value v s s' h)|].
  do 5 (split; [assumption|]). split.
  - rewrite <- Hh. unfold HEADER_SIZE, HEADER_FMT_SIZE in *.
    cbn [Z.add Pos.add Pos.succ] in *.
    apply (put_unchanged key value s s' 0 20 Hseg Hput); lia.
  - rewrite Hd. discriminate.
Qed.

Lemma kept_flush s s1 h :
  kept s h -> flush s = (s1, Ret tt) -> kept s1 h.
Proof.
  intros Hk Hf. destruct (_header_dirty s) eqn:Hd.
  2:{ unfold flush, bind, gets, id in Hf. rewrite Hd in Hf.
      unfold ret in Hf. now injection Hf as <-. }
  destruct Hk as (Hr & Hsg & Hks & Em & Ek & El & Hh & _).
  destruct Hr as (Hseg0 & Hks0 & (_ & Htab) & Hch & Hcov & Hbl).
  assert (Ht : 24 <= table_end s)
    by (unfold table_end, HEADER_SIZE, BUCKET_SIZE; lia).
  destruct (flush_dirty s Hd) as (x & Ef & Lx & Hx & Hb & Hfr);
    [lia | lia | rewrite El; lia | rewrite El; lia |].
  rewrite Hf in Ef. injection Ef as ->. rewrite El in *.
  unfold kept, represents, table_end.
  cbn [segments key_size bloom bloom_fp mm _header_dirty].
  fold (table_end s). unfold HEADER_FMT_SIZE in Hfr.
  cbn [Z.add Pos.add Pos.succ] in Hfr.
  split; [|auto 10].
  split; [exact Hseg0|]. split; [exact Hks0|]. split; [lia|].
  split; [|auto].
  intros seg Hseg.
  assert (Hbo : 24 <= _bucket_offset seg /\ _bucket_offset seg + 8 <= table_end s)
    by (unfold table_end, _bucket_offset, HEADER_SIZE, BUCKET_SIZE; lia).
  replace (bucket_head x seg) with (bucket_head (mm s) seg)
    by (unfold bucket_head, uint_at; now rewrite Hfr by lia).
  apply holds_frame with (x := mm s); [lia | lia | lia | | now apply Hch].
  intros p q Hpq Hq. apply Hfr; lia.
Qed.

(** A clean store of this kind is what opening its file gives. *)
Lemma kept_open s h segs' :
  kept s h -> _header_dirty s = false ->
  _open_existing (mm s) (key_size s) segs' (bloom_fp s) = Ret s.
Proof.
  intros (Hr & Hsg & Hks & Em & Ek & El & Hh & Hb) Hd. specialize (Hb Hd).
  destruct Hr as (Hseg0 & Hks0 & (_ & Htab) & _).
  assert (Ht : 24 <= table_end s)
    by (unfold table_end, HEADER_SIZE, BUCKET_SIZE; lia).
  rewrite (open_header (mm s) (key_size s) (segments s) 1 segs' (bloom_fp s));
    [| lia | lia | lia | unfold HEADER_FMT_SIZE; lia | exact Hh].
  rewrite Z.eqb_refl. fold (table_end s). rewrite Hb, <- Em, <- Ek.
  destruct s as [ks sg fp file [m k bits] d]. cbn in *. now subst d.
Qed.

Lemma lived_kept s h : lived 8 s h -> kept s h.
Proof.
  induction 1 as [ks segs fp s H Hsegs Hm
                 | s h key value v s' Hl IH Hv Hput
                 | s h s' Hl IH Hf
                 | s h file segs' s' Hl IH Hc Ho].
  - now apply (kept_new ks segs fp).
  - now apply (kept_put key value v s s' h).
  - now apply (kept_flush s s' h).
  - unfold close in Hc. destruct (flush s) as [s1 r] eqn:Hf.
    injection Hc as <- ->.
    destruct (flush_fields s s1 Hf) as (Eks & _ & Efp & _ & Hd).
    pose proof (kept_flush s s1 h IH Hf) as Hk.
    cbn [__init__] in Ho. rewrite <- Eks, <- Efp in Ho.
    rewrite (kept_open s1 h segs' Hk Hd) in Ho. now injection Ho as <-.
Qed.

(** X17.  A persistent map when the Bloom filter fits its reserved byte.
    With a rate that sizes the Bloom filter to at most eight bits (for
    instance bloom_fp = 0.05), a store made on a new path and then put to,
    flushed, and closed and opened again with the same key size and rate,
    any number of times in any order, answers [get(key)] with the value of
    the newest [put] of that key and with absent when there was none. *)
Theorem persistent_map : forall s h key fuel,
  lived 8 s h -> (length h <= fuel)%nat ->
  get fuel key s = (s, Ret (lookup key h)).
Proof.
  intros s h key fuel Hl Hf.
  destruct (lived_kept s h Hl) as (Hr & _).
  now apply (represents_get (table_end s + 1)).
Qed.

Lemma lived_small_4 :
  lived 8 small_4 [(u64key 119, ascii_bytes "other");
                 (u64key 1, ascii_bytes "hello")].
Proof.
  apply lived_flush with (s := small_3); [|vm_compute; reflexivity].
  apply lived_put with (s := small_2)
                       (value := PyBytes (ascii_bytes "other"));
    [| reflexivity | vm_compute; reflexivity].
  apply lived_reopen with (s := small_1) (file := mm small_2) (segs' := 16);
    [| vm_compute; reflexivity | vm_compute; reflexivity].
  apply lived_put with (s := small_new) (value := hello);
    [| reflexivity | vm_compute; reflexivity].
  apply (lived_new 8 8 256 fp_0_05);
    [vm_compute; reflexivity | lia | cbn; lia].
Qed.

Lemma persistent_map_witness :
  get 2 (u64key 1) small_4 = (small_4, Ret (Some (ascii_bytes "hello"))).
Proof.
  apply (persistent_map small_4
           [(u64key 119, ascii_bytes "other"); (u64key 1, ascii_bytes "hello")]
           (u64key 1) 2%nat).
  - exact lived_small_4.
  - cbn. lia.
Defined.


(** ** A store with at most nine Bloom bytes *)

(** The walk over such a chain finds every key the chain holds. *)
Lemma walk_links lo key s e kvs :
  0 < lo -> len (mm s) <= PY_SSIZE_T_MAX ->
  links lo (key_size s) (mm s) e kvs ->
  forall v, lookup key kvs = Some v ->
  forall fuel, (length kvs <= fuel)%nat ->
    walk fuel key (hash64 key) e s = (s, Ret (Some v)).
Proof.
  intros Hlo Hmax Hh.
  induction Hh as [| e nxt k v kvs Hle Hn Hk Hv Hin Hhdr Hkey Hval Hlast Hh IH];
    intros w Hw fuel Hf.
  - discriminate Hw.
  - destruct fuel as [| fuel]; [cbn in Hf; lia|]. cbn [length] in Hf.
    pose proof (len_nonneg v). pose proof (len_nonneg k).
    unfold ENTRY_HDR_SIZE in *. cbn [Z.add Pos.add Pos.succ] in *.
    cbn [walk]. cbn [lookup] in Hw. destruct (Z.eqb_spec e 0); [lia|].
    unfold bind at 1, gets at 1, id. unfold bind at 1, lift at 1.
    unfold ENTRY_HDR_SIZE. cbn [Z.add Pos.add Pos.succ].
    rewrite unpack_from_Ret by lia. rewrite Hhdr, Hkey.
    destruct (entry_hdr_fields nxt (hash64 k) (len v)) as (E0 & E1 & E2);
      [lia | apply hash64_range | lia |].
    rewrite E0, E1, E2.
    destruct (bytes_eqb k key) eqn:E.
    + apply bytes_eqb_eq in E. rewrite <- E, Z.eqb_refl. cbn [andb].
      unfold ret. rewrite Hval. now injection Hw as <-.
    + rewrite andb_false_r. apply IH; [exact Hw | lia].
Qed.

(** Such a chain survives any change of the file that keeps every slice
    lying eight bytes or more after [lo]: of an entry that starts before,
    only the link can change, and it is the last of its chain. *)
Lemma links_frame lo ks x y e kvs :
  0 <= lo -> 0 <= ks -> len x <= len y ->
  (forall p q, lo + 8 <= p <= q -> q <= len x -> slice y p q = slice x p q) ->
  links lo ks x e kvs -> links lo ks y e kvs.
Proof.
  intros Hlo Hks Hlen Hsame Hh.
  induction Hh as [| e nxt k v kvs Hle Hn Hk Hv Hin Hhdr Hkey Hval Hlast Hh IH].
  - constructor.
  - pose proof (len_nonneg v).
    unfold ENTRY_HDR_SIZE in *. cbn [Z.add Pos.add Pos.succ] in *.
    assert (Htail : slice y (e + 8) (e + 20)
                    = le_split 8 (hash64 k) ++ le_split 4 (len v)).
    { rewrite Hsame by lia.
      replace (e + 20) with (e + (8 + 12)) by lia.
      rewrite <- (slice_slice x e (e + 20) 8 (8 + 12)) by lia.
      rewrite Hhdr.
      apply slice_mid with (pre := le_split 8 nxt) (post := []);
        [ now rewrite app_nil_r
        | now rewrite len_le_split
        | rewrite len_app, !len_le_split; reflexivity ]. }
    assert (Hnew : slice y e (e + 20)
                   = le_split 8 (le_combine (slice y e (e + 8)))
                     ++ le_split 8 (hash64 k) ++ le_split 4 (len v)).
    { rewrite (slice_split y e (e + 8) (e + 20)) by lia.
      rewrite Htail. f_equal.
      rewrite <- (split_le_combine (slice y e (e + 8))) at 1.
      f_equal. apply Nat2Z.inj. fold (len (slice y e (e + 8))).
      rewrite len_slice by lia. lia. }
    destruct Hlast as [Hfar | ->].
    + apply links_entry with (nxt := nxt);
        unfold ENTRY_HDR_SIZE; cbn [Z.add Pos.add Pos.succ];
        try lia; try assumption; try (rewrite Hsame by lia; assumption);
        try (now left).
    + apply links_entry with (nxt := le_combine (slice y e (e + 8)));
        unfold ENTRY_HDR_SIZE; cbn [Z.add Pos.add Pos.succ];
        try lia; try assumption; try (rewrite Hsame by lia; assumption);
        try (now right); try (now constructor).
      pose proof (le_combine_bound (slice y e (e + 8))) as Hb.
      replace (Z.of_nat (length (slice y e (e + 8)))) with 8 in Hb; [lia|].
      fold (len (slice y e (e + 8))). rewrite len_slice by lia. lia.
Qed.

Lemma keeps_new cap ks segs fp s :
  _create_new ks segs fp = Ret s -> 0 < segs -> 0 < sized_m fp <= cap ->
  cap <= 72 -> keeps s [].
Proof.
  intros H Hsegs Hm Hcap.
  pose proof (fun seg => new_store_heads ks segs fp s seg H) as Hheads.
  apply create_new_file in H as (Hks & Hsg & ->).
  set (hdr := MAGIC ++ _) in *.
  assert (Lh : len hdr = 20) by apply len_header.
  set (file := hdr ++ _) in *.
  assert (Lf : len file = 24 + 8 * segs + 1).
  { unfold file, BUCKET_SIZE. rewrite !len_app, !len_zeros. lia. }
  destruct (header_fields file ks segs 1 Hks Hsg) as (Em & Ek & Es & _);
    [lia | unfold HEADER_FMT_SIZE; lia | |].
  { apply slice_mid with (pre := [])
      (post := zeros 4 ++ zeros (BUCKET_SIZE * segs) ++ zeros 1);
      [reflexivity | reflexivity | fold hdr; now rewrite Lh]. }
  pose proof (Z.div_mod (sized_m fp + 7) 8 ltac:(lia)).
  pose proof (Z.mod_pos_bound (sized_m fp + 7) 8 ltac:(lia)).
  unfold keeps, table_end, covered.
  cbn [segments key_size bloom bloom_fp mm _header_dirty Bloom.m Bloom.k
       Bloom.bits] in *.
  rewrite len_zeros. unfold HEADER_SIZE, BUCKET_SIZE, PY_SSIZE_T_MAX.
  split; [lia|]. split; [lia|]. split; [lia|]. split; [now right|].
  split; [intros seg Hseg; cbn [in_segment filter]; constructor|].
  split; [right; lia|]. split; [intros k v []|].
  split; [reflexivity|]. split; [reflexivity|]. split; [lia|].
  split; [exact Em|]. split; [exact Ek|]. split; [exact Es|]. discriminate.
Qed.

Lemma keeps_put key value v s s' h :
  keeps s h -> encoded value = Ret v -> put key value s = (s', Ret tt) ->
  keeps s' ((key, v) :: h).
Proof.
  intros (Hsg & Hks & Htab & Hfar & Hch & Hcov & Hbl & Em & Ek & El & Hm & Hk
          & Hs & _) Hv Hput.
  assert (Hseg : 0 <= segments s) by lia.
  pose proof (put_facts key v value s s' Hseg Hput Hv) as F.
  destruct F as (Hl & _ & Hin & H1 & H2 & Hn & Hv32 & Hmax & Hadd & Eks & Esg
                 & Efp & Hd & _).
  pose proof (len_mm_after_put key v value s s' Hseg Hput Hv) as Hlen.
  pose proof (put_head key v value s s' Hseg Hput Hv) as Hhead.
  pose proof (put_entry_hdr key v value s s' Hseg Hput Hv) as Hhdr.
  pose proof (put_entry_key key v value s s' Hseg Hput Hv) as Hkey.
  pose proof (put_entry_value key v value s s' Hseg Hput Hv) as Hval.
  destruct (add_sizes key (bloom s) (bloom s') Hcov Hadd) as (Em' & Ek' & El').
  destruct (add_covered key (bloom s) Hcov) as (b' & Eb & Hc' & Hnew & Hold).
  rewrite Hadd in Eb. injection Eb as <-.
  pose proof (len_nonneg key). pose proof (len_nonneg v).
  set (seg := hash64 key mod segments s) in *.
  set (bpo := _bucket_offset seg) in *.
  set (eof := len (mm s)) in *.
  assert (Hte : table_end s' = table_end s)
    by (unfold table_end; now rewrite Esg).
  assert (Hb8 : bpo + 8 <= table_end s)
    by (unfold table_end, bpo, _bucket_offset, HEADER_SIZE, BUCKET_SIZE; lia).
  assert (Hpos : 24 <= table_end s)
    by (unfold table_end, HEADER_SIZE, BUCKET_SIZE; lia).
  unfold HEADER_SIZE in H1. unfold ENTRY_HDR_SIZE in Hlen, Hmax.
  assert (Hsame : forall p q, 0 <= p <= q -> q <= eof ->
                    q <= bpo \/ bpo + 8 <= p ->
                    slice (mm s') p q = slice (mm s) p q).
  { intros p q Hpq Hq Hout.
    apply (put_unchanged key value s s' p q Hseg Hput); fold seg bpo; lia. }
  assert (Hframe : forall e kvs,
             links (table_end s + 1) (key_size s) (mm s) e kvs ->
             links (table_end s + 1) (key_size s) (mm s') e kvs).
  { intros e kvs. apply links_frame; [lia | lia | lia |].
    intros p q Hpq Hq. apply Hsame; lia. }
  unfold keeps. rewrite Hte, Esg, Eks, Efp, Em', Ek', El', Hd.
  split; [lia|]. split; [lia|]. split; [lia|]. split; [left; lia|].
  split; [|split; [exact Hc'|split]].
  - intros seg' Hseg'. unfold in_segment. cbn [filter fst]. fold seg.
    destruct (Z.eqb_spec seg seg') as [<- | Hne].
    + assert (E : bucket_head (mm s') seg = eof).
      { unfold bucket_head, uint_at. fold bpo. rewrite Hhead.
        apply le_combine_le_split_small.
        change (2 ^ (8 * Z.of_nat 8)) with (2 ^ 64).
        unfold PY_SSIZE_T_MAX in *. lia. }
      rewrite E.
      apply links_entry with (nxt := bucket_head (mm s) seg);
        try rewrite <- Eks; try assumption.
      * lia.
      * rewrite Eks. lia.
      * rewrite Eks, Hlen, <- Hl. unfold ENTRY_HDR_SIZE. lia.
      * destruct Hfar as [Hfar | ->]; [left; lia | now right].
      * rewrite Eks. apply Hframe. now apply Hch.
    + assert (E : bucket_head (mm s') seg' = bucket_head (mm s) seg').
      { unfold bucket_head, uint_at. f_equal.
        assert (0 <= _bucket_offset seg' /\
                _bucket_offset seg' + 8 <= table_end s /\
                (_bucket_offset seg' + 8 <= bpo \/ bpo + 8 <= _bucket_offset seg'))
          by (unfold table_end, bpo, _bucket_offset, HEADER_SIZE, BUCKET_SIZE;
              lia).
        apply Hsame; lia. }
      rewrite E. apply Hframe. now apply Hch.
  - intros k w [[= <- <-] | Hi]; [exact Hnew|].
    apply Hold. now apply (Hbl k w).
  - do 3 (split; [assumption|]).
    split; [rewrite <- Hm; apply Hsame; lia|].
    split; [rewrite <- Hk; unfold uint_at; f_equal; apply Hsame; lia|].
    split; [rewrite <- Hs; unfold uint_at; f_equal; apply Hsame; lia|].
    discriminate.
Qed.

Lemma keeps_flush s s1 h :
  keeps s h -> flush s = (s1, Ret tt) -> keeps s1 h.
Proof.
  intros Hk Hf. destruct (_header_dirty s) eqn:Hd.
  2:{ unfold flush, bind, gets, id in Hf. rewrite Hd in Hf.
      unfold ret in Hf. now injection Hf as <-. }
  destruct (flush_Ret_inv s s1 Hd Hf) as (Hsg' & Hks' & Hb64 & Hmax).
  destruct Hk as (Hsg & Hks & Htab & Hfar & Hch & Hcov & Hbl & Em & Ek & El
                  & _).
  assert (Ht : 24 <= table_end s)
    by (unfold table_end, HEADER_SIZE, BUCKET_SIZE; lia).
  destruct (flush_dirty s Hd Hsg' Hks' Hb64 Hmax)
    as (x & Ef & Lx & Hx & Hb & Hfr).
  rewrite Hf in Ef. injection Ef as ->.
  destruct (header_fields x (key_size s) (segments s)
              (len (Bloom.bits (bloom s))) Hks' Hsg')
    as (Hm1 & Hk1 & Hs1 & Hb1); [lia | unfold HEADER_FMT_SIZE; lia | exact Hx |].
  unfold keeps, table_end.
  cbn [segments key_size bloom bloom_fp mm _header_dirty].
  fold (table_end s). unfold HEADER_FMT_SIZE in Hfr.
  cbn [Z.add Pos.add Pos.succ] in Hfr.
  split; [lia|]. split; [lia|]. split; [lia|].
  split; [destruct Hfar; [left; lia | now right]|].
  split; [|auto 12 with zarith].
  intros seg Hseg.
  assert (Hbo : 24 <= _bucket_offset seg /\ _bucket_offset seg + 8 <= table_end s)
    by (unfold table_end, _bucket_offset, HEADER_SIZE, BUCKET_SIZE; lia).
  replace (bucket_head x seg) with (bucket_head (mm s) seg)
    by (unfold bucket_head, uint_at; now rewrite Hfr by lia).
  apply links_frame with (x := mm s); [lia | lia | lia | | now apply Hch].
  intros p q Hpq Hq. apply Hfr; lia.
Qed.

(** A clean store of this kind is what opening its file gives. *)
Lemma keeps_open s h segs' :
  keeps s h -> _header_dirty s = false ->
  _open_existing (mm s) (key_size s) segs' (bloom_fp s) = Ret s.
Proof.
  intros (Hsg & Hks & Htab & _ & _ & _ & _ & Em & Ek & El & Hm & Hk & Hs & Hc)
         Hd.
  destruct (Hc Hd) as (_ & Hn & Hb).
  assert (Ht : 24 <= table_end s)
    by (unfold table_end, HEADER_SIZE, BUCKET_SIZE; lia).
  rewrite open_existing_eq, Hm, Hk, Hs, Hn, bytes_eqb_refl, Z.eqb_refl.
  unfold HEADER_FMT_SIZE. cbn [Z.add Pos.add Pos.succ negb].
  destruct (Z.eqb_spec (len (mm s)) 0); [lia|].
  destruct (Z.ltb_spec (len (mm s)) 20); [lia|].
  fold (table_end s). rewrite Hb, <- Em, <- Ek.
  destruct s as [ks sg fp file [m k bits] d]. cbn in *. now subst d.
Qed.

Lemma lived_keeps cap s h : cap <= 72 -> lived cap s h -> keeps s h.
Proof.
  intros Hcap.
  induction 1 as [ks segs fp s H Hsegs Hm
                 | s h key value v s' Hl IH Hv Hput
                 | s h s' Hl IH Hf
                 | s h file segs' s' Hl IH Hc Ho].
  - now apply (keeps_new cap ks segs fp).
  - now apply (keeps_put key value v s s' h).
  - now apply (keeps_flush s s' h).
  - unfold close in Hc. destruct (flush s) as [s1 r] eqn:Hf.
    injection Hc as <- ->.
    destruct (flush_fields s s1 Hf) as (Eks & _ & Efp & _ & Hd).
    pose proof (keeps_flush s s1 h IH Hf) as Hk.
    cbn [__init__] in Ho. rewrite <- Eks, <- Efp in Ho.
    rewrite (keeps_open s1 h segs' Hk Hd) in Ho. now injection Ho as <-.
Qed.

(** [get] finds every key that was put. *)
Lemma keeps_get s h key v fuel :
  keeps s h -> lookup key h = Some v -> (length h <= fuel)%nat ->
  get fuel key s = (s, Ret (Some v)).
Proof.
  intros (Hsg & Hks & Htab & _ & Hch & Hcov & Hbl & _) Hv Hf.
  rewrite get_locate. unfold locate.
  destruct (contains_covered key (bloom s) Hcov) as [r Er].
  pose proof (Hbl key v (lookup_In key h v Hv)) as Ht.
  rewrite Er in Ht |- *. cbn [snd] in Ht |- *. injection Ht as ->.
  destruct (Z.eqb_spec (segments s) 0); [lia|].
  pose proof (Z.mod_pos_bound (hash64 key) (segments s) ltac:(lia)) as Hs.
  set (seg := hash64 key mod segments s) in *.
  assert (Hb : 24 <= _bucket_offset seg /\ _bucket_offset seg + 8 <= table_end s)
    by (unfold table_end, _bucket_offset, HEADER_SIZE, BUCKET_SIZE; lia).
  unfold BUCKET_SIZE. rewrite unpack_from_Ret by lia. cbn [obind].
  rewrite uint_at_whole by (rewrite len_slice; lia).
  change (le_combine (slice (mm s) _ _)) with (bucket_head (mm s) seg).
  apply (walk_links (table_end s + 1) key s _ (in_segment (segments s) seg h));
    [lia | lia | now apply Hch | unfold seg; now rewrite lookup_in_segment
     | pose proof (in_segment_length (segments s) seg h); lia].
Qed.

(** Such a store can be flushed, and opening the file gives it back. *)
Lemma keeps_reopens s h segs' :
  keeps s h ->
  exists s1,
    flush s = (s1, Ret tt) /\ keeps s1 h /\
    _open_existing (mm s1) (key_size s) segs' (bloom_fp s) = Ret s1.
Proof.
  intros Hk.
  assert (Hex : exists s1, flush s = (s1, Ret tt)).
  { destruct (_header_dirty s) eqn:Hd.
    - destruct Hk as (Hsg & Hks & Htab & _ & _ & _ & _ & _ & _ & El & _).
      destruct (flush_dirty s Hd) as (x & Ef & _); try lia; [|eauto].
      intros _. unfold table_end, HEADER_SIZE, BUCKET_SIZE, PY_SSIZE_T_MAX.
      lia.
    - exists s. unfold flush, bind, gets, id. now rewrite Hd. }
  destruct Hex as [s1 Hf]. exists s1. split; [exact Hf|].
  pose proof (keeps_flush s s1 h Hk Hf) as Hk1. split; [exact Hk1|].
  destruct (flush_fields s s1 Hf) as (Eks & _ & Efp & _ & Hd).
  rewrite <- Eks, <- Efp. now apply (keeps_open s1 h segs').
Qed.

(** X18.  No key is lost with up to nine Bloom bytes.  With a rate that
    sizes the Bloom filter to at most 72 bits (the default 0.01 gives 10),
    a store made on a new path and then put to, flushed, and closed and
    opened again with the same key size and rate, any number of times in
    any order, answers [get(key)] for every key that was put with the
    value of the newest [put] of that key: the Bloom bytes [flush] writes
    over the start of the first entry reach only its [next_offset]. *)
Theorem no_key_lost : forall s h key v fuel,
  lived 72 s h -> lookup key h = Some v -> (length h <= fuel)%nat ->
  get fuel key s = (s, Ret (Some v)).
Proof.
  intros s h key v fuel Hl. apply keeps_get.
  now apply (lived_keeps 72).
Qed.

Lemma lived_default_4 :
  lived 72 default_4 [(u64key 119, ascii_bytes "other");
                      (u64key 1, ascii_bytes "hello")].
Proof.
  apply lived_flush with (s := default_3); [|vm_compute; reflexivity].
  apply lived_put with (s := default_2)
                       (value := PyBytes (ascii_bytes "other"));
    [| reflexivity | vm_compute; reflexivity].
  apply lived_reopen with (s := default_1) (file := mm default_2) (segs' := 16);
    [| vm_compute; reflexivity | vm_compute; reflexivity].
  apply lived_put with (s := new_store) (value := hello);
    [| reflexivity | vm_compute; reflexivity].
  apply (lived_new 72 8 256 fp_0_01);
    [vm_compute; reflexivity | lia | cbn; lia].
Qed.

Lemma no_key_lost_witness :
  get 2 (u64key 1) default_4 = (default_4, Ret (Some (ascii_bytes "hello"))).
Proof.
  apply (no_key_lost default_4
           [(u64key 119, ascii_bytes "other"); (u64key 1, ascii_bytes "hello")]
           (u64key 1) (ascii_bytes "hello") 2%nat).
  - exact lived_default_4.
  - vm_compute. reflexivity.
  - cbn. lia.
Defined.


(** X19.  A key added twice is in the filter.  The first [add] may grow
    the byte array and change [m] between two bits of the key; it leaves
    [m = 8 * len(bits)] when it does, so a second [add] of the key sets
    all its bits under one [m], and the membership test passes. *)
Theorem bloom_add_twice : forall key b0 b1 b2,
  (0 < Bloom.k b0 -> 0 < Bloom.m b0) ->
  Bloom.add key b0 = (b1, Ret tt) ->
  Bloom.add key b1 = (b2, Ret tt) ->
  Bloom.__contains__ key b2 = (b2, Ret true).
Proof. intros key b0 b1 b2. apply add_twice_contains. Qed.

Lemma bloom_add_twice_witness :
  snd (Bloom.__contains__ (u64key 1) bloom_once) = Ret false /\
  Bloom.__contains__ (u64key 1) bloom_twice = (bloom_twice, Ret true).
Proof.
  split; [vm_compute; reflexivity|].
  apply (bloom_add_twice (u64key 1) (bloom reopened_store) bloom_once
           bloom_twice).
  - intros _. vm_compute. reflexivity.
  - vm_compute. reflexivity.
  - vm_compute. reflexivity.
Defined.

(** X20.  Such a store (Bloom filter of at most 72 bits) can always be
    flushed, closed and opened again: [flush] returns, and opening the
    file [close] leaves, with the same key size and rate and any
    [segments], gives back exactly the flushed store. *)
Theorem lived_reopens : forall s h segs',
  lived 72 s h ->
  exists s1,
    flush s = (s1, Ret tt) /\ close s = (mm s1, Ret tt) /\
    __init__ (Some (mm s1)) (key_size s) segs' (bloom_fp s) = Ret s1.
Proof.
  intros s h segs' Hl.
  destruct (keeps_reopens s h segs' (lived_keeps 72 s h ltac:(lia) Hl))
    as (s1 & Hf & _ & Ho).
  exists s1. split; [exact Hf|]. split; [unfold close; now rewrite Hf|].
  exact Ho.
Qed.

Lemma lived_reopens_witness :
  exists s1,
    flush default_1 = (s1, Ret tt) /\ close default_1 = (mm s1, Ret tt) /\
    __init__ (Some (mm s1)) (key_size default_1) 16 (bloom_fp default_1)
    = Ret s1.
Proof.
  apply (lived_reopens default_1 [(u64key 1, ascii_bytes "hello")] 16).
  apply lived_put with (s := new_store) (value := hello);
    [| reflexivity | vm_compute; reflexivity].
  apply (lived_new 72 8 256 fp_0_01);
    [vm_compute; reflexivity | lia | cbn; lia].
Defined.


(** ** examples/build_store.py *)











